(** * The block-level ACA compressor of the H-matrix library (namespace [hmat])

    A shallow embedding of [HMatrixAcaCompressor<ValueType, N>]
    ([hmatrix_aca_compressor_impl.hpp], in the source tree the last part of
    [lib/assembly/discrete_sparse_linear_operator.cpp]), instantiated at
    [ValueType = double]:

    - [compressBlock]            the adaptive cross approximation of one block,
    - [evaluateMatMinusLowRank]  the residual evaluator,
    - [randomIndex]              sampling of a row that was not used before.

    Doubles are Rocq's primitive binary64 floats, [std::size_t] is a [Z] reduced
    modulo [2^64], [Eigen::Index] is a signed [Z], an [Eigen] matrix is its two
    dimensions and a coefficient function, [std::set<std::size_t>] is a [gset Z].
    Code that can fail returns a [result]: a failed [eigen_assert], or a
    sampling scan that the model followed for [fuel] steps without seeing it
    end. A C++ exception is a value: the caller can catch it and look at the
    block data it passed by reference. *)

From Stdlib Require Import ZArith List Lia Bool Floats.
From stdpp Require Import base gmap sets.

Local Open Scope Z_scope.

(** ** Machine integers *)

Module SizeT.

(** [std::size_t] on the 64-bit targets of the library. *)
Definition modulus : Z := 2 ^ 64.

Definition wrap (z : Z) : Z := z mod modulus.

Definition add (a b : Z) : Z := wrap (a + b).
Definition sub (a b : Z) : Z := wrap (a - b).

(** Conversion of a [size_t] to [std::ptrdiff_t], the type of [Eigen::Index]. *)
Definition to_index (z : Z) : Z := if z <? 2 ^ 63 then z else z - modulus.

(** Largest value of [unsigned int], the type of [m_maxRank] and
    [m_resizeThreshold]. *)
Definition uint_max : Z := 2 ^ 32 - 1.

End SizeT.

(** ** Failures *)

(** The two C++ exceptions [compressBlock] can leave with. *)
Inductive Exception : Type :=
| NaNDetected        (* std::runtime_error("NaN detected.") *)
| NegativeOverflow.  (* boost::numeric::negative_overflow, from numeric_cast *)

(** What ends a run without a state the caller could inspect. *)
Inductive Failure : Type :=
| AssertFail         (* a failed eigen_assert: the process is aborted *)
| OutOfFuel.         (* the model stopped following the scan of randomIndex *)

Inductive result (T : Type) : Type :=
| Ok (x : T)
| Fail (f : Failure).

Arguments Ok {T} x.
Arguments Fail {T} f.

Definition bind {T U : Type} (r : result T) (k : T -> result U) : result U :=
  match r with
  | Ok x => k x
  | Fail f => Fail f
  end.

#[global] Instance result_bind : MBind result := fun _ _ k r => bind r k.

(** ** Doubles *)

Module Dbl.

Definition zero : float := PrimFloat.zero.

(** The literal [1E-12] of the source: the double nearest to it. *)
Definition floor_1em12 : float := 0x1.19799812dea11p-40%float.

(** [x] is neither an infinity nor a NaN. *)
Definition finite (x : float) : bool :=
  match Prim2SF x with
  | S754_zero _ | S754_finite _ _ _ => true
  | S754_infinity _ | S754_nan => false
  end.

(** The test the source applies to every coefficient of [M - M]:
    [(x - x) == (x - x)], with the IEEE comparison. *)
Definition selfEq (x : float) : bool :=
  PrimFloat.eqb (PrimFloat.sub x x) (PrimFloat.sub x x).

End Dbl.

(** ** Eigen matrices *)

Module Eigen.

Record Matrix : Type := mkMatrix {
  rows : Z;
  cols : Z;
  coeff : Z -> Z -> float
}.

(** [0, 1, ..., n-1]. *)
Definition upto (n : Z) : list Z := seqZ 0 n.

(** The coefficients' positions in storage (column-major) order. *)
Definition positions (r c : Z) : list (Z * Z) :=
  flat_map (fun j => map (fun i => (i, j)) (upto r)) (upto c).

Definition entries (M : Matrix) : list float :=
  map (fun p => coeff M (fst p) (snd p)) (positions (rows M) (cols M)).

(** The matrix as a list of rows, to display and compare it. *)
Definition to_rows (M : Matrix) : list (list float) :=
  map (fun i => map (fun j => coeff M i j) (upto (cols M))) (upto (rows M)).

(** [M.resize(r, c); M.setZero()]. *)
Definition zeros (r c : Z) : result Matrix :=
  if (0 <=? r) && (0 <=? c) then Ok (mkMatrix r c (fun _ _ => Dbl.zero))
  else Fail AssertFail.

(** [M.block(startRow, startCol, blockRows, blockCols)], with the range
    assertion of [Eigen::Block]. *)
Definition block (M : Matrix) (startRow startCol blockRows blockCols : Z)
  : result Matrix :=
  if (0 <=? startRow) && (0 <=? blockRows) && (startRow <=? rows M - blockRows)
     && (0 <=? startCol) && (0 <=? blockCols) && (startCol <=? cols M - blockCols)
  then Ok (mkMatrix blockRows blockCols
             (fun i j => coeff M (startRow + i) (startCol + j)))
  else Fail AssertFail.

(** The inner product of row [i] of [X] with column [j] of [Y], the terms
    added from the first to the last. *)
Definition dot (X Y : Matrix) (i j : Z) : float :=
  fold_left (fun acc k => PrimFloat.add acc (PrimFloat.mul (coeff X i k) (coeff Y k j)))
            (upto (cols X)) Dbl.zero.

(** [X * Y]; the inner dimensions must agree. *)
Definition mul (X Y : Matrix) : result Matrix :=
  if cols X =? rows Y then Ok (mkMatrix (rows X) (cols Y) (dot X Y))
  else Fail AssertFail.

(** [X - Y]; the dimensions must agree. *)
Definition sub (X Y : Matrix) : result Matrix :=
  if (rows X =? rows Y) && (cols X =? cols Y)
  then Ok (mkMatrix (rows X) (cols X)
             (fun i j => PrimFloat.sub (coeff X i j) (coeff Y i j)))
  else Fail AssertFail.

(** [M / s]. *)
Definition divScalar (M : Matrix) (s : float) : Matrix :=
  mkMatrix (rows M) (cols M) (fun i j => PrimFloat.div (coeff M i j) s).

Definition cwiseAbs (M : Matrix) : Matrix :=
  mkMatrix (rows M) (cols M) (fun i j => PrimFloat.abs (coeff M i j)).

(** One step of Eigen's [max_coeff_visitor]: a strictly larger value
    replaces the current one. *)
Definition visitMax (M : Matrix) (best : float * Z * Z) (p : Z * Z)
  : float * Z * Z :=
  if PrimFloat.ltb (fst (fst best)) (coeff M (fst p) (snd p))
  then (coeff M (fst p) (snd p), fst p, snd p)
  else best.

(** [M.maxCoeff(&row, &col)]: the visitor starts at [(0, 0)] and walks the
    coefficients in storage order; the matrix must not be empty. *)
Definition maxCoeff (M : Matrix) : result (float * Z * Z) :=
  if (0 <? rows M) && (0 <? cols M)
  then Ok (fold_left (visitMax M) (tl (positions (rows M) (cols M)))
                     (coeff M 0 0, 0, 0))
  else Fail AssertFail.

(** [M(i, j)], with the index assertion. *)
Definition at_ (M : Matrix) (i j : Z) : result float :=
  if (0 <=? i) && (i <? rows M) && (0 <=? j) && (j <? cols M)
  then Ok (coeff M i j) else Fail AssertFail.

(** [M.col(k) = v]: [k] must be a column of [M] and [v] a column vector of
    the height of [M]. *)
Definition setCol (M : Matrix) (k : Z) (v : Matrix) : result Matrix :=
  if (0 <=? k) && (k <? cols M) && (rows v =? rows M) && (cols v =? 1)
  then Ok (mkMatrix (rows M) (cols M)
             (fun i j => if j =? k then coeff v i 0 else coeff M i j))
  else Fail AssertFail.

(** [M.row(k) = v]. *)
Definition setRow (M : Matrix) (k : Z) (v : Matrix) : result Matrix :=
  if (0 <=? k) && (k <? rows M) && (cols v =? cols M) && (rows v =? 1)
  then Ok (mkMatrix (rows M) (cols M)
             (fun i j => if i =? k then coeff v 0 j else coeff M i j))
  else Fail AssertFail.

(** [Matrix Mtmp(M); M.resize(M.rows(), M.cols() + extra); M.setZero();
    M.leftCols(Mtmp.cols()) = Mtmp]. *)
Definition growCols (M : Matrix) (extra : Z) : Matrix :=
  mkMatrix (rows M) (cols M + extra)
    (fun i j => if j <? cols M then coeff M i j else Dbl.zero).

(** The same for rows, with [topRows]. *)
Definition growRows (M : Matrix) (extra : Z) : Matrix :=
  mkMatrix (rows M + extra) (cols M)
    (fun i j => if i <? rows M then coeff M i j else Dbl.zero).

(** [M.norm()]: the square root of the sum of the squared coefficients. *)
Definition norm (M : Matrix) : float :=
  PrimFloat.sqrt
    (fold_left (fun acc x => PrimFloat.add acc (PrimFloat.mul x x))
               (entries M) Dbl.zero).

(** [((M - M).array() == (M - M).array()).all()]. *)
Definition selfEqAll (M : Matrix) : bool := forallb Dbl.selfEq (entries M).

(** Every coefficient is finite. *)
Definition allFinite (M : Matrix) : bool := forallb Dbl.finite (entries M).

End Eigen.

Import Eigen.

(** ** The data model *)

(** [IndexRangeType]: the half-open range [[lo, hi)] of global indices. *)
Record IndexRange : Type := mkRange { lo : Z; hi : Z }.

(** What [compressBlock] reads of a [BlockClusterTreeNode]: the index ranges
    of its row and column cluster and the admissibility flag. *)
Record BlockClusterTreeNode : Type := mkNode {
  rowClusterRange : IndexRange;
  columnClusterRange : IndexRange;
  admissible : bool
}.

(** [HMatrixData<ValueType>] with its two subclasses. *)
Inductive HMatrixData : Type :=
| HMatrixDenseData (M : Matrix)
| HMatrixLowRankData (A B : Matrix).

(** The configuration fixed by the constructor of [HMatrixAcaCompressor]. *)
Record Config : Type := mkConfig {
  m_eps : float;
  m_maxRank : Z;
  m_resizeThreshold : Z
}.

(** [static std::random_device generator] of [randomIndex] together with
    [std::uniform_int_distribution<std::size_t>(0, hi)]: a state that outlives
    every call, and a draw that returns the next state and a value of
    [[0, hi]]. *)
Record RandomSource : Type := mkRandomSource {
  rs_state : Type;
  rs_uniform : rs_state -> Z -> rs_state * Z;
  rs_uniform_range : forall g hi, 0 <= hi -> 0 <= snd (rs_uniform g hi) <= hi
}.

(** A source that reads its draws off a list: the head, reduced to
    [[0, hi]], is the draw; an exhausted list draws [0]. *)
Definition tapeUniform (g : list Z) (hi : Z) : list Z * Z :=
  match g with
  | [] => ([], 0)
  | x :: g' => (g', x mod (hi + 1))
  end.

Lemma tapeUniform_range (g : list Z) (hi : Z) :
  0 <= hi -> 0 <= snd (tapeUniform g hi) <= hi.
Proof.
  intros Hhi. destruct g as [|x g']; simpl; [lia|].
  pose proof (Z.mod_pos_bound x (hi + 1)). lia.
Qed.

Definition tapeSource : RandomSource :=
  mkRandomSource (list Z) tapeUniform tapeUniform_range.

(** ** The compressor *)

Section Compressor.

(** [m_dataAccessor]: the exact entry at a global row and column. *)
Variable accessor : Z -> Z -> float.

(** [HMatrixData::frobeniusNorm()], declared in [hmatrix_low_rank_data.hpp]. *)
Variable frobeniusNorm : HMatrixData -> float.

Variable RS : RandomSource.

(** The number of steps for which the model follows the scan of
    [randomIndex]. *)
Variable fuel : nat.

Variable cfg : Config.

(** Modelled from the spec: [DataAccessor::computeMatrixBlock] is not part of
    the sources; the accessor returns the dense matrix of the exact values
    over the two ranges. *)
Definition computeMatrixBlock (rowRange columnRange : IndexRange) : Matrix :=
  mkMatrix (SizeT.to_index (SizeT.sub (hi rowRange) (lo rowRange)))
           (SizeT.to_index (SizeT.sub (hi columnRange) (lo columnRange)))
           (fun i j => accessor (lo rowRange + i) (lo columnRange + j)).

(** Modelled from the spec: [HMatrixDenseCompressor::compressBlock] is not
    part of the sources; it evaluates the full block through the accessor and
    stores it verbatim as dense data. *)
Definition denseCompressBlock (node : BlockClusterTreeNode) : HMatrixData :=
  HMatrixDenseData
    (computeMatrixBlock (rowClusterRange node) (columnClusterRange node)).

(** *** [evaluateMatMinusLowRank] *)

(** [data = data - A.block(rowStart, 0, rowEnd - rowStart, A.cols()) *
    B.block(0, colStart, colEnd - colStart, B.rows())], the four arguments of
    each [block] in the order the source gives them. *)
Definition evaluateMatMinusLowRank (node : BlockClusterTreeNode)
    (rowIndexRange columnIndexRange : IndexRange) (A B : Matrix)
  : result Matrix :=
  let data := computeMatrixBlock rowIndexRange columnIndexRange in
  let rowStart := SizeT.sub (lo rowIndexRange) (lo (rowClusterRange node)) in
  let rowEnd := SizeT.sub (hi rowIndexRange) (lo (rowClusterRange node)) in
  let colStart := SizeT.sub (lo columnIndexRange) (lo (columnClusterRange node)) in
  let colEnd := SizeT.sub (hi columnIndexRange) (lo (columnClusterRange node)) in
  Ablock ← block A (SizeT.to_index rowStart) 0
                   (SizeT.to_index (SizeT.sub rowEnd rowStart)) (cols A);
  Bblock ← block B 0 (SizeT.to_index colStart)
                   (SizeT.to_index (SizeT.sub colEnd colStart)) (rows B);
  prod ← mul Ablock Bblock;
  sub data prod.

(** *** [randomIndex] *)

(** The scan [while (count <= ind)]: state [newIndex], [count]. *)
Fixpoint scan (n : nat) (previousIndices : gset Z) (ind newIndex count : Z)
  : option Z :=
  match n with
  | O => None
  | S n' =>
    if count <=? ind then
      if bool_decide (newIndex ∈ previousIndices)
      then scan n' previousIndices ind (SizeT.add newIndex 1) count
      else
        let count' := SizeT.add count 1 in
        if count' <=? ind
        then scan n' previousIndices ind (SizeT.add newIndex 1) count'
        else scan n' previousIndices ind newIndex count'
    else Some newIndex
  end.

(** [numberOfPossibleIndices = range[1] - range[0] - previousIndices.size()],
    in [size_t] arithmetic. *)
Definition numberOfPossibleIndices (range : IndexRange)
    (previousIndices : gset Z) : Z :=
  SizeT.sub (SizeT.sub (hi range) (lo range))
            (SizeT.wrap (Z.of_nat (size previousIndices))).

(** Returns the index, the set with the index inserted and the next state
    of the generator. *)
Definition randomIndex (range : IndexRange) (previousIndices : gset Z)
    (g : rs_state RS) : result (Z * gset Z * rs_state RS) :=
  let n := numberOfPossibleIndices range previousIndices in
  let '(g', ind) := rs_uniform RS g (SizeT.sub n 1) in
  match scan fuel previousIndices ind (lo range) 0 with
  | None => Fail OutOfFuel
  | Some newIndex => Ok (newIndex, {[newIndex]} ∪ previousIndices, g')
  end.

(** *** [compressBlock] *)

(** The variables of one call that live across the trials of the loop:
    the factors [A] and [B] inside the caller's [hMatrixData],
    [previousRowIndices], [rankCount], and the static generator.
    [sampled] is a ghost: the rows drawn so far, the last one first.
    ([previousColumnIndices] is declared by the source and never used.) *)
Record AcaState : Type := mkAcaState {
  st_A : Matrix;
  st_B : Matrix;
  previousRowIndices : gset Z;
  rankCount : Z;
  generator : rs_state RS;
  sampled : list Z
}.

(** How one trial of the loop body ends. *)
Inductive Trial : Type :=
| Continue (st : AcaState)                (* the end of the body, or [continue] *)
| Break (st : AcaState)                   (* [break] *)
| Raise (e : Exception) (st : AcaState).  (* an exception leaves the call *)

(** [boost::numeric_cast<std::size_t>] of a [std::ptrdiff_t]. *)
Definition numeric_cast_size_t (z : Z) : option Z :=
  if z <? 0 then None else Some z.

(** [if (rankCount == A.cols()) { ... }]: both factors grow by
    [m_resizeThreshold] zero columns, respectively rows. *)
Definition growIfFull (A B : Matrix) (rankCount : Z) : Matrix * Matrix :=
  if rankCount =? SizeT.wrap (cols A)
  then (growCols A (m_resizeThreshold cfg), growRows B (m_resizeThreshold cfg))
  else (A, B).

(** The stopping test [newCol.norm() * newRow.norm() < m_eps * frobeniousNorm]. *)
Definition negligible (newCol newRow : Matrix) (frobeniousNorm : float) : bool :=
  PrimFloat.ltb (PrimFloat.mul (norm newCol) (norm newRow))
                (PrimFloat.mul (m_eps cfg) frobeniousNorm).

(** The body of [for (int i = 0; i < iterationLimit; ++i)]. *)
Definition acaTrial (node : BlockClusterTreeNode) (st : AcaState)
  : result Trial :=
  '(row, previous', g') ←
      randomIndex (rowClusterRange node) (previousRowIndices st) (generator st);
  let st1 := mkAcaState (st_A st) (st_B st) previous' (rankCount st) g'
                        (row :: sampled st) in
  newRow ← evaluateMatMinusLowRank node
             (mkRange row (SizeT.add row 1)) (columnClusterRange node)
             (st_A st) (st_B st);
  '(val, maxRowInd, maxColInd) ← maxCoeff (cwiseAbs newRow);
  if PrimFloat.ltb val Dbl.floor_1em12 then Ok (Continue st1)
  else
    pivot ← at_ newRow 0 maxColInd;
    let newRow := divScalar newRow pivot in
    let maxColInd :=
      SizeT.to_index (SizeT.add maxColInd (lo (columnClusterRange node))) in
    match numeric_cast_size_t maxColInd with
    | None => Ok (Raise NegativeOverflow st1)
    | Some c =>
      newCol ← evaluateMatMinusLowRank node
                 (rowClusterRange node) (mkRange c (SizeT.add c 1))
                 (st_A st) (st_B st);
      let frobeniousNorm :=
        frobeniusNorm (HMatrixLowRankData (st_A st) (st_B st)) in
      let '(A, B) := growIfFull (st_A st) (st_B st) (rankCount st) in
      A ← setCol A (SizeT.to_index (rankCount st)) newCol;
      B ← setRow B (SizeT.to_index (rankCount st)) newRow;
      let st2 := mkAcaState A B previous' (SizeT.add (rankCount st) 1) g'
                            (row :: sampled st) in
      if negligible newCol newRow frobeniousNorm
      then Ok (Break st2)
      else Ok (Continue st2)
    end.

(** The loop, for [n] more trials. The result is the exception that left
    the loop, if any, and the state at that point. *)
Fixpoint acaLoop (node : BlockClusterTreeNode) (n : nat) (st : AcaState)
  : result (option Exception * AcaState) :=
  match n with
  | O => Ok (None, st)
  | S n' =>
    t ← acaTrial node st;
    match t with
    | Continue st' => acaLoop node n' st'
    | Break st' => Ok (None, st')
    | Raise e st' => Ok (Some e, st')
    end
  end.

(** Modelled from the spec: [getBlockClusterTreeNodeDimensions] is not part
    of the sources; the number of rows and of columns of a block are the
    widths of its two half-open index ranges. *)
Definition numberOfRows (node : BlockClusterTreeNode) : Z :=
  SizeT.sub (hi (rowClusterRange node)) (lo (rowClusterRange node)).

Definition numberOfColumns (node : BlockClusterTreeNode) : Z :=
  SizeT.sub (hi (columnClusterRange node)) (lo (columnClusterRange node)).

Definition iterationLimit (node : BlockClusterTreeNode) : Z :=
  Z.min (m_maxRank cfg) (Z.min (numberOfRows node) (numberOfColumns node)).

(** [if (A.cols() - rankCount > 0) { A = A.block(...); B = B.block(...); }] *)
Definition truncate (A B : Matrix) (rankCount : Z) : result (Matrix * Matrix) :=
  if SizeT.sub (SizeT.wrap (cols A)) rankCount >? 0 then
    A' ← block A 0 0 (rows A) (SizeT.to_index rankCount);
    B' ← block B 0 0 (SizeT.to_index rankCount) (cols B);
    Ok (A', B')
  else Ok (A, B).

(** The condition of the final [if]:
    [!((A-A).array() == (A-A).array()).all() ||
      ((B-B).array() == (B-B).array()).all()]. *)
Definition nanDetected (A B : Matrix) : bool :=
  negb (selfEqAll A) || selfEqAll B.

(** What the caller has after a call that was not aborted: the exception, if
    one was thrown, the block data its [shared_ptr] refers to, and the state
    of the static generator. [pivotRows] is the ghost of [AcaState], in the
    order of the draws. *)
Record Outcome : Type := mkOutcome {
  thrown : option Exception;
  hMatrixData : HMatrixData;
  generatorAfter : rs_state RS;
  pivotRows : list Z
}.

(** The loop runs [iterationLimit] times. (The source counts the trials in
    an [int]; a limit above [INT_MAX] is outside this model.) *)
Definition compressBlock (node : BlockClusterTreeNode) (g : rs_state RS)
  : result Outcome :=
  if negb (admissible node)
  then Ok (mkOutcome None (denseCompressBlock node) g [])
  else
    A ← zeros (SizeT.to_index (numberOfRows node)) (m_resizeThreshold cfg);
    B ← zeros (m_resizeThreshold cfg) (SizeT.to_index (numberOfColumns node));
    '(e, st) ← acaLoop node (Z.to_nat (iterationLimit node))
                   (mkAcaState A B ∅ 0 g []);
    match e with
    | Some ex =>
      Ok (mkOutcome (Some ex) (HMatrixLowRankData (st_A st) (st_B st))
                    (generator st) (rev (sampled st)))
    | None =>
      '(A, B) ← truncate (st_A st) (st_B st) (rankCount st);
      Ok (mkOutcome (if nanDetected A B then Some NaNDetected else None)
                    (HMatrixLowRankData A B) (generator st) (rev (sampled st)))
    end.

End Compressor.

Arguments mkAcaState {RS}.
Arguments st_A {RS}.
Arguments st_B {RS}.
Arguments previousRowIndices {RS}.
Arguments rankCount {RS}.
Arguments generator {RS}.
Arguments sampled {RS}.
Arguments Continue {RS}.
Arguments Break {RS}.
Arguments Raise {RS}.
Arguments mkOutcome {RS}.
Arguments thrown {RS}.
Arguments hMatrixData {RS}.
Arguments generatorAfter {RS}.
Arguments pivotRows {RS}.

(** ** The residual as the specification words it *)

(** [accessor.evaluate(range) - A[localRows,:] * B[:,localCols]]: every column
    of [A] on the local rows, every row of [B] on the local columns. The local
    offsets are the global ones minus the base index of the enclosing cluster. *)
Definition residualSpec (accessor : Z -> Z -> float) (node : BlockClusterTreeNode)
    (rowIndexRange columnIndexRange : IndexRange) (A B : Matrix) : result Matrix :=
  let data := computeMatrixBlock accessor rowIndexRange columnIndexRange in
  let rowStart := SizeT.sub (lo rowIndexRange) (lo (rowClusterRange node)) in
  let rowEnd := SizeT.sub (hi rowIndexRange) (lo (rowClusterRange node)) in
  let colStart := SizeT.sub (lo columnIndexRange) (lo (columnClusterRange node)) in
  let colEnd := SizeT.sub (hi columnIndexRange) (lo (columnClusterRange node)) in
  Alocal ← block A (SizeT.to_index rowStart) 0
                   (SizeT.to_index (SizeT.sub rowEnd rowStart)) (cols A);
  Blocal ← block B 0 (SizeT.to_index colStart)
                   (rows B) (SizeT.to_index (SizeT.sub colEnd colStart));
  prod ← mul Alocal Blocal;
  sub data prod.

(** Modelled from the spec: [HMatrixData::frobeniusNorm] is declared in
    [hmatrix_low_rank_data.hpp], which is not part of the sources; the
    Frobenius norm of the approximation accumulated so far, that is of the
    product [A * B] of the factors (of the matrix itself for dense data). *)
Definition frobeniusNormOfData (d : HMatrixData) : float :=
  match d with
  | HMatrixDenseData M => norm M
  | HMatrixLowRankData A B => norm (mkMatrix (rows A) (cols B) (dot A B))
  end.

(** ** Concrete blocks *)

Module Blocks.

(** An admissible block over the rows [[r0, r1)] and the columns [[c0, c1)]. *)
Definition admissibleNode (r0 r1 c0 c1 : Z) : BlockClusterTreeNode :=
  mkNode (mkRange r0 r1) (mkRange c0 c1) true.

Definition denseNode (r0 r1 c0 c1 : Z) : BlockClusterTreeNode :=
  mkNode (mkRange r0 r1) (mkRange c0 c1) false.

(** The matrix with the entry [2] everywhere. *)
Definition twos (i j : Z) : float := 2%float.

(** The zero matrix. *)
Definition zeroBlock (i j : Z) : float := Dbl.zero.

(** Row [0] is zero, every other row holds [5]. *)
Definition zeroThenFive (i j : Z) : float :=
  if i =? 0 then Dbl.zero else 5%float.

(** Every entry is [+infinity]. *)
Definition infinite (i j : Z) : float := infinity.

(** The entry at column [j] is [j + 1]. *)
Definition ramp (i j : Z) : float :=
  if j =? 0 then 1%float else 2%float.

(** The identity matrix: a block over [n] rows and [n] columns has rank [n]. *)
Definition identity (i j : Z) : float :=
  if i =? j then 1%float else Dbl.zero.

Definition eps4 : float := 0x1.a36e2eb1c432dp-14%float. (* 1e-4 *)

(** [eps = 1e-4], [maxRank] and [resizeThreshold] as given. *)
Definition config (maxRank resizeThreshold : Z) : Config :=
  mkConfig eps4 maxRank resizeThreshold.

Definition zeroMatrix (r c : Z) : Matrix := mkMatrix r c (fun _ _ => Dbl.zero).

End Blocks.

(** A run of [compressBlock] with the draws read off a list, the Frobenius
    norm of the specification, and 64 steps for each scan. *)
Abbreviation runOn accessor cfg node draws :=
  (compressBlock accessor frobeniusNormOfData tapeSource 64%nat cfg node draws)
  (only parsing).

(** ** Notions the properties are stated with *)

(** The number of indices of [[lo, x)] that are not in [previousIndices]. *)
Definition unusedBefore (previousIndices : gset Z) (lo x : Z) : Z :=
  Z.of_nat (length (filter (fun j => j ∉ previousIndices) (seqZ lo (x - lo)))).

(** The state a trial ends in. *)
Definition stateOf {RS : RandomSource} (t : Trial RS) : AcaState RS :=
  match t with
  | Continue st | Break st | Raise _ st => st
  end.

(** [afterTrials k st st']: the loop body, started in [st], has run [k] times
    to its end (or to a [continue]) and the loop is now in [st']. *)
Inductive afterTrials (accessor : Z -> Z -> float)
    (frobeniusNorm : HMatrixData -> float) (RS : RandomSource) (fuel : nat)
    (cfg : Config) (node : BlockClusterTreeNode)
  : nat -> AcaState RS -> AcaState RS -> Prop :=
| afterTrials_O st :
    afterTrials accessor frobeniusNorm RS fuel cfg node O st st
| afterTrials_S k st st1 st2 :
    afterTrials accessor frobeniusNorm RS fuel cfg node k st st1 ->
    acaTrial accessor frobeniusNorm RS fuel cfg node st1 = Ok (Continue st2) ->
    afterTrials accessor frobeniusNorm RS fuel cfg node (S k) st st2.

(** The three ways through the loop body that do not abort the process. *)
Inductive TrialCase (accessor : Z -> Z -> float)
    (frobeniusNorm : HMatrixData -> float) (RS : RandomSource) (fuel : nat)
    (cfg : Config) (node : BlockClusterTreeNode) (st : AcaState RS)
  : Trial RS -> Prop :=
| trial_degenerate row previous' g' newRow val maxRowInd maxColInd :
    randomIndex RS fuel (rowClusterRange node) (previousRowIndices st)
                (generator st) = Ok (row, previous', g') ->
    evaluateMatMinusLowRank accessor node (mkRange row (SizeT.add row 1))
      (columnClusterRange node) (st_A st) (st_B st) = Ok newRow ->
    maxCoeff (cwiseAbs newRow) = Ok (val, maxRowInd, maxColInd) ->
    PrimFloat.ltb val Dbl.floor_1em12 = true ->
    TrialCase accessor frobeniusNorm RS fuel cfg node st
      (Continue (mkAcaState (st_A st) (st_B st) previous' (rankCount st) g'
                            (row :: sampled st)))
| trial_overflow row previous' g' newRow val maxRowInd maxColInd pivot :
    randomIndex RS fuel (rowClusterRange node) (previousRowIndices st)
                (generator st) = Ok (row, previous', g') ->
    evaluateMatMinusLowRank accessor node (mkRange row (SizeT.add row 1))
      (columnClusterRange node) (st_A st) (st_B st) = Ok newRow ->
    maxCoeff (cwiseAbs newRow) = Ok (val, maxRowInd, maxColInd) ->
    PrimFloat.ltb val Dbl.floor_1em12 = false ->
    at_ newRow 0 maxColInd = Ok pivot ->
    numeric_cast_size_t
      (SizeT.to_index (SizeT.add maxColInd (lo (columnClusterRange node)))) = None ->
    TrialCase accessor frobeniusNorm RS fuel cfg node st
      (Raise NegativeOverflow
             (mkAcaState (st_A st) (st_B st) previous' (rankCount st) g'
                         (row :: sampled st)))
| trial_stored row previous' g' newRow val maxRowInd maxColInd pivot c newCol
               A0 B0 A B :
    randomIndex RS fuel (rowClusterRange node) (previousRowIndices st)
                (generator st) = Ok (row, previous', g') ->
    evaluateMatMinusLowRank accessor node (mkRange row (SizeT.add row 1))
      (columnClusterRange node) (st_A st) (st_B st) = Ok newRow ->
    maxCoeff (cwiseAbs newRow) = Ok (val, maxRowInd, maxColInd) ->
    PrimFloat.ltb val Dbl.floor_1em12 = false ->
    at_ newRow 0 maxColInd = Ok pivot ->
    numeric_cast_size_t
      (SizeT.to_index (SizeT.add maxColInd (lo (columnClusterRange node)))) = Some c ->
    evaluateMatMinusLowRank accessor node (rowClusterRange node)
      (mkRange c (SizeT.add c 1)) (st_A st) (st_B st) = Ok newCol ->
    growIfFull cfg (st_A st) (st_B st) (rankCount st) = (A0, B0) ->
    setCol A0 (SizeT.to_index (rankCount st)) newCol = Ok A ->
    setRow B0 (SizeT.to_index (rankCount st)) (divScalar newRow pivot) = Ok B ->
    TrialCase accessor frobeniusNorm RS fuel cfg node st
      (let st2 := mkAcaState A B previous' (SizeT.add (rankCount st) 1) g'
                             (row :: sampled st) in
       if negligible cfg newCol (divScalar newRow pivot)
            (frobeniusNorm (HMatrixLowRankData (st_A st) (st_B st)))
       then Break st2 else Continue st2).

(** The state [compressBlock] enters the loop with. *)
Definition initialState {RS : RandomSource} (cfg : Config)
    (node : BlockClusterTreeNode) (g : rs_state RS) : AcaState RS :=
  mkAcaState
    (mkMatrix (SizeT.to_index (numberOfRows node)) (m_resizeThreshold cfg)
              (fun _ _ => Dbl.zero))
    (mkMatrix (m_resizeThreshold cfg) (SizeT.to_index (numberOfColumns node))
              (fun _ _ => Dbl.zero))
    ∅ 0 g [].

(** What every state of the loop satisfies: the shapes of the factors, the
    place of [rankCount] in them, and the account of the rows drawn. *)
Record LoopInv {RS : RandomSource} (cfg : Config) (node : BlockClusterTreeNode)
    (st : AcaState RS) : Prop := mkLoopInv {
  inv_rowsA : rows (st_A st) = SizeT.to_index (numberOfRows node);
  inv_colsB : cols (st_B st) = SizeT.to_index (numberOfColumns node);
  inv_inner : cols (st_A st) = rows (st_B st);
  inv_rank : 0 <= rankCount st <= cols (st_A st);
  inv_width : cols (st_A st) <= rankCount st + m_resizeThreshold cfg;
  inv_trials : rankCount st <= Z.of_nat (length (sampled st));
  inv_used : size (previousRowIndices st) = length (sampled st);
  inv_usedset : previousRowIndices st = list_to_set (sampled st)
}.

(** Every entry of the block is [+0.0]. *)
Definition allZeroBlock (accessor : Z -> Z -> float)
    (node : BlockClusterTreeNode) : Prop :=
  forall i j,
    lo (rowClusterRange node) <= i < hi (rowClusterRange node) ->
    lo (columnClusterRange node) <= j < hi (columnClusterRange node) ->
    accessor i j = Dbl.zero.

(** Both factors hold zeros only and no term was stored. *)
Definition zeroFactors {RS : RandomSource} (st : AcaState RS) : Prop :=
  coeff (st_A st) = (fun _ _ => Dbl.zero) /\
  coeff (st_B st) = (fun _ _ => Dbl.zero) /\
  rankCount st = 0.

(** [m_maxRank] and [m_resizeThreshold] are values of [unsigned int]. *)
Definition validConfig (cfg : Config) : Prop :=
  0 <= m_maxRank cfg <= SizeT.uint_max /\
  0 <= m_resizeThreshold cfg <= SizeT.uint_max.

(** A non-empty range of [size_t] indices. *)
Definition nonEmptyRange (r : IndexRange) : Prop :=
  0 <= lo r /\ lo r < hi r /\ hi r < SizeT.modulus.

(** Two states of a random source deliver the same next [n] draws, whatever
    the bounds asked for. *)
Fixpoint sameDraws (RS : RandomSource) (n : nat) (g1 g2 : rs_state RS) : Prop :=
  match n with
  | O => True
  | S n' =>
    forall hi, snd (rs_uniform RS g1 hi) = snd (rs_uniform RS g2 hi) /\
               sameDraws RS n' (fst (rs_uniform RS g1 hi)) (fst (rs_uniform RS g2 hi))
  end.

(** Two states of the loop that differ at most in the generator. *)
Definition sameButGenerator {RS : RandomSource} (st1 st2 : AcaState RS) : Prop :=
  st_A st1 = st_A st2 /\ st_B st1 = st_B st2 /\
  previousRowIndices st1 = previousRowIndices st2 /\
  rankCount st1 = rankCount st2 /\ sampled st1 = sampled st2.

(** Two trials that end the same way, in states that differ at most in the
    generator, the generators of which deliver the same next [n] draws. *)
Definition trialSim {RS : RandomSource} (n : nat) (t1 t2 : Trial RS) : Prop :=
  match t1, t2 with
  | Continue a, Continue b | Break a, Break b =>
      sameButGenerator a b /\ sameDraws RS n (generator a) (generator b)
  | Raise e a, Raise e' b =>
      e = e' /\ sameButGenerator a b /\
      sameDraws RS n (generator a) (generator b)
  | _, _ => False
  end.

(** The state of the static generator after [n] more calls of [randomIndex]
    on [range], [used] indices being in the set before the first of them:
    each call draws once, with the bound [remaining count - 1]. *)
Fixpoint advance (RS : RandomSource) (range : IndexRange) (used n : nat)
    (g : rs_state RS) : rs_state RS :=
  match n with
  | O => g
  | S n' =>
    advance RS range (S used) n'
      (fst (rs_uniform RS g
              (SizeT.sub
                 (SizeT.sub (SizeT.sub (hi range) (lo range))
                            (SizeT.wrap (Z.of_nat used))) 1)))
  end.

(** What a caller can see of a run, the generator apart. *)
Definition observable {RS : RandomSource} (r : result (Outcome RS))
  : result (option Exception * HMatrixData * list Z) :=
  match r with
  | Ok o => Ok (thrown o, hMatrixData o, pivotRows o)
  | Fail f => Fail f
  end.

(** The slots of the factors that hold no term yet -- the columns of [A]
    and the rows of [B] from [rankCount] on -- are [+0.0]. *)
Definition zeroPadded {RS : RandomSource} (st : AcaState RS) : Prop :=
  forall i j, rankCount st <= j ->
    coeff (st_A st) i j = Dbl.zero /\ coeff (st_B st) j i = Dbl.zero.

(** The terms [st] holds are in [st'], where [st] put them. *)
Definition keepsTerms {RS : RandomSource} (st st' : AcaState RS) : Prop :=
  rankCount st <= rankCount st' /\
  forall i j, 0 <= j < rankCount st ->
    coeff (st_A st') i j = coeff (st_A st) i j /\
    coeff (st_B st') j i = coeff (st_B st) j i.

(** The rows drawn so far are pairwise different rows of the range, and
    they are the set of used rows. *)
Definition distinctSamples {RS : RandomSource} (range : IndexRange)
    (st : AcaState RS) : Prop :=
  NoDup (sampled st) /\
  previousRowIndices st = list_to_set (sampled st) /\
  forall r, r ∈ sampled st -> lo range <= r < hi range.

(** ** The sparse operator *)

(** [DiscreteSparseLinearOperator<ValueType>] of
    [lib/assembly/discrete_sparse_linear_operator.cpp] at [ValueType = double]:
    [asMatrix] and [addBlock]. The operator reads its [Epetra_FECrsMatrix]
    through the calls below; a row view is the error code of the call and the
    (column index, value) pairs it exposes, in their order. An [arma::Mat] is
    modelled like an Eigen matrix, by its dimensions and coefficients. Epetra
    counts rows and columns from 0: the theorems on [asMatrix] take the two
    counts to be non-negative. *)
Module Sparse.

Record Epetra_CrsMatrix : Type := mkEpetra {
  NumProc : Z;                                   (* Comm().NumProc() *)
  NumGlobalRows : Z;
  NumGlobalCols : Z;
  IndicesAreLocal : bool;
  ExtractMyRowView : Z -> Z * list (Z * float);
  ExtractGlobalRowView : Z -> Z * list (Z * float)
}.

(** The exceptions of [asMatrix] and [addBlock]. *)
Inductive Exception : Type :=
| DistributedUnsupported   (* asMatrix: NumProc() != 1 *)
| AsMatrixRowViewFailed    (* asMatrix: ExtractMyRowView() failed *)
| IndexOutOfBounds         (* arma::Mat::operator(): index out of bounds *)
| IncorrectBlockSize       (* addBlock: std::invalid_argument *)
| MyRowViewFailed          (* addBlock: ExtractMyRowView() failed *)
| GlobalRowViewFailed.     (* addBlock: ExtractGlobalRowView() failed *)

Inductive outcome (T : Type) : Type :=
| Done (x : T)
| Thrown (e : Exception).

Arguments Done {T} x.
Arguments Thrown {T} e.

(** [mat(row, col) = value], with the bounds check of Armadillo. *)
Definition setAt (mat : Matrix) (row col : Z) (value : float) : option Matrix :=
  if (0 <=? row) && (row <? rows mat) && (0 <=? col) && (col <? cols mat)
  then Some (mkMatrix (rows mat) (cols mat)
               (fun i j => if (i =? row) && (j =? col) then value
                           else coeff mat i j))
  else None.

(** [for (entry ...) mat(row, indices[entry]) = values[entry]]. *)
Fixpoint storeEntries (mat : Matrix) (row : Z) (entries : list (Z * float))
  : option Matrix :=
  match entries with
  | [] => Some mat
  | (index, value) :: rest =>
    match setAt mat row index value with
    | Some mat' => storeEntries mat' row rest
    | None => None
    end
  end.

(** The loop [for (int row = 0; row < rowCount; ++row)] of [asMatrix], over
    the rows that are left. *)
Fixpoint asMatrixRows (m : Epetra_CrsMatrix) (rowsLeft : list Z) (mat : Matrix)
  : outcome Matrix :=
  match rowsLeft with
  | [] => Done mat
  | row :: rest =>
    let '(errorCode, entries) := ExtractMyRowView m row in
    if errorCode =? 0 then
      match storeEntries mat row entries with
      | Some mat' => asMatrixRows m rest mat'
      | None => Thrown IndexOutOfBounds
      end
    else Thrown AsMatrixRowViewFailed
  end.

Definition asMatrix (m : Epetra_CrsMatrix) : outcome Matrix :=
  if NumProc m =? 1 then
    asMatrixRows m (seqZ 0 (NumGlobalRows m))
      (mkMatrix (NumGlobalRows m) (NumGlobalCols m) (fun _ _ => Dbl.zero))
  else Thrown DistributedUnsupported.

(** [block(row, col) += x]; [addBlock] only ever uses it inside the block. *)
Definition addAt (block : Matrix) (row col : Z) (x : float) : Matrix :=
  mkMatrix (rows block) (cols block)
    (fun i j => if (i =? row) && (j =? col)
                then PrimFloat.add (coeff block i j) x
                else coeff block i j).

(** [for (entry ...) if (indices[entry] == cols[col]) block(row, col) +=
    alpha * values[entry]]. *)
Fixpoint addEntries (alpha : float) (block : Matrix) (row col colIndex : Z)
    (entries : list (Z * float)) : Matrix :=
  match entries with
  | [] => block
  | (index, value) :: rest =>
    addEntries alpha
      (if index =? colIndex
       then addAt block row col (PrimFloat.mul alpha value)
       else block)
      row col colIndex rest
  end.

(** [for (int col = 0; col < cols.size(); ++col)], from position [col] on. *)
Fixpoint addCols (alpha : float) (block : Matrix) (row col : Z)
    (colsLeft : list Z) (entries : list (Z * float)) : Matrix :=
  match colsLeft with
  | [] => block
  | colIndex :: rest =>
    addCols alpha (addEntries alpha block row col colIndex entries)
            row (col + 1) rest entries
  end.

(** The row view [addBlock] takes, by [IndicesAreLocal()], with the
    exception a failure of the call is turned into. *)
Definition rowView (m : Epetra_CrsMatrix) (globalRow : Z)
  : Z * list (Z * float) * Exception :=
  if IndicesAreLocal m then (ExtractMyRowView m globalRow, MyRowViewFailed)
  else (ExtractGlobalRowView m globalRow, GlobalRowViewFailed).

(** [for (int row = 0; row < rows.size(); ++row)], from position [row] on.
    The block is updated in place: on an exception the caller sees what has
    been added so far. *)
Fixpoint addRows (m : Epetra_CrsMatrix) (alpha : float) (block : Matrix)
    (row : Z) (rowsLeft cols : list Z) : option Exception * Matrix :=
  match rowsLeft with
  | [] => (None, block)
  | globalRow :: rest =>
    let '(errorCode, entries, failure) := rowView m globalRow in
    if errorCode =? 0
    then addRows m alpha (addCols alpha block row 0 cols entries)
                 (row + 1) rest cols
    else (Some failure, block)
  end.

Definition addBlock (m : Epetra_CrsMatrix) (rows_ cols_ : list Z)
    (alpha : float) (block : Matrix) : option Exception * Matrix :=
  if negb (rows block =? Z.of_nat (length rows_)) ||
     negb (cols block =? Z.of_nat (length cols_))
  then (Some IncorrectBlockSize, block)
  else addRows m alpha block 0 rows_ cols_.

(** The value the entries of a row view leave at column [c] of a dense row
    that held [start]: the value of the last entry with that index. *)
Definition lastValue (c : Z) (entries : list (Z * float)) (start : float) : float :=
  fold_left (fun acc e => if fst e =? c then snd e else acc) entries start.

(** The value [addBlock] leaves where it found [start], for the column index
    [c]: [alpha * value] is added for every entry with that index, in order. *)
Definition addedValue (alpha : float) (c : Z) (entries : list (Z * float))
    (start : float) : float :=
  fold_left (fun acc e => if fst e =? c
                          then PrimFloat.add acc (PrimFloat.mul alpha (snd e))
                          else acc) entries start.

(** The rows [asMatrix] reads can be read, and their indices are columns. *)
Definition readable (m : Epetra_CrsMatrix) : Prop :=
  forall row, 0 <= row < NumGlobalRows m ->
    fst (ExtractMyRowView m row) = 0 /\
    Forall (fun e => 0 <= fst e < NumGlobalCols m) (snd (ExtractMyRowView m row)).

(** A 2x3 matrix with the rows [(. 7 .)] and [(4 . 9)]. *)
Definition example : Epetra_CrsMatrix :=
  mkEpetra 1 2 3 true
    (fun row => if row =? 0 then (0, [(1, 7%float)])
                else if row =? 1 then (0, [(0, 4%float); (2, 9%float)])
                else (-1, []))
    (fun _ => (-2, [])).

End Sparse.

(** ** The Python factory of function spaces *)

(** [function_space] of [python/cython_src/bempp_ext/space/space.pyx]. The
    arguments are taken at the types the function documents: [kind] a string,
    [order] an integer, [domains] [None] or a list of integers, [closed] a
    boolean. The C++ factories are outside this file: the model returns the
    call whose result becomes the implementation of the new [Space], with the
    arguments in the order of the call. *)
Module Space.

Import String.StringSyntax.
Local Open Scope string_scope.

Inductive Factory : Type :=
| adaptivePiecewiseLinearContinuousScalarSpace
| adaptivePiecewisePolynomialContinuousScalarSpace
| adaptivePiecewiseConstantScalarSpace
| adaptivePiecewisePolynomialDiscontinuousScalarSpace
| adaptiveRaviartThomas0VectorSpace
| adaptivePiecewiseConstantDualGridScalarSpace.

(** A call [factory(grid.impl_ [, order] [, domains, closed])]. *)
Record Call (Grid : Type) : Type := mkCall {
  factory : Factory;
  grid_arg : Grid;
  order_arg : option Z;
  subdomain_args : option (list Z * bool)
}.

Arguments mkCall {Grid} factory grid_arg order_arg subdomain_args.
Arguments factory {Grid} c.
Arguments grid_arg {Grid} c.
Arguments order_arg {Grid} c.
Arguments subdomain_args {Grid} c.

Inductive PyResult (T : Type) : Type :=
| Returned (x : T)
| ValueError (message : String.string).

Arguments Returned {T} x.
Arguments ValueError {T} message.

(** [factory(grid.impl_, ...)] by [domains is None]. *)
Definition call {Grid : Type} (f : Factory) (grid : Grid) (order : option Z)
    (domains : option (list Z)) (closed : bool) : PyResult (Call Grid) :=
  match domains with
  | None => Returned (mkCall f grid order None)
  | Some d => Returned (mkCall f grid order (Some (d, closed)))
  end.

Definition function_space {Grid : Type} (grid : Grid) (kind : String.string)
    (order : Z) (domains : option (list Z)) (closed : bool)
  : PyResult (Call Grid) :=
  if String.eqb kind "P" then
    if negb ((1 <=? order) && (order <=? 10))
    then ValueError "Order must be between 1 and 10"
    else if order =? 1
    then call adaptivePiecewiseLinearContinuousScalarSpace grid None
              domains closed
    else call adaptivePiecewisePolynomialContinuousScalarSpace grid
              (Some order) domains closed
  else if String.eqb kind "DP" then
    if negb ((0 <=? order) && (order <=? 10))
    then ValueError "Order must be between 0 and 10"
    else if order =? 0
    then call adaptivePiecewiseConstantScalarSpace grid None domains closed
    else call adaptivePiecewisePolynomialDiscontinuousScalarSpace grid
              (Some order) domains closed
  else if String.eqb kind "RT" then
    if negb (order =? 0)
    then ValueError "Only 0 order Raviart-Thomas spaces are implemented."
    else call adaptiveRaviartThomas0VectorSpace grid None domains closed
  else if String.eqb kind "DUAL" then
    if negb (order =? 0)
    then ValueError "Only 0 order dual grid spaces are implemented."
    else match domains with
         | Some _ =>
           ValueError "Spaces on subdomains are not supported on dual grids."
         | None =>
           Returned (mkCall adaptivePiecewiseConstantDualGridScalarSpace grid
                            None None)
         end
  else ValueError "Unknown kind".

(** The order a space of this factory has: the one passed, or the one the
    factory is made for. *)
Definition orderOf {Grid : Type} (c : Call Grid) : Z :=
  match order_arg c with
  | Some order => order
  | None =>
    match factory c with
    | adaptivePiecewiseLinearContinuousScalarSpace => 1
    | _ => 0
    end
  end.

End Space.

(** * Properties *)

(** ** Doubles and the finiteness test *)

Lemma selfEq_finite (x : float) : Dbl.selfEq x = Dbl.finite x.
Proof.
  unfold Dbl.selfEq, Dbl.finite.
  rewrite FloatAxioms.eqb_spec, FloatAxioms.sub_spec.
  destruct (Prim2SF x) as [s|s| |s m e]; simpl.
  - destruct s; reflexivity.
  - destruct s; reflexivity.
  - reflexivity.
  - unfold SF64sub, SFsub. rewrite Z.min_id.
    unfold shl_align. rewrite Z.sub_diag. cbn [fst].
    reflexivity.
Qed.

Lemma selfEqAll_allFinite (M : Matrix) : selfEqAll M = allFinite M.
Proof.
  unfold selfEqAll, allFinite.
  induction (entries M) as [|x l IH]; simpl; [reflexivity|].
  rewrite selfEq_finite, IH. reflexivity.
Qed.

(** The final test of [compressBlock] in terms of finiteness: it fires when
    [A] has a coefficient that is not finite, or when [B] has none. *)
Lemma nanDetected_spec (A B : Matrix) :
  nanDetected A B = negb (allFinite A) || allFinite B.
Proof.
  unfold nanDetected. rewrite !selfEqAll_allFinite. reflexivity.
Qed.

(** C1, at the failing input: the admissible 1x1 block with the entry 2,
    [maxRank = 1], [resizeThreshold = 1]. The loop leaves the factors
    [A = (2)] and [B = (1)], every coefficient of which is finite, and
    [compressBlock] throws ["NaN detected."] all the same. *)
Theorem C1_finite_factors_are_reported_as_NaN :
  exists o A B,
    runOn Blocks.twos (Blocks.config 1 1) (Blocks.admissibleNode 0 1 0 1) [0]
      = Ok o /\
    hMatrixData o = HMatrixLowRankData A B /\
    to_rows A = [[2%float]] /\ to_rows B = [[1%float]] /\
    allFinite A = true /\ allFinite B = true /\
    thrown o = Some NaNDetected.
Proof.
  eexists _, _, _. vm_compute. repeat split; reflexivity.
Qed.

(** ** The residual evaluator *)

Ltac unfold_bind := unfold mbind, result_bind, bind in *.

Lemma block_ok (M R : Matrix) (sr sc nr nc : Z) :
  block M sr sc nr nc = Ok R ->
  rows R = nr /\ cols R = nc /\
  0 <= sr /\ 0 <= nr /\ sr + nr <= rows M /\
  0 <= sc /\ 0 <= nc /\ sc + nc <= cols M /\
  coeff R = (fun i j => coeff M (sr + i) (sc + j)).
Proof.
  unfold block. intros H.
  destruct (_ && _) eqn:E in H; [|discriminate].
  injection H as <-. simpl.
  repeat (apply andb_prop in E; destruct E as [E ?]).
  repeat split; try lia; reflexivity.
Qed.

Lemma mul_ok (X Y R : Matrix) :
  mul X Y = Ok R ->
  cols X = rows Y /\ rows R = rows X /\ cols R = cols Y /\ coeff R = dot X Y.
Proof.
  unfold mul. intros H. destruct (Z.eqb_spec (cols X) (rows Y)); [|discriminate].
  injection H as <-. auto.
Qed.

Lemma sub_ok (X Y R : Matrix) :
  sub X Y = Ok R ->
  rows X = rows Y /\ cols X = cols Y /\ rows R = rows X /\ cols R = cols X /\
  coeff R = (fun i j => PrimFloat.sub (coeff X i j) (coeff Y i j)).
Proof.
  unfold sub. intros H.
  destruct (_ && _) eqn:E in H; [|discriminate].
  injection H as <-. apply andb_prop in E. simpl. repeat split; lia.
Qed.

Lemma sizet_sub_sub (h l b : Z) :
  SizeT.sub (SizeT.sub h b) (SizeT.sub l b) = SizeT.sub h l.
Proof.
  unfold SizeT.sub, SizeT.wrap. rewrite <- Zminus_mod. f_equal. lia.
Qed.

(** When the evaluator returns, the width of the requested column range is
    the number of rows of [B]. *)
Lemma evaluate_ok_width accessor node rowR colR (A B R : Matrix) :
  evaluateMatMinusLowRank accessor node rowR colR A B = Ok R ->
  SizeT.to_index
    (SizeT.sub (SizeT.sub (hi colR) (lo (columnClusterRange node)))
               (SizeT.sub (lo colR) (lo (columnClusterRange node)))) = cols A /\
  cols A = rows B /\
  rows R = rows (computeMatrixBlock accessor rowR colR) /\
  cols R = cols (computeMatrixBlock accessor rowR colR) /\
  cols R = rows B.
Proof.
  unfold evaluateMatMinusLowRank. unfold_bind. intros H.
  destruct (block A _ _ _ _) as [Ab|] eqn:EA; [|discriminate].
  destruct (block B _ _ _ _) as [Bb|] eqn:EB; [|discriminate].
  destruct (mul Ab Bb) as [P|] eqn:EP; [|discriminate].
  apply block_ok in EA. apply block_ok in EB. apply mul_ok in EP.
  apply sub_ok in H.
  destruct EA as (_ & EA & _). destruct EB as (EB1 & EB2 & _).
  destruct EP as (EP1 & EP2 & EP3 & _).
  destruct H as (H1 & H2 & H3 & H4 & _).
  rewrite sizet_sub_sub in *. cbn [computeMatrixBlock cols rows] in *.
  repeat split; congruence.
Qed.

(** Partial correctness of the evaluator: a matrix it returns for a factor
    pair is the residual of the specification. *)
Lemma evaluate_ok_is_residual accessor node rowR colR (A B R : Matrix) :
  cols A = rows B ->
  evaluateMatMinusLowRank accessor node rowR colR A B = Ok R ->
  residualSpec accessor node rowR colR A B = Ok R.
Proof.
  intros HAB H. pose proof (evaluate_ok_width _ _ _ _ _ _ _ H) as (Hw & _).
  unfold residualSpec. unfold evaluateMatMinusLowRank in H.
  rewrite Hw in *. rewrite <- HAB in H |- *. exact H.
Qed.

(** C2, at the failing input: the block over rows [[0,1)] and columns [[0,2)],
    the zero factors [A] (1x1) and [B] (1x2) that [compressBlock] starts from
    with [resizeThreshold = 1], and the request for row 0 over both columns.
    The specified residual is the row [(1 2)] of the accessor; the code asks
    [B] for a block of 2 rows and 1 column and fails Eigen's range assertion. *)
Theorem C2_evaluator_fails_on_full_row :
  evaluateMatMinusLowRank Blocks.ramp (Blocks.admissibleNode 0 1 0 2)
      (mkRange 0 1) (mkRange 0 2) (Blocks.zeroMatrix 1 1) (Blocks.zeroMatrix 1 2)
    = Fail AssertFail /\
  exists R,
    residualSpec Blocks.ramp (Blocks.admissibleNode 0 1 0 2)
      (mkRange 0 1) (mkRange 0 2) (Blocks.zeroMatrix 1 1) (Blocks.zeroMatrix 1 2)
      = Ok R /\
    to_rows R = [[1%float; 2%float]].
Proof.
  split; [reflexivity|]. eexists. split; reflexivity.
Qed.

(** ** The dense path *)

(** C6: for a node that is not admissible [compressBlock] returns at once with
    what the dense compressor stores: a dense block of the shape of the two
    cluster ranges whose coefficients are the accessor's values. No exception
    is thrown, no row is sampled, the generator is left as it was. *)
Theorem C6_inadmissible_node_is_dense
    accessor frobeniusNorm RS fuel cfg (node : BlockClusterTreeNode)
    (g : rs_state RS) :
  admissible node = false ->
  exists M,
    compressBlock accessor frobeniusNorm RS fuel cfg node g
      = Ok (mkOutcome None (HMatrixDenseData M) g []) /\
    HMatrixDenseData M = denseCompressBlock accessor node /\
    M = computeMatrixBlock accessor (rowClusterRange node) (columnClusterRange node) /\
    rows M = SizeT.to_index (numberOfRows node) /\
    cols M = SizeT.to_index (numberOfColumns node) /\
    forall i j, coeff M i j =
      accessor (lo (rowClusterRange node) + i) (lo (columnClusterRange node) + j).
Proof.
  intros Hadm. eexists. unfold compressBlock. rewrite Hadm. simpl.
  repeat split; reflexivity.
Qed.

Lemma C6_inadmissible_node_is_dense_witness :
  exists M,
    compressBlock Blocks.zeroThenFive frobeniusNormOfData tapeSource 64
        (Blocks.config 5 1) (Blocks.denseNode 0 2 0 1) [1; 1]
      = Ok (@mkOutcome tapeSource None (HMatrixDenseData M) [1; 1] []) /\
    HMatrixDenseData M = denseCompressBlock Blocks.zeroThenFive (Blocks.denseNode 0 2 0 1) /\
    M = computeMatrixBlock Blocks.zeroThenFive (mkRange 0 2) (mkRange 0 1) /\
    rows M = 2 /\ cols M = 1 /\
    forall i j, coeff M i j = Blocks.zeroThenFive (0 + i) (0 + j).
Proof.
  exact (C6_inadmissible_node_is_dense Blocks.zeroThenFive frobeniusNormOfData
           tapeSource 64%nat (Blocks.config 5 1) (Blocks.denseNode 0 2 0 1)
           [1; 1] eq_refl).
Defined.

(** ** Sampling without replacement *)

Lemma unusedBefore_start (prev : gset Z) (l : Z) : unusedBefore prev l l = 0.
Proof. unfold unusedBefore. rewrite Z.sub_diag, seqZ_nil by lia. reflexivity. Qed.

Lemma unusedBefore_succ (prev : gset Z) (l x : Z) :
  l <= x ->
  unusedBefore prev l (x + 1) =
  unusedBefore prev l x + (if bool_decide (x ∈ prev) then 0 else 1).
Proof.
  intros Hx. unfold unusedBefore.
  replace (x + 1 - l) with ((x - l) + 1) by lia.
  rewrite seqZ_app by lia. rewrite filter_app, length_app.
  replace (l + (x - l)) with x by lia.
  rewrite (seqZ_cons x 1) by lia. rewrite (seqZ_nil _ (Z.pred 1)) by lia.
  destruct (bool_decide_reflect (x ∈ prev)) as [Hin|Hin].
  - rewrite filter_cons_False by (intros H; apply H; exact Hin).
    rewrite filter_nil. simpl. lia.
  - rewrite filter_cons_True by exact Hin. rewrite filter_nil. simpl. lia.
Qed.

Lemma unusedBefore_nonneg (prev : gset Z) (l x : Z) : 0 <= unusedBefore prev l x.
Proof. unfold unusedBefore. lia. Qed.

Lemma unusedBefore_mono (prev : gset Z) (l x y : Z) :
  l <= x -> x <= y -> unusedBefore prev l x <= unusedBefore prev l y.
Proof.
  intros Hl Hxy. unfold unusedBefore.
  replace (y - l) with ((x - l) + (y - x)) by lia.
  rewrite seqZ_app by lia. rewrite filter_app, length_app. lia.
Qed.

(** At most [size prev] indices of a range are used. *)
Lemma unusedBefore_lower_bound (prev : gset Z) (l h : Z) :
  l <= h -> h - l - Z.of_nat (size prev) <= unusedBefore prev l h.
Proof.
  intros Hlh. unfold unusedBefore.
  pose proof (filter_app_complement (fun j : Z => j ∉ prev) (seqZ l (h - l))) as Hp.
  apply Permutation_length in Hp. rewrite length_app, length_seqZ in Hp.
  set (used := filter (fun j : Z => ¬ (j ∉ prev)) (seqZ l (h - l))) in *.
  assert (Hsz : (length used <= size prev)%nat).
  { rewrite <- (size_list_to_set (C := gset Z) used).
    - apply subseteq_size. intros j Hj. apply elem_of_list_to_set in Hj.
      apply list_elem_of_filter in Hj as [Hj _].
      destruct (decide (j ∈ prev)); [assumption|contradiction].
    - apply NoDup_filter, NoDup_seqZ. }
  lia.
Qed.

(** A set of used indices of the range that leaves one of them unused is
    smaller than the range. *)
Lemma used_subset_leaves_room (prev : gset Z) (l h j : Z) :
  (forall i, i ∈ prev -> l <= i < h) ->
  l <= j < h -> j ∉ prev ->
  Z.of_nat (size prev) < h - l.
Proof.
  intros Hsub Hj Hn.
  set (U := list_to_set (seqZ l (h - l)) : gset Z).
  assert (HU : size U = Z.to_nat (h - l)).
  { unfold U. rewrite size_list_to_set by apply NoDup_seqZ. apply length_seqZ. }
  assert (HjU : j ∈ U) by (apply elem_of_list_to_set, elem_of_seqZ; lia).
  assert (Hle : (size prev <= size (U ∖ {[j]}))%nat).
  { apply subseteq_size. intros i Hi. apply elem_of_difference. split.
    - apply elem_of_list_to_set, elem_of_seqZ. specialize (Hsub i Hi). lia.
    - intros Hij. apply elem_of_singleton in Hij. subst i. contradiction. }
  assert (Hd : size (U ∖ {[j]}) = (size U - 1)%nat).
  { rewrite size_difference by (apply singleton_subseteq_l; exact HjU).
    rewrite size_singleton. reflexivity. }
  lia.
Qed.

(** Partial correctness of the scan: an index it returns is not in the set;
    if the counter is the number of unused indices passed so far and the
    ordinal is below the number of unused indices of the range, the index lies
    in the range and is the unused index of that ordinal. *)
Lemma scan_fresh (prev : gset Z) (ind : Z) :
  forall n newIndex count idx,
    count <= ind ->
    scan n prev ind newIndex count = Some idx -> idx ∉ prev.
Proof.
  induction n as [|n IH]; intros newIndex count idx Hc H; [discriminate|].
  simpl in H. destruct (Z.leb_spec count ind); [|lia].
  destruct (bool_decide_reflect (newIndex ∈ prev)) as [Hin|Hin].
  - eapply IH; eauto.
  - destruct (Z.leb_spec (SizeT.add count 1) ind).
    + eapply IH; eauto.
    + destruct n as [|n]; [discriminate|]. simpl in H.
      destruct (Z.leb_spec (SizeT.add count 1) ind); [lia|].
      injection H as <-. exact Hin.
Qed.

Lemma wrap_small (z : Z) : 0 <= z < SizeT.modulus -> SizeT.wrap z = z.
Proof. intros H. unfold SizeT.wrap. apply Z.mod_small. exact H. Qed.

Lemma unusedBefore_upper (prev : gset Z) (l h : Z) :
  unusedBefore prev l h <= Z.max 0 (h - l).
Proof.
  unfold unusedBefore.
  pose proof (length_filter (fun j : Z => j ∉ prev) (seqZ l (h - l))) as Hf.
  rewrite length_seqZ in Hf. lia.
Qed.

Lemma unusedBefore_lt_inv (prev : gset Z) (l x h : Z) :
  l <= x -> unusedBefore prev l x < unusedBefore prev l h -> x < h.
Proof.
  intros Hl Hlt. destruct (Z_lt_le_dec x h) as [|Hge]; [assumption|exfalso].
  destruct (Z_lt_le_dec h l).
  - pose proof (unusedBefore_upper prev l h).
    pose proof (unusedBefore_nonneg prev l x). lia.
  - pose proof (unusedBefore_mono prev l h x). lia.
Qed.

Lemma scan_in_range (prev : gset Z) (l h ind : Z) :
  0 <= l -> h < SizeT.modulus -> ind < unusedBefore prev l h ->
  forall n newIndex count idx,
    l <= newIndex ->
    count = unusedBefore prev l newIndex ->
    count <= ind ->
    scan n prev ind newIndex count = Some idx ->
    newIndex <= idx < h /\ (idx ∉ prev) /\ unusedBefore prev l idx = ind.
Proof.
  intros Hl Hh Hind.
  pose proof (unusedBefore_upper prev l h) as Hup.
  induction n as [|n IH]; intros newIndex count idx Hn Hcount Hc H; [discriminate|].
  simpl in H. destruct (Z.leb_spec count ind); [|lia].
  assert (Hlt : newIndex < h) by (apply (unusedBefore_lt_inv prev l); lia).
  pose proof (unusedBefore_nonneg prev l newIndex) as Hnn.
  pose proof (unusedBefore_succ prev l newIndex Hn) as Hsucc.
  unfold SizeT.add in H.
  rewrite (wrap_small (newIndex + 1)) in H by lia.
  destruct (bool_decide_reflect (newIndex ∈ prev)) as [Hin|Hin].
  - apply IH in H; [|lia|lia|lia]. intuition lia.
  - rewrite (wrap_small (count + 1)) in H by lia.
    destruct (Z.leb_spec (count + 1) ind).
    + apply IH in H; [|lia|lia|lia]. intuition lia.
    + destruct n as [|n]; [discriminate|]. simpl in H.
      destruct (Z.leb_spec (count + 1) ind); [lia|].
      injection H as <-. repeat split; [lia|lia|assumption|lia].
Qed.

(** Termination of the scan: it ends within one step per index of the range
    that is left, and one more. *)
Lemma scan_terminates (prev : gset Z) (l h ind : Z) :
  0 <= l -> h < SizeT.modulus -> ind < unusedBefore prev l h ->
  forall n newIndex count,
    l <= newIndex ->
    count = unusedBefore prev l newIndex ->
    count <= ind ->
    (Z.to_nat (h - newIndex) + 1 <= n)%nat ->
    exists idx, scan n prev ind newIndex count = Some idx.
Proof.
  intros Hl Hh Hind.
  pose proof (unusedBefore_upper prev l h) as Hup.
  induction n as [|n IH]; intros newIndex count Hn Hcount Hc Hfuel; [lia|].
  simpl. destruct (Z.leb_spec count ind); [|lia].
  assert (Hlt : newIndex < h) by (apply (unusedBefore_lt_inv prev l); lia).
  pose proof (unusedBefore_nonneg prev l newIndex) as Hnn.
  pose proof (unusedBefore_succ prev l newIndex Hn) as Hsucc.
  unfold SizeT.add.
  rewrite (wrap_small (newIndex + 1)) by lia.
  destruct (bool_decide_reflect (newIndex ∈ prev)) as [Hin|Hin].
  - apply IH; lia.
  - rewrite (wrap_small (count + 1)) by lia.
    destruct (Z.leb_spec (count + 1) ind).
    + apply IH; lia.
    + destruct n as [|n]; [lia|]. simpl.
      destruct (Z.leb_spec (count + 1) ind); [lia|]. eauto.
Qed.

(** The remaining count of [randomIndex] without wrap-around. *)
Lemma numberOfPossibleIndices_exact (range : IndexRange) (prev : gset Z) :
  nonEmptyRange range ->
  Z.of_nat (size prev) < hi range - lo range ->
  numberOfPossibleIndices range prev = hi range - lo range - Z.of_nat (size prev).
Proof.
  intros (H0 & H1 & H2) Hsz. unfold numberOfPossibleIndices, SizeT.sub.
  rewrite (wrap_small (hi range - lo range)) by lia.
  rewrite (wrap_small (Z.of_nat (size prev))) by lia.
  apply wrap_small. lia.
Qed.

(** Whatever it is called with, [randomIndex] returns an index that was not
    in the set and the set with that index added. *)
Lemma randomIndex_fresh RS fuel (range : IndexRange) (prev prev' : gset Z)
    (g g' : rs_state RS) (idx : Z) :
  randomIndex RS fuel range prev g = Ok (idx, prev', g') ->
  (idx ∉ prev) /\ prev' = {[idx]} ∪ prev /\
  g' = fst (rs_uniform RS g (SizeT.sub (numberOfPossibleIndices range prev) 1)).
Proof.
  unfold randomIndex. intros H.
  pose proof (rs_uniform_range RS g (SizeT.sub (numberOfPossibleIndices range prev) 1)) as Hr.
  destruct (rs_uniform RS g _) as [g1 ind] eqn:Eu.
  destruct (scan fuel prev ind (lo range) 0) as [i|] eqn:Es; [|discriminate].
  injection H as <- <- <-. simpl in Hr.
  assert (0 <= ind).
  { apply Hr. unfold SizeT.sub, SizeT.wrap.
    apply Z.mod_pos_bound. reflexivity. }
  split; [|auto]. eapply scan_fresh; [|exact Es]. assumption.
Qed.

(** The full contract of [randomIndex] on a range with an unused index. *)
Lemma randomIndex_spec RS fuel (range : IndexRange) (prev : gset Z)
    (g : rs_state RS) :
  nonEmptyRange range ->
  Z.of_nat (size prev) < hi range - lo range ->
  let remaining := numberOfPossibleIndices range prev in
  let ind := snd (rs_uniform RS g (remaining - 1)) in
  let g' := fst (rs_uniform RS g (remaining - 1)) in
  remaining = hi range - lo range - Z.of_nat (size prev) /\
  0 <= ind < remaining /\
  (forall idx prev' g'',
     randomIndex RS fuel range prev g = Ok (idx, prev', g'') ->
     g'' = g' /\ prev' = {[idx]} ∪ prev /\
     lo range <= idx < hi range /\ (idx ∉ prev) /\
     unusedBefore prev (lo range) idx = ind) /\
  ((Z.to_nat (hi range - lo range) + 1 <= fuel)%nat ->
   exists idx, randomIndex RS fuel range prev g = Ok (idx, {[idx]} ∪ prev, g')).
Proof.
  intros Hr Hsz remaining ind g'.
  pose proof (numberOfPossibleIndices_exact range prev Hr Hsz) as Hrem.
  fold remaining in Hrem. destruct Hr as (H0 & H1 & H2).
  assert (Hsub : SizeT.sub remaining 1 = remaining - 1).
  { unfold SizeT.sub. apply wrap_small. lia. }
  pose proof (rs_uniform_range RS g (remaining - 1)) as Hdraw.
  fold ind in Hdraw. assert (Hi : 0 <= ind <= remaining - 1) by lia.
  clear Hdraw.
  assert (Hind : ind < unusedBefore prev (lo range) (hi range)).
  { pose proof (unusedBefore_lower_bound prev (lo range) (hi range)). lia. }
  split; [exact Hrem|]. split; [lia|].
  unfold randomIndex. fold remaining. rewrite Hsub.
  destruct (rs_uniform RS g (remaining - 1)) as [g1 i1] eqn:Eu.
  simpl in ind, g'. subst ind g'.
  split.
  - intros idx prev' g'' H.
    destruct (scan fuel prev i1 (lo range) 0) as [i|] eqn:Es; [|discriminate].
    injection H as <- <- <-.
    destruct (scan_in_range prev (lo range) (hi range) i1 H0 H2 Hind
                fuel (lo range) 0 i ltac:(lia)
                (eq_sym (unusedBefore_start prev (lo range))) ltac:(lia) Es)
      as (? & ? & ?).
    repeat split; (assumption || lia).
  - intros Hfuel.
    destruct (scan_terminates prev (lo range) (hi range) i1 H0 H2 Hind
                fuel (lo range) 0) as [idx Hs]; try lia.
    + symmetry. apply unusedBefore_start.
    + exists idx. rewrite Hs. reflexivity.
Qed.

(** ** The loop body, case by case *)

Lemma acaTrial_cases accessor frobeniusNorm RS fuel cfg node
    (st : AcaState RS) (t : Trial RS) :
  acaTrial accessor frobeniusNorm RS fuel cfg node st = Ok t <->
  TrialCase accessor frobeniusNorm RS fuel cfg node st t.
Proof.
  split.
  - unfold acaTrial. unfold_bind. intros H.
    destruct (randomIndex _ _ _ _ _) as [[[row prev'] g']|] eqn:ER; [|discriminate].
    destruct (evaluateMatMinusLowRank _ _ _ _ _ _) as [newRow|] eqn:EN; [|discriminate].
    destruct (maxCoeff _) as [[[val r] c]|] eqn:EM; [|discriminate].
    destruct (PrimFloat.ltb val Dbl.floor_1em12) eqn:EL.
    { injection H as <-. eapply trial_degenerate; eassumption. }
    destruct (at_ newRow 0 c) as [pivot|] eqn:EP; [|discriminate].
    destruct (numeric_cast_size_t _) as [cc|] eqn:EC.
    2:{ injection H as <-. eapply trial_overflow; eassumption. }
    destruct (evaluateMatMinusLowRank _ _ _ (mkRange cc _) _ _) as [newCol|] eqn:ECol;
      [|discriminate].
    destruct (growIfFull _ _ _ _) as [A0 B0] eqn:EG.
    destruct (setCol A0 _ _) as [A|] eqn:EA; [|discriminate].
    destruct (setRow B0 _ _) as [B|] eqn:EB; [|discriminate].
    pose proof (trial_stored accessor frobeniusNorm RS fuel cfg node st
                  _ _ _ _ _ _ _ _ _ _ _ _ _ _ ER EN EM EL EP EC ECol EG EA EB) as T.
    cbv zeta in T.
    destruct (negligible _ _ _ _); injection H as <-; exact T.
  - intros T. unfold acaTrial. unfold_bind.
    destruct T as [row prev' g' newRow val r c ER EN EM EL
                  |row prev' g' newRow val r c pivot ER EN EM EL EP EC
                  |row prev' g' newRow val r c pivot cc newCol A0 B0 A B
                     ER EN EM EL EP EC ECol EG EA EB].
    + rewrite ER, EN, EM, EL. reflexivity.
    + rewrite ER, EN, EM, EL, EP, EC. reflexivity.
    + rewrite ER, EN, EM, EL, EP, EC, ECol, EG, EA, EB. cbv zeta.
      destruct (negligible _ _ _ _); reflexivity.
Qed.

(** ** Shapes *)

Lemma setCol_ok (M v R : Matrix) (k : Z) :
  setCol M k v = Ok R ->
  rows R = rows M /\ cols R = cols M /\ 0 <= k < cols M /\
  coeff R = (fun i j => if j =? k then coeff v i 0 else coeff M i j).
Proof.
  unfold setCol. intros H. destruct (_ && _) eqn:E in H; [|discriminate].
  injection H as <-. repeat (apply andb_prop in E; destruct E as [E ?]).
  simpl. repeat split; lia.
Qed.

Lemma setRow_ok (M v R : Matrix) (k : Z) :
  setRow M k v = Ok R ->
  rows R = rows M /\ cols R = cols M /\ 0 <= k < rows M /\
  coeff R = (fun i j => if i =? k then coeff v 0 j else coeff M i j).
Proof.
  unfold setRow. intros H. destruct (_ && _) eqn:E in H; [|discriminate].
  injection H as <-. repeat (apply andb_prop in E; destruct E as [E ?]).
  simpl. repeat split; lia.
Qed.

Lemma to_index_small (z : Z) : 0 <= z < 2 ^ 63 -> SizeT.to_index z = z.
Proof.
  intros H. unfold SizeT.to_index. destruct (Z.ltb_spec z (2 ^ 63)); lia.
Qed.

Lemma modulus_value : SizeT.modulus = 18446744073709551616.
Proof. reflexivity. Qed.

Lemma uint_max_value : SizeT.uint_max = 4294967295.
Proof. reflexivity. Qed.

Lemma growIfFull_shape cfg (A B A0 B0 : Matrix) (rank : Z) :
  0 <= m_resizeThreshold cfg ->
  0 <= rank <= cols A -> cols A < SizeT.modulus ->
  cols A = rows B -> cols A <= rank + m_resizeThreshold cfg ->
  growIfFull cfg A B rank = (A0, B0) ->
  rows A0 = rows A /\ cols B0 = cols B /\ cols A0 = rows B0 /\
  cols A <= cols A0 /\ cols A0 <= rank + m_resizeThreshold cfg.
Proof.
  intros Ht Hr Hm Hi Hw. unfold growIfFull.
  rewrite (wrap_small (cols A)) by lia.
  destruct (Z.eqb_spec rank (cols A)); intros H; injection H as <- <-; simpl;
    repeat split; lia.
Qed.

(** ** The invariant of the loop *)

Section Invariant.

Variable accessor : Z -> Z -> float.
Variable frobeniusNorm : HMatrixData -> float.
Variable RS : RandomSource.
Variable fuel : nat.
Variable cfg : Config.
Variable node : BlockClusterTreeNode.

Hypothesis cfg_ok : validConfig cfg.

Lemma acaTrial_preserves (st : AcaState RS) (t : Trial RS) :
  LoopInv cfg node st ->
  Z.of_nat (length (sampled st)) <= SizeT.uint_max ->
  acaTrial accessor frobeniusNorm RS fuel cfg node st = Ok t ->
  LoopInv cfg node (stateOf t) /\
  length (sampled (stateOf t)) = S (length (sampled st)) /\
  rankCount st <= rankCount (stateOf t) <= rankCount st + 1.
Proof.
  intros Inv Hlen H. apply acaTrial_cases in H.
  destruct cfg_ok as [Hmax Hthr]. rewrite uint_max_value in *.
  pose proof modulus_value as Hmod.
  destruct Inv as [I1 I2 I3 I4 I5 I6 I7 I8].
  assert (Hfresh : forall row prev' g',
    randomIndex RS fuel (rowClusterRange node) (previousRowIndices st)
                (generator st) = Ok (row, prev', g') ->
    size prev' = S (length (sampled st)) /\
    prev' = list_to_set (row :: sampled st)).
  { intros row prev' g' ER. apply randomIndex_fresh in ER as (Hn & -> & _).
    split.
    - rewrite size_union by (apply disjoint_singleton_l; exact Hn).
      rewrite size_singleton. lia.
    - simpl. rewrite I8. reflexivity. }
  destruct H as [row prev' g' newRow val r c ER EN EM EL
                |row prev' g' newRow val r c pivot ER EN EM EL EP EC
                |row prev' g' newRow val r c pivot cc newCol A0 B0 A B
                   ER EN EM EL EP EC ECol EG EA EB].
  - destruct (Hfresh _ _ _ ER). simpl.
    split; [constructor; simpl; try assumption; lia|]. split; [reflexivity|lia].
  - destruct (Hfresh _ _ _ ER). simpl.
    split; [constructor; simpl; try assumption; lia|]. split; [reflexivity|lia].
  - destruct (Hfresh _ _ _ ER).
    apply growIfFull_shape in EG as (G1 & G2 & G3 & G4 & G5); try lia.
    apply setCol_ok in EA as (A1 & A2 & A3 & _).
    apply setRow_ok in EB as (B1 & B2 & B3 & _).
    rewrite to_index_small in A3, B3 by lia.
    assert (Hadd : SizeT.add (rankCount st) 1 = rankCount st + 1).
    { unfold SizeT.add. apply wrap_small. lia. }
    cbv zeta. destruct (negligible _ _ _ _); simpl; rewrite Hadd;
      (split; [constructor; simpl; try assumption; try lia; congruence
              |split; [reflexivity|lia]]).
Qed.

Lemma acaLoop_preserves :
  forall (n : nat) (st st' : AcaState RS) (e : option Exception),
    LoopInv cfg node st ->
    Z.of_nat (length (sampled st)) + Z.of_nat n <= SizeT.uint_max ->
    acaLoop accessor frobeniusNorm RS fuel cfg node n st = Ok (e, st') ->
    LoopInv cfg node st' /\
    (length (sampled st') <= length (sampled st) + n)%nat /\
    (e = None \/ e = Some NegativeOverflow).
Proof.
  induction n as [|n IH]; intros st st' e Inv Hlen H.
  - simpl in H. injection H as <- <-. split; [assumption|]. split; [lia|auto].
  - simpl in H. unfold_bind.
    destruct (acaTrial _ _ _ _ _ _ st) as [t|] eqn:ET; [|discriminate].
    pose proof ET as ET'. apply acaTrial_cases in ET'.
    apply acaTrial_preserves in ET as (Inv' & Hl & _); [|assumption|lia].
    destruct t as [st1|st1|ex st1]; simpl in *.
    + apply IH in H as (? & ? & ?); [|assumption|lia].
      split; [assumption|]. split; [lia|assumption].
    + injection H as <- <-. split; [assumption|]. split; [lia|auto].
    + injection H as <- <-. split; [assumption|]. split; [lia|right].
      inversion ET'; subst; try reflexivity.
      match goal with
      | H : (if ?b then _ else _) = _ |- _ => destruct b; discriminate
      end.
Qed.

End Invariant.

(** ** The all-zero block *)

Lemma dot_zero (X Y : Matrix) (i j : Z) :
  (forall k, coeff X i k = Dbl.zero) ->
  (forall k, coeff Y k j = Dbl.zero) ->
  dot X Y i j = Dbl.zero.
Proof.
  intros HX HY. unfold dot. generalize (upto (cols X)).
  induction l as [|k l IH]; simpl; [reflexivity|].
  rewrite HX, HY. exact IH.
Qed.

Lemma positions_in_range (r c : Z) (p : Z * Z) :
  In p (positions r c) -> 0 <= fst p < r /\ 0 <= snd p < c.
Proof.
  unfold positions, upto. intros H.
  apply in_flat_map in H as (j & Hj & H).
  apply in_map_iff in H as (i & <- & Hi).
  apply list_elem_of_In, elem_of_seqZ in Hj.
  apply list_elem_of_In, elem_of_seqZ in Hi. simpl. lia.
Qed.

Lemma maxCoeff_all_zero (M : Matrix) (val : float) (r c : Z) :
  (forall i j, 0 <= i < rows M -> 0 <= j < cols M -> coeff M i j = Dbl.zero) ->
  maxCoeff M = Ok (val, r, c) -> val = Dbl.zero.
Proof.
  intros Hz. unfold maxCoeff.
  destruct (_ && _) eqn:E; [|discriminate].
  apply andb_prop in E as [Er Ec]. apply Z.ltb_lt in Er, Ec.
  rewrite (Hz 0 0) by lia. intros H.
  assert (Hfold : forall l,
    (forall p, In p l -> 0 <= fst p < rows M /\ 0 <= snd p < cols M) ->
    fold_left (visitMax M) l (Dbl.zero, 0, 0) = (Dbl.zero, 0, 0)).
  { induction l as [|p l IH]; intros Hl; [reflexivity|]. simpl.
    unfold visitMax at 2. simpl.
    rewrite (Hz (fst p) (snd p)) by (apply Hl; left; reflexivity).
    change (PrimFloat.ltb Dbl.zero Dbl.zero) with false. cbv iota.
    apply IH. intros q Hq. apply Hl. right. exact Hq. }
  rewrite Hfold in H.
  - injection H as <- _ _. reflexivity.
  - intros p Hp. apply positions_in_range.
    destruct (positions (rows M) (cols M)); [destruct Hp|right; exact Hp].
Qed.

Section ZeroBlock.

Variable accessor : Z -> Z -> float.
Variable frobeniusNorm : HMatrixData -> float.
Variable RS : RandomSource.
Variable fuel : nat.
Variable cfg : Config.
Variable node : BlockClusterTreeNode.

Hypothesis rows_ok : nonEmptyRange (rowClusterRange node).
Hypothesis cols_ok : nonEmptyRange (columnClusterRange node).
Hypothesis block_zero : allZeroBlock accessor node.

(** The residual of a row of the block against zero factors is a zero row. *)
Lemma zero_residual_row (A B newRow : Matrix) (row : Z) :
  coeff A = (fun _ _ => Dbl.zero) ->
  coeff B = (fun _ _ => Dbl.zero) ->
  lo (rowClusterRange node) <= row < hi (rowClusterRange node) ->
  evaluateMatMinusLowRank accessor node (mkRange row (SizeT.add row 1))
    (columnClusterRange node) A B = Ok newRow ->
  forall i j, 0 <= i < rows newRow -> 0 <= j < cols newRow ->
              coeff (cwiseAbs newRow) i j = Dbl.zero.
Proof.
  intros HA HB Hrow H i j Hi Hj.
  destruct rows_ok as (R0 & R1 & R2). destruct cols_ok as (C0 & C1 & C2).
  pose proof modulus_value as Hmod.
  pose proof (evaluate_ok_width _ _ _ _ _ _ _ H) as (_ & _ & Hr & Hc & _).
  unfold evaluateMatMinusLowRank in H. unfold_bind.
  destruct (block A _ _ _ _) as [Ab|] eqn:EA; [|discriminate].
  destruct (block B _ _ _ _) as [Bb|] eqn:EB; [|discriminate].
  destruct (mul Ab Bb) as [P|] eqn:EP; [|discriminate].
  apply block_ok in EA as (_ & _ & _ & _ & _ & _ & _ & _ & EA).
  apply block_ok in EB as (_ & _ & _ & _ & _ & _ & _ & _ & EB).
  apply mul_ok in EP as (_ & _ & _ & EP).
  apply sub_ok in H as (_ & _ & _ & _ & H).
  simpl in Hr, Hc. rewrite Hr in Hi. rewrite Hc in Hj.
  assert (Hone : SizeT.sub (SizeT.add row 1) row = 1).
  { unfold SizeT.sub, SizeT.add. rewrite (wrap_small (row + 1)) by lia.
    replace (row + 1 - row) with 1 by lia. reflexivity. }
  rewrite Hone in Hi. change (SizeT.to_index 1) with 1 in Hi.
  assert (Hcol : lo (columnClusterRange node) + j < hi (columnClusterRange node)).
  { revert Hj. unfold SizeT.to_index, SizeT.sub.
    rewrite wrap_small by lia.
    destruct (Z.ltb_spec (hi (columnClusterRange node) - lo (columnClusterRange node))
                         (2 ^ 63)); lia. }
  unfold cwiseAbs. simpl. rewrite H. unfold computeMatrixBlock. simpl.
  rewrite block_zero by lia.
  rewrite EP, dot_zero.
  - reflexivity.
  - intros k. rewrite EA, HA. reflexivity.
  - intros k. rewrite EB, HB. reflexivity.
Qed.

(** A trial on zero factors finds a degenerate row: it stores nothing. *)
Lemma zero_trial (st : AcaState RS) (t : Trial RS) :
  zeroFactors st ->
  Z.of_nat (size (previousRowIndices st)) <
    hi (rowClusterRange node) - lo (rowClusterRange node) ->
  acaTrial accessor frobeniusNorm RS fuel cfg node st = Ok t ->
  exists st1, t = Continue st1 /\ zeroFactors st1.
Proof.
  intros (HA & HB & Hrank) Hsz H. apply acaTrial_cases in H.
  assert (Hdeg : forall row prev' g' newRow val r c,
    randomIndex RS fuel (rowClusterRange node) (previousRowIndices st)
                (generator st) = Ok (row, prev', g') ->
    evaluateMatMinusLowRank accessor node (mkRange row (SizeT.add row 1))
      (columnClusterRange node) (st_A st) (st_B st) = Ok newRow ->
    maxCoeff (cwiseAbs newRow) = Ok (val, r, c) ->
    PrimFloat.ltb val Dbl.floor_1em12 = true).
  { intros row prev' g' newRow val r c ER EN EM.
    pose proof (randomIndex_spec RS fuel _ _ (generator st) rows_ok Hsz)
      as (_ & _ & Hin & _).
    apply Hin in ER as (_ & _ & Hrow & _).
    apply maxCoeff_all_zero in EM.
    - subst val. reflexivity.
    - apply (zero_residual_row _ _ _ _ HA HB Hrow EN). }
  destruct H as [row prev' g' newRow val r c ER EN EM EL
                |row prev' g' newRow val r c pivot ER EN EM EL EP EC
                |row prev' g' newRow val r c pivot cc newCol A0 B0 A B
                   ER EN EM EL EP EC ECol EG EA EB].
  - eexists. split; [reflexivity|]. repeat split; assumption.
  - rewrite (Hdeg _ _ _ _ _ _ _ ER EN EM) in EL. discriminate.
  - rewrite (Hdeg _ _ _ _ _ _ _ ER EN EM) in EL. discriminate.
Qed.

Lemma zero_loop :
  forall (n : nat) (st st' : AcaState RS) (e : option Exception),
    zeroFactors st ->
    size (previousRowIndices st) = length (sampled st) ->
    Z.of_nat (length (sampled st)) + Z.of_nat n <=
      hi (rowClusterRange node) - lo (rowClusterRange node) ->
    acaLoop accessor frobeniusNorm RS fuel cfg node n st = Ok (e, st') ->
    e = None /\ zeroFactors st'.
Proof.
  induction n as [|n IH]; intros st st' e Hz Hsz Hlen H.
  - simpl in H. injection H as <- <-. auto.
  - simpl in H. unfold_bind.
    destruct (acaTrial _ _ _ _ _ _ st) as [t|] eqn:ET; [|discriminate].
    pose proof ET as ET'.
    apply zero_trial in ET as (st1 & -> & Hz1); [|assumption|lia].
    apply acaTrial_cases in ET'.
    assert (Hs1 : size (previousRowIndices st1) = length (sampled st1) /\
                  length (sampled st1) = S (length (sampled st))).
    { inversion ET'; subst; simpl.
      - match goal with
        | H : randomIndex _ _ _ _ _ = Ok _ |- _ =>
            apply randomIndex_fresh in H as (Hn & -> & _)
        end.
        rewrite size_union by (apply disjoint_singleton_l; exact Hn).
        rewrite size_singleton. lia.
      - match goal with
        | H : (if ?b then _ else _) = _ |- _ =>
            destruct b; [discriminate|injection H as <-]
        end.
        simpl.
        match goal with
        | H : randomIndex _ _ _ _ _ = Ok _ |- _ =>
            apply randomIndex_fresh in H as (Hn & -> & _)
        end.
        rewrite size_union by (apply disjoint_singleton_l; exact Hn).
        rewrite size_singleton. lia. }
    destruct Hs1 as [Hs1 Hl1].
    apply IH in H; [assumption|assumption|assumption|lia].
Qed.

End ZeroBlock.

(** ** The admissible path of [compressBlock] *)

Lemma zeros_ok (r c : Z) (M : Matrix) :
  zeros r c = Ok M ->
  M = mkMatrix r c (fun _ _ => Dbl.zero) /\ 0 <= r /\ 0 <= c.
Proof.
  unfold zeros. intros H. destruct (_ && _) eqn:E in H; [|discriminate].
  injection H as <-. apply andb_prop in E. split; [reflexivity|lia].
Qed.

(** On an admissible node, a call that is not aborted ran the loop from
    [initialState] and either passes on the exception of the loop, with the
    factors as they are, or truncates the factors and applies the final test. *)
Lemma compressBlock_admissible accessor frobeniusNorm RS fuel cfg node
    (g : rs_state RS) (o : Outcome RS) :
  admissible node = true ->
  compressBlock accessor frobeniusNorm RS fuel cfg node g = Ok o ->
  0 <= SizeT.to_index (numberOfRows node) /\
  0 <= SizeT.to_index (numberOfColumns node) /\
  0 <= m_resizeThreshold cfg /\
  exists e st,
    acaLoop accessor frobeniusNorm RS fuel cfg node
            (Z.to_nat (iterationLimit cfg node)) (initialState cfg node g)
      = Ok (e, st) /\
    match e with
    | Some ex =>
        o = mkOutcome (Some ex) (HMatrixLowRankData (st_A st) (st_B st))
                      (generator st) (rev (sampled st))
    | None =>
        exists A B,
          truncate (st_A st) (st_B st) (rankCount st) = Ok (A, B) /\
          o = mkOutcome (if nanDetected A B then Some NaNDetected else None)
                        (HMatrixLowRankData A B) (generator st)
                        (rev (sampled st))
    end.
Proof.
  intros Hadm. unfold compressBlock. rewrite Hadm. simpl. unfold_bind.
  destruct (zeros _ _) as [A|] eqn:EA; [|discriminate].
  destruct (zeros (m_resizeThreshold cfg) _) as [B|] eqn:EB; [|discriminate].
  apply zeros_ok in EA as (-> & ? & ?). apply zeros_ok in EB as (-> & ? & ?).
  fold (initialState cfg node g).
  destruct (acaLoop _ _ _ _ _ _ _ _) as [[e st]|] eqn:EL; [|discriminate].
  intros Ho. repeat (split; [assumption|]). exists e, st. split; [reflexivity|].
  destruct e as [ex|].
  - injection Ho as <-. reflexivity.
  - destruct (truncate _ _ _) as [[A B]|]; [|discriminate].
    injection Ho as <-. eauto.
Qed.

Lemma initialState_inv {RS : RandomSource} cfg node (g : rs_state RS) :
  0 <= m_resizeThreshold cfg ->
  LoopInv cfg node (initialState cfg node g).
Proof.
  intros Ht. constructor; simpl; try reflexivity; try lia.
Qed.

Lemma truncate_shape (A B A' B' : Matrix) (rank : Z) :
  cols A = rows B -> 0 <= rank <= cols A -> cols A < SizeT.modulus ->
  rank < 2 ^ 63 ->
  truncate A B rank = Ok (A', B') ->
  rows A' = rows A /\ cols A' = rank /\ rows B' = rank /\ cols B' = cols B.
Proof.
  intros Hi Hr Hm Hs. unfold truncate, SizeT.sub.
  rewrite (wrap_small (cols A)) by lia.
  rewrite (wrap_small (cols A - rank)) by lia.
  destruct (Z.gtb_spec (cols A - rank) 0) as [Hgt|Hle].
  - unfold_bind. rewrite to_index_small by lia.
    destruct (block A _ _ _ _) as [A1|] eqn:EA; [|discriminate].
    destruct (block B _ _ _ _) as [B1|] eqn:EB; [|discriminate].
    intros HT. injection HT as <- <-.
    apply block_ok in EA as (? & ? & _). apply block_ok in EB as (? & ? & _).
    auto.
  - intros HT. injection HT as <- <-. repeat split; lia.
Qed.

Lemma numberOfRows_exact (node : BlockClusterTreeNode) :
  nonEmptyRange (rowClusterRange node) ->
  numberOfRows node = hi (rowClusterRange node) - lo (rowClusterRange node).
Proof.
  intros (? & ? & ?). unfold numberOfRows, SizeT.sub. apply wrap_small. lia.
Qed.

Lemma numberOfColumns_exact (node : BlockClusterTreeNode) :
  nonEmptyRange (columnClusterRange node) ->
  numberOfColumns node =
    hi (columnClusterRange node) - lo (columnClusterRange node).
Proof.
  intros (? & ? & ?). unfold numberOfColumns, SizeT.sub. apply wrap_small. lia.
Qed.

Lemma to_index_nonneg (z : Z) :
  0 <= z < SizeT.modulus -> 0 <= SizeT.to_index z -> SizeT.to_index z = z.
Proof.
  unfold SizeT.to_index. rewrite modulus_value.
  destruct (Z.ltb_spec z (2 ^ 63)); lia.
Qed.

(** The factors of a run that ends. On an admissible block with non-empty
    row and column ranges, a run of [compressBlock] that reaches its final
    test (it was neither aborted inside the loop nor left by the cast) leaves
    the factors [A] (rows x k) and [B] (k x cols) with
    [0 <= k <= min(maxRank, rows, cols)] in the caller's block data: the loop
    made at most that many trials and each added at most one to the rank;
    nothing of the zero padding is left. On an all-zero block [k = 0]. This
    says nothing of the runs that are aborted, and a run that ends may still
    throw. *)
Lemma completed_run_rank_and_shape accessor frobeniusNorm RS fuel cfg node
    (g : rs_state RS) (o : Outcome RS) :
  validConfig cfg ->
  nonEmptyRange (rowClusterRange node) ->
  nonEmptyRange (columnClusterRange node) ->
  admissible node = true ->
  compressBlock accessor frobeniusNorm RS fuel cfg node g = Ok o ->
  thrown o <> Some NegativeOverflow ->
  exists A B k,
    hMatrixData o = HMatrixLowRankData A B /\
    cols A = k /\ rows B = k /\
    rows A = numberOfRows node /\ cols B = numberOfColumns node /\
    0 <= k <= Z.min (m_maxRank cfg) (Z.min (numberOfRows node) (numberOfColumns node)) /\
    k <= Z.of_nat (length (pivotRows o)) <= iterationLimit cfg node /\
    (allZeroBlock accessor node -> k = 0).
Proof.
  intros Hcfg Hrows Hcols Hadm H Hthrown.
  pose proof (numberOfRows_exact node Hrows) as HR.
  pose proof (numberOfColumns_exact node Hcols) as HC.
  pose proof modulus_value as Hmod. pose proof uint_max_value as Huint.
  pose proof Hcfg as [Hmax Hthr].
  destruct Hrows as (R0 & R1 & R2). destruct Hcols as (C0 & C1 & C2).
  destruct (compressBlock_admissible _ _ _ _ _ _ _ _ Hadm H)
    as (HiR & HiC & _ & e & st & EL & Ho).
  assert (HRi : SizeT.to_index (numberOfRows node) = numberOfRows node)
    by (apply to_index_nonneg; [lia|assumption]).
  assert (HCi : SizeT.to_index (numberOfColumns node) = numberOfColumns node)
    by (apply to_index_nonneg; [lia|assumption]).
  assert (Hlim : 0 <= iterationLimit cfg node <= SizeT.uint_max /\
                 iterationLimit cfg node <= numberOfRows node).
  { unfold iterationLimit. lia. }
  assert (Hbudget :
    Z.of_nat (length (sampled (initialState cfg node g))) +
    Z.of_nat (Z.to_nat (iterationLimit cfg node)) <= SizeT.uint_max).
  { change (sampled (initialState cfg node g)) with (@nil Z).
    change (Z.of_nat (length (@nil Z))) with 0. lia. }
  pose proof (acaLoop_preserves accessor frobeniusNorm RS fuel cfg node Hcfg
                _ _ _ _ (initialState_inv cfg node g ltac:(lia))
                Hbudget EL) as (Inv & Hlen & He).
  change (sampled (initialState cfg node g)) with (@nil Z) in Hlen.
  change (length (@nil Z)) with O in Hlen.
  destruct e as [ex|].
  { subst o. simpl in Hthrown. destruct He as [He|He]; congruence. }
  destruct Ho as (A & B & ET & ->). simpl. clear Hthrown He.
  destruct Inv as [I1 I2 I3 I4 I5 I6 I7 I8].
  apply truncate_shape in ET as (T1 & T2 & T3 & T4); try lia.
  exists A, B, (rankCount st). rewrite length_rev.
  repeat split; try lia; try congruence.
  - unfold iterationLimit in *. lia.
  - intros Hzero.
    assert (Hz0 : zeroFactors (initialState cfg node g))
      by (repeat split; reflexivity).
    assert (Hs0 : size (previousRowIndices (initialState cfg node g)) =
                  length (sampled (initialState cfg node g)))
      by apply size_empty.
    assert (Hb0 : Z.of_nat (length (sampled (initialState cfg node g))) +
                  Z.of_nat (Z.to_nat (iterationLimit cfg node)) <=
                  hi (rowClusterRange node) - lo (rowClusterRange node)).
    { change (sampled (initialState cfg node g)) with (@nil Z).
      change (Z.of_nat (length (@nil Z))) with 0. lia. }
    assert (Hrows' : nonEmptyRange (rowClusterRange node))
      by (repeat split; assumption).
    assert (Hcols' : nonEmptyRange (columnClusterRange node))
      by (repeat split; assumption).
    pose proof (zero_loop accessor frobeniusNorm RS fuel cfg node
                  Hrows' Hcols' Hzero _ _ _ _ Hz0 Hs0 Hb0 EL)
      as (_ & _ & _ & Hk).
    exact Hk.
Qed.

Lemma completed_run_rank_and_shape_example :
  exists o A B k,
    runOn Blocks.zeroBlock (Blocks.config 5 2)
               (Blocks.admissibleNode 0 2 0 2) [7; 7] = Ok o /\
    hMatrixData o = HMatrixLowRankData A B /\
    cols A = k /\ rows B = k /\
    rows A = 2 /\ cols B = 2 /\
    0 <= k <= 2 /\
    k <= Z.of_nat (length (pivotRows o)) <= 2 /\
    (allZeroBlock Blocks.zeroBlock (Blocks.admissibleNode 0 2 0 2) -> k = 0).
Proof.
  destruct (runOn Blocks.zeroBlock (Blocks.config 5 2)
              (Blocks.admissibleNode 0 2 0 2) [7; 7]) as [o|f] eqn:E;
    [|vm_compute in E; discriminate].
  assert (Ht : thrown o <> Some NegativeOverflow).
  { change (thrown o) with
      (match Ok o with Ok o' => thrown o' | Fail _ => None end).
    rewrite <- E. vm_compute. discriminate. }
  assert (Hcfg : validConfig (Blocks.config 5 2)) by (vm_compute; intuition discriminate).
  assert (Hr : nonEmptyRange (mkRange 0 2)) by (vm_compute; intuition discriminate).
  destruct (completed_run_rank_and_shape Blocks.zeroBlock frobeniusNormOfData
              tapeSource 64%nat (Blocks.config 5 2)
              (Blocks.admissibleNode 0 2 0 2) [7; 7] o Hcfg Hr Hr eq_refl E Ht)
    as (A & B & k & H).
  exists o, A, B, k. split; [reflexivity|exact H].
Defined.

(** ** Where the run is aborted *)

(** A request the evaluator does not answer ends in a failed assertion of
    Eigen. *)
Lemma evaluate_fails_by_assertion accessor node rowR colR (A B : Matrix)
    (f : Failure) :
  evaluateMatMinusLowRank accessor node rowR colR A B = Fail f ->
  f = AssertFail.
Proof.
  unfold evaluateMatMinusLowRank. unfold_bind. intros H.
  destruct (block A _ _ _ _) as [Ab|fa] eqn:EA.
  - destruct (block B _ _ _ _) as [Bb|fb] eqn:EB.
    + destruct (mul Ab Bb) as [P|fp] eqn:EP.
      * unfold sub in H. destruct (_ && _) in H; [discriminate|].
        injection H as <-. reflexivity.
      * unfold mul in EP. destruct (_ =? _) in EP; [discriminate|].
        injection EP as <-. injection H as <-. reflexivity.
    + unfold block in EB. destruct (_ && _) in EB; [discriminate|].
      injection EB as <-. injection H as <-. reflexivity.
  - unfold block in EA. destruct (_ && _) in EA; [discriminate|].
    injection EA as <-. injection H as <-. reflexivity.
Qed.

Lemma zeros_fails_by_assertion (r c : Z) (f : Failure) :
  zeros r c = Fail f -> f = AssertFail.
Proof.
  unfold zeros. destruct (_ && _); [discriminate|].
  intros H. injection H as <-. reflexivity.
Qed.

Lemma positions_no_row (c : Z) : positions 0 c = [].
Proof.
  unfold positions, upto. induction (seqZ 0 c) as [|j l IH]; [reflexivity|].
  simpl. exact IH.
Qed.

(** The final test fires on every factor pair without a term: an empty [B]
    has no coefficient that is not finite. *)
Lemma nanDetected_no_term (A B : Matrix) : rows B = 0 -> nanDetected A B = true.
Proof.
  intros HB. unfold nanDetected, selfEqAll, entries.
  rewrite HB, positions_no_row. apply orb_true_r.
Qed.

(** The first trial on a block whose width is not [resizeThreshold]: the
    request for the sampled row fails the range assertion of [B.block]. *)
Lemma first_trial_is_aborted accessor frobeniusNorm RS fuel cfg node
    (g : rs_state RS) :
  0 <= m_resizeThreshold cfg ->
  nonEmptyRange (rowClusterRange node) ->
  nonEmptyRange (columnClusterRange node) ->
  numberOfColumns node <> m_resizeThreshold cfg ->
  (Z.to_nat (hi (rowClusterRange node) - lo (rowClusterRange node)) + 1
   <= fuel)%nat ->
  acaTrial accessor frobeniusNorm RS fuel cfg node (initialState cfg node g)
    = Fail AssertFail.
Proof.
  intros Hthr Hrows Hcols Hne Hfuel.
  pose proof (numberOfColumns_exact node Hcols) as HC.
  pose proof modulus_value as Hmod.
  unfold acaTrial, initialState. unfold_bind.
  cbn [previousRowIndices generator st_A st_B].
  assert (Hsize : Z.of_nat (size (∅ : gset Z)) <
                  hi (rowClusterRange node) - lo (rowClusterRange node)).
  { rewrite size_empty. destruct Hrows as (? & ? & ?). simpl. lia. }
  destruct (randomIndex_spec RS fuel (rowClusterRange node) ∅ g Hrows Hsize)
    as (_ & _ & _ & Htot).
  destruct (Htot Hfuel) as [idx Eidx]. rewrite Eidx.
  destruct (evaluateMatMinusLowRank accessor node
              (mkRange idx (SizeT.add idx 1)) (columnClusterRange node) _ _)
    as [R|f] eqn:EE.
  - exfalso. apply evaluate_ok_width in EE as (Hw & _).
    rewrite sizet_sub_sub in Hw. cbn [cols] in Hw.
    unfold numberOfColumns in Hne, HC.
    unfold SizeT.to_index in Hw.
    destruct Hcols as (? & ? & ?).
    destruct (Z.ltb_spec (SizeT.sub (hi (columnClusterRange node))
                                    (lo (columnClusterRange node))) (2 ^ 63));
      lia.
  - apply evaluate_fails_by_assertion in EE. subst f. reflexivity.
Qed.

(** C5: the code does not deliver the rank and the shape. (1) Whatever the
    entries of an admissible block with non-empty ranges, [compressBlock] with
    [maxRank >= 1] is aborted in its first trial unless the block has exactly
    [resizeThreshold] columns: the trial asks the evaluator for a full row of
    the block, and with the two sizes of [B.block] exchanged that request
    fails the range assertion of Eigen. The call then delivers no rank [k]
    and no factor [A] with [k] columns; so it is for the all-zero blocks and
    for the blocks that would make the factors grow. (2) On an all-zero block
    a call that is not aborted leaves the rank 0 in the caller's block data
    and throws ["NaN detected."]: the final test fires on a [B] without
    coefficients. *)
Theorem C5_no_factors_are_returned accessor frobeniusNorm RS fuel cfg node
    (g : rs_state RS) :
  validConfig cfg ->
  nonEmptyRange (rowClusterRange node) ->
  nonEmptyRange (columnClusterRange node) ->
  admissible node = true ->
  (1 <= m_maxRank cfg ->
   numberOfColumns node <> m_resizeThreshold cfg ->
   (Z.to_nat (hi (rowClusterRange node) - lo (rowClusterRange node)) + 1
    <= fuel)%nat ->
   compressBlock accessor frobeniusNorm RS fuel cfg node g = Fail AssertFail) /\
  (allZeroBlock accessor node ->
   forall o, compressBlock accessor frobeniusNorm RS fuel cfg node g = Ok o ->
     thrown o = Some NaNDetected /\
     exists A B, hMatrixData o = HMatrixLowRankData A B /\
                 cols A = 0 /\ rows B = 0).
Proof.
  intros Hcfg Hrows Hcols Hadm.
  pose proof (numberOfRows_exact node Hrows) as HR.
  pose proof (numberOfColumns_exact node Hcols) as HC.
  pose proof modulus_value as Hmod. pose proof uint_max_value as Huint.
  pose proof Hcfg as [Hmaxr Hthr].
  pose proof Hrows as (R0 & R1 & R2). pose proof Hcols as (C0 & C1 & C2).
  split.
  - intros Hmax Hne Hfuel.
    unfold compressBlock. rewrite Hadm. cbn [negb]. unfold_bind.
    destruct (zeros (SizeT.to_index (numberOfRows node)) (m_resizeThreshold cfg))
      as [A|fa] eqn:EA;
      [|apply zeros_fails_by_assertion in EA; subst fa; reflexivity].
    destruct (zeros (m_resizeThreshold cfg)
                    (SizeT.to_index (numberOfColumns node)))
      as [B|fb] eqn:EB;
      [|apply zeros_fails_by_assertion in EB; subst fb; reflexivity].
    apply zeros_ok in EA as (-> & _ & _). apply zeros_ok in EB as (-> & _ & _).
    assert (Hlim : 1 <= iterationLimit cfg node)
      by (unfold iterationLimit; lia).
    destruct (Z.to_nat (iterationLimit cfg node)) as [|n] eqn:En; [lia|].
    cbn [acaLoop]. unfold_bind.
    pose proof (first_trial_is_aborted accessor frobeniusNorm RS fuel cfg node
                  g ltac:(lia) Hrows Hcols Hne Hfuel) as ET.
    unfold initialState in ET. rewrite ET. reflexivity.
  - intros Hzero o H.
    destruct (compressBlock_admissible _ _ _ _ _ _ _ _ Hadm H)
      as (HiR & HiC & _ & e & st & EL & Ho).
    assert (Hlim : 0 <= iterationLimit cfg node <= SizeT.uint_max /\
                   iterationLimit cfg node <= numberOfRows node)
      by (unfold iterationLimit; lia).
    assert (Hbudget :
      Z.of_nat (length (sampled (initialState cfg node g))) +
      Z.of_nat (Z.to_nat (iterationLimit cfg node)) <= SizeT.uint_max).
    { change (sampled (initialState cfg node g)) with (@nil Z).
      change (Z.of_nat (length (@nil Z))) with 0. lia. }
    pose proof (acaLoop_preserves accessor frobeniusNorm RS fuel cfg node Hcfg
                  _ _ _ _ (initialState_inv cfg node g ltac:(lia))
                  Hbudget EL) as (Inv & _ & _).
    assert (Hz0 : zeroFactors (initialState cfg node g))
      by (repeat split; reflexivity).
    assert (Hs0 : size (previousRowIndices (initialState cfg node g)) =
                  length (sampled (initialState cfg node g)))
      by apply size_empty.
    assert (Hb0 : Z.of_nat (length (sampled (initialState cfg node g))) +
                  Z.of_nat (Z.to_nat (iterationLimit cfg node)) <=
                  hi (rowClusterRange node) - lo (rowClusterRange node)).
    { change (sampled (initialState cfg node g)) with (@nil Z).
      change (Z.of_nat (length (@nil Z))) with 0. lia. }
    pose proof (zero_loop accessor frobeniusNorm RS fuel cfg node
                  Hrows Hcols Hzero _ _ _ _ Hz0 Hs0 Hb0 EL)
      as (-> & _ & _ & Hk).
    destruct Ho as (A & B & ET & ->).
    destruct Inv as [I1 I2 I3 I4 I5 I6 I7 I8].
    apply truncate_shape in ET as (T1 & T2 & T3 & T4); try lia.
    cbn [thrown hMatrixData].
    rewrite nanDetected_no_term by lia.
    split; [reflexivity|]. exists A, B.
    split; [reflexivity|]. lia.
Qed.

Lemma C5_no_factors_are_returned_witness :
  runOn Blocks.zeroBlock (Blocks.config 2 1) (Blocks.admissibleNode 0 2 0 2)
        [0; 0] = Fail AssertFail /\
  runOn Blocks.identity (Blocks.config 10 1) (Blocks.admissibleNode 0 7 0 7)
        [0; 0; 0; 0; 0; 0; 0] = Fail AssertFail /\
  exists o,
    runOn Blocks.zeroBlock (Blocks.config 5 2) (Blocks.admissibleNode 0 2 0 2)
          [7; 7] = Ok o /\
    thrown o = Some NaNDetected.
Proof.
  assert (Hr2 : nonEmptyRange (mkRange 0 2))
    by (vm_compute; intuition discriminate).
  assert (Hr7 : nonEmptyRange (mkRange 0 7))
    by (vm_compute; intuition discriminate).
  split; [|split].
  - apply (C5_no_factors_are_returned Blocks.zeroBlock frobeniusNormOfData
             tapeSource 64%nat (Blocks.config 2 1)
             (Blocks.admissibleNode 0 2 0 2) [0; 0]);
      [vm_compute; intuition discriminate|exact Hr2|exact Hr2|reflexivity
      |vm_compute; discriminate|vm_compute; discriminate|vm_compute; lia].
  - apply (C5_no_factors_are_returned Blocks.identity frobeniusNormOfData
             tapeSource 64%nat (Blocks.config 10 1)
             (Blocks.admissibleNode 0 7 0 7) [0; 0; 0; 0; 0; 0; 0]);
      [vm_compute; intuition discriminate|exact Hr7|exact Hr7|reflexivity
      |vm_compute; discriminate|vm_compute; discriminate|vm_compute; lia].
  - destruct (runOn Blocks.zeroBlock (Blocks.config 5 2)
                (Blocks.admissibleNode 0 2 0 2) [7; 7]) as [o|f] eqn:E;
      [|vm_compute in E; discriminate].
    exists o. split; [reflexivity|].
    apply (C5_no_factors_are_returned Blocks.zeroBlock frobeniusNormOfData
             tapeSource 64%nat (Blocks.config 5 2)
             (Blocks.admissibleNode 0 2 0 2) [7; 7]);
      [vm_compute; intuition discriminate|exact Hr2|exact Hr2|reflexivity
      |intros i j _ _; reflexivity|exact E].
Defined.

(** ** What the loop can be left with *)

(** The only exception that leaves the loop is the one of the cast. *)
Lemma acaLoop_exception accessor frobeniusNorm RS fuel cfg node :
  forall (n : nat) (st st' : AcaState RS) (ex : Exception),
    acaLoop accessor frobeniusNorm RS fuel cfg node n st = Ok (Some ex, st') ->
    ex = NegativeOverflow.
Proof.
  induction n as [|n IH]; intros st st' ex H; [discriminate|].
  simpl in H. unfold_bind.
  destruct (acaTrial _ _ _ _ _ _ st) as [t|] eqn:ET; [|discriminate].
  apply acaTrial_cases in ET.
  destruct t as [st1|st1|e1 st1].
  - eapply IH; eassumption.
  - discriminate.
  - injection H as <- <-. inversion ET; subst; try reflexivity.
    match goal with
    | H : (if ?b then _ else _) = _ |- _ => destruct b; discriminate
    end.
Qed.

(** What [compressBlock] does on an admissible node, with the final test
    read as a test of finiteness. *)
Lemma compressBlock_throws_iff accessor frobeniusNorm RS fuel cfg node
    (g : rs_state RS) (o : Outcome RS) (A B : Matrix) :
  admissible node = true ->
  compressBlock accessor frobeniusNorm RS fuel cfg node g = Ok o ->
  hMatrixData o = HMatrixLowRankData A B ->
  thrown o <> Some NegativeOverflow ->
  (thrown o = Some NaNDetected <-> allFinite A = false \/ allFinite B = true).
Proof.
  intros Hadm H Hd Ht.
  destruct (compressBlock_admissible _ _ _ _ _ _ _ _ Hadm H)
    as (_ & _ & _ & e & st & EL & Ho).
  destruct e as [ex|].
  - apply acaLoop_exception in EL. subst. simpl in Ht. congruence.
  - destruct Ho as (A' & B' & _ & ->). simpl in *. injection Hd as -> ->.
    rewrite nanDetected_spec.
    destruct (allFinite A), (allFinite B); simpl; split; intros;
      (congruence || tauto || (destruct H0; congruence) || auto).
Qed.

(** C3 as amended: when [compressBlock] throws ["NaN detected."], the block data
    of the caller is the low-rank object the call created, and it holds the
    factor pair the loop accumulated, truncated to [rankCount]: the very
    pair that failed the final test. Nothing is rolled back. *)
Theorem C3_failed_call_leaves_the_factors accessor frobeniusNorm RS fuel cfg
    node (g : rs_state RS) (o : Outcome RS) :
  admissible node = true ->
  compressBlock accessor frobeniusNorm RS fuel cfg node g = Ok o ->
  thrown o = Some NaNDetected ->
  exists st A B,
    acaLoop accessor frobeniusNorm RS fuel cfg node
            (Z.to_nat (iterationLimit cfg node)) (initialState cfg node g)
      = Ok (None, st) /\
    truncate (st_A st) (st_B st) (rankCount st) = Ok (A, B) /\
    nanDetected A B = true /\
    hMatrixData o = HMatrixLowRankData A B.
Proof.
  intros Hadm H Ht.
  destruct (compressBlock_admissible _ _ _ _ _ _ _ _ Hadm H)
    as (_ & _ & _ & e & st & EL & Ho).
  destruct e as [ex|].
  - apply acaLoop_exception in EL. subst. discriminate.
  - destruct Ho as (A & B & ET & ->). simpl in Ht.
    exists st, A, B. repeat split; try assumption.
    destruct (nanDetected A B); [reflexivity|discriminate].
Qed.

Lemma C3_failed_call_leaves_the_factors_witness :
  exists o st A B,
    runOn Blocks.infinite (Blocks.config 5 1)
          (Blocks.admissibleNode 0 2 0 1) [1] = Ok o /\
    acaLoop Blocks.infinite frobeniusNormOfData tapeSource 64
            (Blocks.config 5 1) (Blocks.admissibleNode 0 2 0 1)
            (Z.to_nat (iterationLimit (Blocks.config 5 1)
                                      (Blocks.admissibleNode 0 2 0 1)))
            (@initialState tapeSource (Blocks.config 5 1)
                           (Blocks.admissibleNode 0 2 0 1) [1])
      = Ok (None, st) /\
    truncate (st_A st) (st_B st) (rankCount st) = Ok (A, B) /\
    nanDetected A B = true /\
    hMatrixData o = HMatrixLowRankData A B.
Proof.
  destruct (runOn Blocks.infinite (Blocks.config 5 1)
              (Blocks.admissibleNode 0 2 0 1) [1]) as [o|f] eqn:E;
    [|vm_compute in E; discriminate].
  assert (Ht : thrown o = Some NaNDetected).
  { change (thrown o) with
      (match Ok o with Ok o' => thrown o' | Fail _ => None end).
    rewrite <- E. vm_compute. reflexivity. }
  destruct (C3_failed_call_leaves_the_factors Blocks.infinite
              frobeniusNormOfData tapeSource 64%nat (Blocks.config 5 1)
              (Blocks.admissibleNode 0 2 0 1) [1] o eq_refl E Ht)
    as (st & A & B & H).
  exists o, st, A, B. split; [reflexivity|exact H].
Defined.

(** C3 as stated fails on the admissible 2x1 block whose entries are
    [+infinity] ([maxRank = 5], [resizeThreshold = 1]): the loop stores the
    column [(inf inf)] and the row [(nan)], the call throws ["NaN detected."],
    and the caller's block data is the low-rank object that holds exactly
    this factor pair. *)
Lemma C3_partial_output_counterexample :
  exists o st,
    runOn Blocks.infinite (Blocks.config 5 1) (Blocks.admissibleNode 0 2 0 1) [1]
      = Ok o /\
    thrown o = Some NaNDetected /\
    acaLoop Blocks.infinite frobeniusNormOfData tapeSource 64 (Blocks.config 5 1)
            (Blocks.admissibleNode 0 2 0 1) 1
            (@initialState tapeSource (Blocks.config 5 1)
                           (Blocks.admissibleNode 0 2 0 1) [1])
      = Ok (None, st) /\
    rankCount st = 1 /\
    hMatrixData o = HMatrixLowRankData (st_A st) (st_B st) /\
    to_rows (st_A st) = [[infinity]; [infinity]] /\
    to_rows (st_B st) = [[nan]] /\
    allFinite (st_A st) = false.
Proof.
  eexists _, _. vm_compute. repeat split; reflexivity.
Qed.

(** ** The used rows along the loop *)

(** Every trial draws a row that was not used and adds it to the set. *)
Lemma acaTrial_previous accessor frobeniusNorm RS fuel cfg node
    (st : AcaState RS) (t : Trial RS) :
  acaTrial accessor frobeniusNorm RS fuel cfg node st = Ok t ->
  exists row,
    (row ∉ previousRowIndices st) /\
    previousRowIndices (stateOf t) = {[row]} ∪ previousRowIndices st /\
    sampled (stateOf t) = row :: sampled st /\
    generator (stateOf t) =
      fst (rs_uniform RS (generator st)
             (SizeT.sub (numberOfPossibleIndices (rowClusterRange node)
                                                 (previousRowIndices st)) 1)).
Proof.
  intros H. apply acaTrial_cases in H.
  destruct H as [row prev' g' newRow val r c ER EN EM EL
                |row prev' g' newRow val r c pivot ER EN EM EL EP EC
                |row prev' g' newRow val r c pivot cc newCol A0 B0 A B
                   ER EN EM EL EP EC ECol EG EA EB];
    apply randomIndex_fresh in ER as (Hn & -> & ->); exists row;
    try (cbv zeta; destruct (negligible _ _ _ _)); simpl; auto.
Qed.

Lemma afterTrials_previous accessor frobeniusNorm RS fuel cfg node
    (k : nat) (st st' : AcaState RS) :
  afterTrials accessor frobeniusNorm RS fuel cfg node k st st' ->
  previousRowIndices st ⊆ previousRowIndices st' /\
  size (previousRowIndices st') = (size (previousRowIndices st) + k)%nat.
Proof.
  induction 1 as [st|k st st1 st2 _ [IH1 IH2] HT].
  - split; [reflexivity|lia].
  - apply acaTrial_previous in HT as (row & Hn & Hp & _). simpl in Hp.
    rewrite Hp. split.
    + etransitivity; [exact IH1|]. apply union_subseteq_r.
    + rewrite size_union by (apply disjoint_singleton_l; exact Hn).
      rewrite size_singleton. lia.
Qed.

(** The states [afterTrials] relates are the states the loop goes through. *)
Lemma acaLoop_afterTrials accessor frobeniusNorm RS fuel cfg node
    (k : nat) (st st' : AcaState RS) :
  afterTrials accessor frobeniusNorm RS fuel cfg node k st st' ->
  forall n, acaLoop accessor frobeniusNorm RS fuel cfg node (k + n) st =
            acaLoop accessor frobeniusNorm RS fuel cfg node n st'.
Proof.
  induction 1 as [st|k st st1 st2 _ IH HT]; intros n; [reflexivity|].
  replace (S k + n)%nat with (k + S n)%nat by lia.
  rewrite IH. simpl. unfold_bind. rewrite HT. reflexivity.
Qed.

(** ** The degenerate row *)

(** C7: a trial whose residual row has a largest absolute value below
    [1E-12] ends in [continue]: no failure and no exception, the factors and
    [rankCount] are as before, the row is in the set of used rows. The trial
    is spent: the loop goes on with one trial less. In every later state of
    the call the row is still marked as used, and [randomIndex] does not
    return it again. *)
Theorem C7_degenerate_row_is_discarded accessor frobeniusNorm RS fuel cfg node
    (st : AcaState RS) (row : Z) (previous' : gset Z) (g' : rs_state RS)
    (newRow : Matrix) (val : float) (maxRowInd maxColInd : Z) :
  randomIndex RS fuel (rowClusterRange node) (previousRowIndices st)
              (generator st) = Ok (row, previous', g') ->
  evaluateMatMinusLowRank accessor node (mkRange row (SizeT.add row 1))
    (columnClusterRange node) (st_A st) (st_B st) = Ok newRow ->
  maxCoeff (cwiseAbs newRow) = Ok (val, maxRowInd, maxColInd) ->
  PrimFloat.ltb val Dbl.floor_1em12 = true ->
  exists st1,
    acaTrial accessor frobeniusNorm RS fuel cfg node st = Ok (Continue st1) /\
    st_A st1 = st_A st /\ st_B st1 = st_B st /\
    rankCount st1 = rankCount st /\
    row ∈ previousRowIndices st1 /\
    (forall n,
       acaLoop accessor frobeniusNorm RS fuel cfg node (S n) st =
       acaLoop accessor frobeniusNorm RS fuel cfg node n st1) /\
    (forall k st2,
       afterTrials accessor frobeniusNorm RS fuel cfg node k st1 st2 ->
       row ∈ previousRowIndices st2 /\
       forall row2 previous2 g2,
         randomIndex RS fuel (rowClusterRange node) (previousRowIndices st2)
                     (generator st2) = Ok (row2, previous2, g2) ->
         row2 <> row).
Proof.
  intros ER EN EM EL.
  pose proof (trial_degenerate accessor frobeniusNorm RS fuel cfg node st
                _ _ _ _ _ _ _ ER EN EM EL) as T.
  apply acaTrial_cases in T.
  eexists. split; [exact T|]. simpl.
  apply randomIndex_fresh in ER as (_ & -> & _).
  assert (Hrow : row ∈ ({[row]} ∪ previousRowIndices st : gset Z))
    by (apply elem_of_union_l, elem_of_singleton; reflexivity).
  split; [reflexivity|]. split; [reflexivity|]. split; [reflexivity|].
  split; [exact Hrow|]. split.
  - intros n. simpl. unfold_bind. rewrite T. reflexivity.
  - intros k st2 Hafter.
    apply afterTrials_previous in Hafter as [Hsub _]. simpl in Hsub.
    split; [apply Hsub, Hrow|].
    intros row2 previous2 g2 E2 ->.
    apply randomIndex_fresh in E2 as (Hn & _).
    apply Hn, Hsub, Hrow.
Qed.

Lemma C7_degenerate_row_is_discarded_witness :
  exists st1,
    acaTrial Blocks.zeroThenFive frobeniusNormOfData tapeSource 64
             (Blocks.config 5 1) (Blocks.admissibleNode 0 2 0 1)
             (@initialState tapeSource (Blocks.config 5 1)
                            (Blocks.admissibleNode 0 2 0 1) [0; 1])
      = Ok (Continue st1) /\
    st_A st1 = mkMatrix 2 1 (fun _ _ => Dbl.zero) /\
    st_B st1 = mkMatrix 1 1 (fun _ _ => Dbl.zero) /\
    rankCount st1 = 0 /\
    0 ∈ previousRowIndices st1 /\
    (forall n,
       acaLoop Blocks.zeroThenFive frobeniusNormOfData tapeSource 64
               (Blocks.config 5 1) (Blocks.admissibleNode 0 2 0 1) (S n)
               (@initialState tapeSource (Blocks.config 5 1)
                              (Blocks.admissibleNode 0 2 0 1) [0; 1]) =
       acaLoop Blocks.zeroThenFive frobeniusNormOfData tapeSource 64
               (Blocks.config 5 1) (Blocks.admissibleNode 0 2 0 1) n st1) /\
    (forall k st2,
       afterTrials Blocks.zeroThenFive frobeniusNormOfData tapeSource 64
                   (Blocks.config 5 1) (Blocks.admissibleNode 0 2 0 1) k st1 st2 ->
       0 ∈ previousRowIndices st2 /\
       forall row2 previous2 g2,
         randomIndex tapeSource 64 (mkRange 0 2) (previousRowIndices st2)
                     (generator st2) = Ok (row2, previous2, g2) ->
         row2 <> 0).
Proof.
  eapply (C7_degenerate_row_is_discarded Blocks.zeroThenFive frobeniusNormOfData
            tapeSource 64%nat (Blocks.config 5 1) (Blocks.admissibleNode 0 2 0 1)
            (@initialState tapeSource (Blocks.config 5 1)
                           (Blocks.admissibleNode 0 2 0 1) [0; 1])
            0 ({[0]} ∪ ∅) [1]).
  - vm_compute. reflexivity.
  - vm_compute. reflexivity.
  - vm_compute. reflexivity.
  - vm_compute. reflexivity.
Defined.

(** ** The stopping test *)



(** ** The contract of [randomIndex] *)

(** C9: on a non-empty range of which fewer indices are used than it has
    (so it is for a set of used indices of the range that leaves one unused,
    [used_subset_leaves_room]), [randomIndex]
    draws an ordinal in [[0, remainingCount)], where [remainingCount] is the
    width of the range minus the size of the set, and returns the unused
    index of the range with exactly that many unused indices before it. The
    index lies in the range, was not used, and is in the set that is handed
    back. Along the trials of one call the set only grows, by one row per
    trial: it is never reset. *)
Theorem C9_randomIndex_returns_the_drawn_unused_index RS fuel
    (range : IndexRange) (previousIndices : gset Z) (g : rs_state RS) :
  nonEmptyRange range ->
  Z.of_nat (size previousIndices) < hi range - lo range ->
  (Z.to_nat (hi range - lo range) + 1 <= fuel)%nat ->
  let remainingCount := numberOfPossibleIndices range previousIndices in
  let ordinal := snd (rs_uniform RS g (remainingCount - 1)) in
  remainingCount = hi range - lo range - Z.of_nat (size previousIndices) /\
  0 <= ordinal < remainingCount /\
  (exists newIndex,
     randomIndex RS fuel range previousIndices g =
       Ok (newIndex, {[newIndex]} ∪ previousIndices,
           fst (rs_uniform RS g (remainingCount - 1))) /\
     lo range <= newIndex < hi range /\
     (newIndex ∉ previousIndices) /\
     unusedBefore previousIndices (lo range) newIndex = ordinal /\
     newIndex ∈ ({[newIndex]} ∪ previousIndices : gset Z)) /\
  (forall accessor frobeniusNorm cfg node k (st st' : AcaState RS),
     afterTrials accessor frobeniusNorm RS fuel cfg node k st st' ->
     previousRowIndices st ⊆ previousRowIndices st' /\
     size (previousRowIndices st') = (size (previousRowIndices st) + k)%nat).
Proof.
  intros Hr Hsz Hfuel remainingCount ordinal.
  destruct (randomIndex_spec RS fuel range previousIndices g Hr Hsz)
    as (Hrem & Hord & Hin & Hterm).
  fold remainingCount in Hrem, Hord, Hin, Hterm. fold ordinal in Hord, Hin.
  split; [exact Hrem|]. split; [exact Hord|]. split.
  - destruct (Hterm Hfuel) as [idx Hidx]. exists idx.
    destruct (Hin _ _ _ Hidx) as (_ & _ & Hrange & Hfresh & Hnth).
    split; [exact Hidx|]. split; [exact Hrange|]. split; [exact Hfresh|].
    split; [exact Hnth|].
    apply elem_of_union_l, elem_of_singleton. reflexivity.
  - intros accessor frobeniusNorm cfg node k st st' Hk.
    exact (afterTrials_previous _ _ _ _ _ _ _ _ _ Hk).
Qed.

Lemma C9_randomIndex_returns_the_drawn_unused_index_witness :
  let previousIndices : gset Z := {[11; 13]} in
  numberOfPossibleIndices (mkRange 10 15) previousIndices = 3 /\
  snd (tapeUniform [1] 2) = 1 /\
  exists newIndex,
    randomIndex tapeSource 64 (mkRange 10 15) previousIndices [1] =
      Ok (newIndex, {[newIndex]} ∪ previousIndices, []) /\
    newIndex = 12 /\
    unusedBefore previousIndices 10 newIndex = 1.
Proof.
  intros previousIndices.
  assert (Hr : nonEmptyRange (mkRange 10 15)) by (vm_compute; intuition discriminate).
  assert (Hs : Z.of_nat (size previousIndices) < hi (mkRange 10 15) - lo (mkRange 10 15))
    by (vm_compute; reflexivity).
  assert (Hf : (Z.to_nat (hi (mkRange 10 15) - lo (mkRange 10 15)) + 1 <= 64)%nat)
    by (vm_compute; lia).
  destruct (C9_randomIndex_returns_the_drawn_unused_index tapeSource 64%nat
              (mkRange 10 15) previousIndices [1] Hr Hs Hf)
    as (_ & _ & (idx & Hidx & _ & _ & Hnth & _) & _).
  split; [vm_compute; reflexivity|]. split; [vm_compute; reflexivity|].
  exists idx. split; [exact Hidx|].
  assert (Hv : idx = 12).
  { assert (Hc : randomIndex tapeSource 64 (mkRange 10 15) previousIndices [1] =
                 Ok (12, {[12]} ∪ previousIndices, []))
      by (vm_compute; reflexivity).
    rewrite Hc in Hidx. injection Hidx as Hi _. symmetry. exact Hi. }
  split; [exact Hv|]. rewrite Hv. vm_compute. reflexivity.
Defined.

(** ** No underflow of the remaining count inside [compressBlock] *)

(** C10: before each of the at most [iterationLimit] calls of [randomIndex]
    in [compressBlock] -- that is, in the state of the loop after [k] trials,
    [k < iterationLimit] -- exactly [k] rows are used. The remaining count
    [rows - k] is computed without wrap-around and is at least 1, and the call
    returns a row of the block (given one step of the scan for each row of
    the block, and one more). *)
Theorem C10_remaining_count_never_underflows accessor frobeniusNorm RS fuel
    cfg node (g : rs_state RS) (k : nat) (st : AcaState RS) :
  nonEmptyRange (rowClusterRange node) ->
  (k < Z.to_nat (iterationLimit cfg node))%nat ->
  afterTrials accessor frobeniusNorm RS fuel cfg node k
              (initialState cfg node g) st ->
  (Z.to_nat (numberOfRows node) + 1 <= fuel)%nat ->
  size (previousRowIndices st) = k /\
  numberOfPossibleIndices (rowClusterRange node) (previousRowIndices st)
    = numberOfRows node - Z.of_nat k /\
  1 <= numberOfPossibleIndices (rowClusterRange node) (previousRowIndices st)
    <= numberOfRows node /\
  (forall n,
     acaLoop accessor frobeniusNorm RS fuel cfg node (k + n)
             (initialState cfg node g) =
     acaLoop accessor frobeniusNorm RS fuel cfg node n st) /\
  exists row g',
    randomIndex RS fuel (rowClusterRange node) (previousRowIndices st)
                (generator st) = Ok (row, {[row]} ∪ previousRowIndices st, g') /\
    lo (rowClusterRange node) <= row < hi (rowClusterRange node) /\
    (row ∉ previousRowIndices st).
Proof.
  intros Hr Hk Hafter Hfuel.
  pose proof (numberOfRows_exact node Hr) as HR.
  pose proof (afterTrials_previous _ _ _ _ _ _ _ _ _ Hafter) as [_ Hsize].
  change (previousRowIndices (initialState cfg node g)) with (∅ : gset Z) in Hsize.
  rewrite size_empty in Hsize. simpl in Hsize.
  assert (Hlim : iterationLimit cfg node <= numberOfRows node)
    by (unfold iterationLimit; lia).
  assert (Hsz : Z.of_nat (size (previousRowIndices st)) <
                hi (rowClusterRange node) - lo (rowClusterRange node)) by lia.
  destruct (randomIndex_spec RS fuel _ _ (generator st) Hr Hsz)
    as (Hrem & _ & Hin & Hterm).
  split; [exact Hsize|]. split; [lia|]. split; [lia|]. split.
  - exact (acaLoop_afterTrials _ _ _ _ _ _ _ _ _ Hafter).
  - destruct Hterm as [row Hrow]; [lia|].
    destruct (Hin _ _ _ Hrow) as (_ & _ & Hrange & Hfresh & _).
    eauto.
Qed.

Lemma C10_remaining_count_never_underflows_witness :
  exists st : AcaState tapeSource,
    afterTrials Blocks.zeroBlock frobeniusNormOfData tapeSource 64
                (Blocks.config 5 2) (Blocks.admissibleNode 0 2 0 2) 1
                (@initialState tapeSource (Blocks.config 5 2)
                               (Blocks.admissibleNode 0 2 0 2) [7; 7]) st /\
    size (previousRowIndices st) = 1%nat /\
    numberOfPossibleIndices (mkRange 0 2) (previousRowIndices st) = 2 - 1 /\
    exists row g',
      randomIndex tapeSource 64 (mkRange 0 2) (previousRowIndices st)
                  (generator st) = Ok (row, {[row]} ∪ previousRowIndices st, g') /\
      0 <= row < 2.
Proof.
  assert (Hr : nonEmptyRange (mkRange 0 2)) by (vm_compute; intuition discriminate).
  eexists. split.
  - eapply afterTrials_S; [apply afterTrials_O|]. vm_compute. reflexivity.
  - match goal with
    | |- context [previousRowIndices ?s] =>
        destruct (C10_remaining_count_never_underflows Blocks.zeroBlock
                    frobeniusNormOfData tapeSource 64%nat (Blocks.config 5 2)
                    (Blocks.admissibleNode 0 2 0 2) [7; 7] 1%nat s Hr)
          as (H1 & H2 & _ & _ & row & g' & H3 & H4 & _)
    end.
    + vm_compute. lia.
    + eapply afterTrials_S; [apply afterTrials_O|]. vm_compute. reflexivity.
    + vm_compute. lia.
    + split; [exact H1|]. split; [exact H2|]. exists row, g'.
      split; [exact H3|exact H4].
Defined.

(** ** The generator *)

Lemma sameDraws_weaken RS :
  forall n g1 g2, sameDraws RS (S n) g1 g2 -> sameDraws RS n g1 g2.
Proof.
  induction n as [|n IH]; intros g1 g2 H; [exact I|].
  intros bound. destruct (H bound) as [Hd Hn]. split; [exact Hd|].
  apply IH. exact Hn.
Qed.

Section SameDraws.

Variable accessor : Z -> Z -> float.
Variable frobeniusNorm : HMatrixData -> float.
Variable RS : RandomSource.
Variable fuel : nat.
Variable cfg : Config.
Variable node : BlockClusterTreeNode.

Lemma acaTrial_sim (n : nat) (st1 st2 : AcaState RS) :
  sameButGenerator st1 st2 ->
  sameDraws RS (S n) (generator st1) (generator st2) ->
  match acaTrial accessor frobeniusNorm RS fuel cfg node st1,
        acaTrial accessor frobeniusNorm RS fuel cfg node st2 with
  | Ok t1, Ok t2 => trialSim n t1 t2
  | Fail f1, Fail f2 => f1 = f2
  | _, _ => False
  end.
Proof.
  destruct st1 as [A1 B1 p1 r1 g1 s1], st2 as [A2 B2 p2 r2 g2 s2].
  unfold sameButGenerator. simpl. intros (-> & -> & -> & -> & ->) Hd.
  unfold acaTrial, randomIndex. simpl.
  destruct (Hd (SizeT.sub (numberOfPossibleIndices (rowClusterRange node) p2) 1))
    as [Hsnd Hnext].
  destruct (rs_uniform RS g1 _) as [g1' i1], (rs_uniform RS g2 _) as [g2' i2].
  simpl in Hsnd, Hnext. subst i2.
  destruct (scan fuel p2 i1 (lo (rowClusterRange node)) 0) as [row|];
    [|reflexivity].
  unfold_bind. simpl.
  destruct (evaluateMatMinusLowRank _ _ _ _ _ _) as [newRow|]; [|reflexivity].
  destruct (maxCoeff _) as [[[val r] c]|]; [|reflexivity].
  destruct (PrimFloat.ltb val Dbl.floor_1em12).
  { simpl. repeat split; assumption. }
  destruct (at_ newRow 0 c) as [pivot|]; [|reflexivity].
  destruct (numeric_cast_size_t _) as [cc|].
  2:{ simpl. repeat split; assumption. }
  destruct (evaluateMatMinusLowRank _ _ _ (mkRange cc _) _ _) as [newCol|];
    [|reflexivity].
  destruct (growIfFull _ _ _ _) as [A0 B0].
  destruct (setCol A0 _ _) as [A|]; [|reflexivity].
  destruct (setRow B0 _ _) as [B|]; [|reflexivity].
  destruct (negligible _ _ _ _); simpl; repeat split; assumption.
Qed.

Lemma acaLoop_sim :
  forall (n : nat) (st1 st2 : AcaState RS),
    sameButGenerator st1 st2 ->
    sameDraws RS n (generator st1) (generator st2) ->
    match acaLoop accessor frobeniusNorm RS fuel cfg node n st1,
          acaLoop accessor frobeniusNorm RS fuel cfg node n st2 with
    | Ok (e1, s1), Ok (e2, s2) => e1 = e2 /\ sameButGenerator s1 s2
    | Fail f1, Fail f2 => f1 = f2
    | _, _ => False
    end.
Proof.
  induction n as [|n IH]; intros st1 st2 Hs Hd; [simpl; auto|].
  simpl. unfold_bind.
  pose proof (acaTrial_sim n st1 st2 Hs Hd) as HT.
  destruct (acaTrial _ _ _ _ _ _ st1) as [t1|f1],
           (acaTrial _ _ _ _ _ _ st2) as [t2|f2]; try contradiction;
    [|exact HT].
  destruct t1 as [a|a|e a], t2 as [b|b|e' b]; simpl in HT; try contradiction.
  - destruct HT as [Hs' Hd']. apply IH; assumption.
  - destruct HT as [Hs' _]. auto.
  - destruct HT as (-> & Hs' & _). auto.
Qed.

(** Each trial of the loop draws once from the generator it was handed. *)
Lemma acaLoop_generator :
  forall (n : nat) (st st' : AcaState RS) (e : option Exception),
    size (previousRowIndices st) = length (sampled st) ->
    acaLoop accessor frobeniusNorm RS fuel cfg node n st = Ok (e, st') ->
    exists m,
      length (sampled st') = (length (sampled st) + m)%nat /\
      generator st' =
        advance RS (rowClusterRange node) (length (sampled st)) m (generator st).
Proof.
  induction n as [|n IH]; intros st st' e Hsz H.
  - simpl in H. injection H as <- <-. exists O. split; [lia|reflexivity].
  - simpl in H. unfold_bind.
    destruct (acaTrial _ _ _ _ _ _ st) as [t|] eqn:ET; [|discriminate].
    apply acaTrial_previous in ET as (row & Hn & Hp & Hsm & Hg).
    assert (Hsz' : size (previousRowIndices (stateOf t)) =
                   length (sampled (stateOf t))).
    { rewrite Hp, Hsm. simpl.
      rewrite size_union by (apply disjoint_singleton_l; exact Hn).
      rewrite size_singleton. lia. }
    assert (Hone : generator (stateOf t) =
                   advance RS (rowClusterRange node) (length (sampled st)) 1
                           (generator st)).
    { rewrite Hg. unfold numberOfPossibleIndices. rewrite Hsz. reflexivity. }
    destruct t as [st1|st1|ex st1]; simpl in *.
    + apply IH in H as (m & Hm & Hgm); [|assumption].
      exists (S m). rewrite Hm, Hsm. split; [simpl; lia|].
      rewrite Hgm, Hone, Hsm. reflexivity.
    + injection H as <- <-. exists 1%nat. rewrite Hsm. split; [simpl; lia|].
      exact Hone.
    + injection H as <- <-. exists 1%nat. rewrite Hsm. split; [simpl; lia|].
      exact Hone.
Qed.

End SameDraws.

(** C4 as amended: the generator is not local to a call. [compressBlock]
    takes the state of the one static generator as it finds it and leaves it
    advanced by one draw for every row it sampled. What a run computes is
    decided by the draws it receives: two runs on the same node whose
    generators deliver the same draws throw or return alike, with the same
    sequence of pivot rows and the same block data. *)
Theorem C4_draws_decide_the_run accessor frobeniusNorm RS fuel cfg node
    (g1 g2 : rs_state RS) :
  sameDraws RS (Z.to_nat (iterationLimit cfg node)) g1 g2 ->
  observable (compressBlock accessor frobeniusNorm RS fuel cfg node g1) =
  observable (compressBlock accessor frobeniusNorm RS fuel cfg node g2) /\
  (forall o,
     compressBlock accessor frobeniusNorm RS fuel cfg node g1 = Ok o ->
     generatorAfter o =
       advance RS (rowClusterRange node) 0 (length (pivotRows o)) g1).
Proof.
  intros Hd. split.
  - unfold compressBlock. destruct (negb (admissible node)); [reflexivity|].
    unfold_bind.
    destruct (zeros _ _) as [A|]; [|reflexivity].
    destruct (zeros (m_resizeThreshold cfg) _) as [B|]; [|reflexivity].
    pose proof (acaLoop_sim accessor frobeniusNorm RS fuel cfg node
                  (Z.to_nat (iterationLimit cfg node))
                  (mkAcaState A B ∅ 0 g1 []) (mkAcaState A B ∅ 0 g2 [])
                  ltac:(repeat split) Hd) as HL.
    destruct (acaLoop _ _ _ _ _ _ _ (mkAcaState A B ∅ 0 g1 [])) as [[e1 s1]|f1],
             (acaLoop _ _ _ _ _ _ _ (mkAcaState A B ∅ 0 g2 [])) as [[e2 s2]|f2];
      try contradiction; [|subst; reflexivity].
    destruct HL as (-> & HA & HB & _ & Hr & Hs).
    rewrite HA, HB, Hr, Hs.
    destruct e2 as [ex|]; [reflexivity|].
    destruct (truncate _ _ _) as [[A' B']|]; reflexivity.
  - intros o. unfold compressBlock.
    destruct (negb (admissible node)).
    { intros H. injection H as <-. reflexivity. }
    unfold_bind.
    destruct (zeros _ _) as [A|]; [|discriminate].
    destruct (zeros (m_resizeThreshold cfg) _) as [B|]; [|discriminate].
    destruct (acaLoop _ _ _ _ _ _ _ _) as [[e st]|] eqn:EL; [|discriminate].
    apply acaLoop_generator in EL as (m & Hm & Hg); [|apply size_empty].
    simpl in Hm, Hg.
    destruct e as [ex|].
    + intros H. injection H as <-. simpl. rewrite length_rev, Hm. exact Hg.
    + destruct (truncate _ _ _) as [[A' B']|]; [|discriminate].
      intros H. injection H as <-. simpl. rewrite length_rev, Hm. exact Hg.
Qed.

Lemma C4_draws_decide_the_run_witness :
  observable (runOn Blocks.zeroThenFive (Blocks.config 5 1)
                    (Blocks.admissibleNode 0 2 0 1) [1; 4]) =
  observable (runOn Blocks.zeroThenFive (Blocks.config 5 1)
                    (Blocks.admissibleNode 0 2 0 1) [1; 8; 9]) /\
  (forall o,
     runOn Blocks.zeroThenFive (Blocks.config 5 1)
           (Blocks.admissibleNode 0 2 0 1) [1; 4] = Ok o ->
     generatorAfter o =
       advance tapeSource (mkRange 0 2) 0 (length (pivotRows o)) [1; 4]).
Proof.
  apply (C4_draws_decide_the_run Blocks.zeroThenFive frobeniusNormOfData
           tapeSource 64%nat (Blocks.config 5 1) (Blocks.admissibleNode 0 2 0 1)
           [1; 4] [1; 8; 9]).
  vm_compute. intros bound. split; [reflexivity|exact I].
Defined.

(** C4 as stated fails: the generator is shared by the calls. Two runs of
    [compressBlock] on the same node, the second taking the generator as the
    first left it, sample different rows (row 0, which is zero, then row 1)
    and leave different factor pairs (of rank 0, then of rank 1); and the
    first run has changed the generator. *)
Lemma C4_shared_generator_counterexample :
  exists o1 o2 A1 B1 A2 B2,
    runOn Blocks.zeroThenFive (Blocks.config 5 1)
          (Blocks.admissibleNode 0 2 0 1) [0; 1] = Ok o1 /\
    runOn Blocks.zeroThenFive (Blocks.config 5 1)
          (Blocks.admissibleNode 0 2 0 1) (generatorAfter o1) = Ok o2 /\
    generatorAfter o1 = [1] /\
    pivotRows o1 = [0] /\ pivotRows o2 = [1] /\
    hMatrixData o1 = HMatrixLowRankData A1 B1 /\
    hMatrixData o2 = HMatrixLowRankData A2 B2 /\
    cols A1 = 0 /\ cols A2 = 1 /\
    hMatrixData o1 <> hMatrixData o2.
Proof.
  eexists _, _, _, _, _, _.
  split; [vm_compute; reflexivity|].
  split; [vm_compute; reflexivity|].
  split; [reflexivity|]. split; [reflexivity|]. split; [reflexivity|].
  split; [reflexivity|]. split; [reflexivity|].
  split; [reflexivity|]. split; [reflexivity|].
  simpl. intros H. injection H. intros. discriminate.
Qed.

(** * Further properties of the compressor *)

(** ** The residual evaluator, when it returns *)

(** X1: a matrix that [evaluateMatMinusLowRank] returns for a factor pair has
    the shape of the requested sub-range and is the accessor's block minus
    the product of [A] on the local rows and [B] on the local columns; and it
    returns only when the width of the requested column range is the number
    of rows of [B]. *)
Theorem X1_evaluator_result_is_the_residual accessor node
    (rowIndexRange columnIndexRange : IndexRange) (A B R : Matrix) :
  cols A = rows B ->
  evaluateMatMinusLowRank accessor node rowIndexRange columnIndexRange A B
    = Ok R ->
  residualSpec accessor node rowIndexRange columnIndexRange A B = Ok R /\
  rows R = SizeT.to_index (SizeT.sub (hi rowIndexRange) (lo rowIndexRange)) /\
  cols R = SizeT.to_index (SizeT.sub (hi columnIndexRange) (lo columnIndexRange)) /\
  cols R = rows B.
Proof.
  intros HAB H.
  pose proof (evaluate_ok_width _ _ _ _ _ _ _ H) as (_ & _ & Hr & Hc & Hw).
  split; [apply evaluate_ok_is_residual; assumption|].
  split; [exact Hr|]. split; [exact Hc|exact Hw].
Qed.

Lemma X1_evaluator_result_is_the_residual_witness :
  exists R,
    residualSpec Blocks.zeroThenFive (Blocks.admissibleNode 0 2 0 1)
      (mkRange 1 2) (mkRange 0 1) (Blocks.zeroMatrix 2 1) (Blocks.zeroMatrix 1 1)
      = Ok R /\
    rows R = 1 /\ cols R = 1 /\ cols R = 1 /\
    to_rows R = [[5%float]].
Proof.
  assert (E : exists R,
    evaluateMatMinusLowRank Blocks.zeroThenFive (Blocks.admissibleNode 0 2 0 1)
      (mkRange 1 2) (mkRange 0 1) (Blocks.zeroMatrix 2 1) (Blocks.zeroMatrix 1 1)
      = Ok R /\ to_rows R = [[5%float]])
    by (eexists; split; vm_compute; reflexivity).
  destruct E as (R & E & Hv).
  destruct (X1_evaluator_result_is_the_residual Blocks.zeroThenFive
              (Blocks.admissibleNode 0 2 0 1) (mkRange 1 2) (mkRange 0 1)
              (Blocks.zeroMatrix 2 1) (Blocks.zeroMatrix 1 1) R eq_refl E)
    as (H1 & H2 & H3 & H4).
  exists R. repeat split; assumption.
Defined.

(** ** The factors along the loop *)

Lemma growIfFull_coeff cfg (A B A0 B0 : Matrix) (rank : Z) :
  growIfFull cfg A B rank = (A0, B0) ->
  (forall i j, j < cols A -> coeff A0 i j = coeff A i j) /\
  (forall i j, j < rows B -> coeff B0 j i = coeff B j i) /\
  (forall i j, cols A <= j -> coeff A0 i j = Dbl.zero \/ coeff A0 i j = coeff A i j) /\
  (forall i j, rows B <= j -> coeff B0 j i = Dbl.zero \/ coeff B0 j i = coeff B j i).
Proof.
  unfold growIfFull. destruct (_ =? _); intros H; injection H as <- <-; simpl.
  - repeat split; intros i j Hj.
    + destruct (Z.ltb_spec j (cols A)); [reflexivity|lia].
    + destruct (Z.ltb_spec j (rows B)); [reflexivity|lia].
    + destruct (Z.ltb_spec j (cols A)); [lia|auto].
    + destruct (Z.ltb_spec j (rows B)); [lia|auto].
  - repeat split; auto.
Qed.

Section Factors.

Variable accessor : Z -> Z -> float.
Variable frobeniusNorm : HMatrixData -> float.
Variable RS : RandomSource.
Variable fuel : nat.
Variable cfg : Config.
Variable node : BlockClusterTreeNode.

Hypothesis cfg_ok : validConfig cfg.

(** A trial leaves the stored terms where they are, and the padding zero. *)
Lemma acaTrial_factors (st : AcaState RS) (t : Trial RS) :
  LoopInv cfg node st ->
  Z.of_nat (length (sampled st)) <= SizeT.uint_max ->
  acaTrial accessor frobeniusNorm RS fuel cfg node st = Ok t ->
  keepsTerms st (stateOf t) /\ (zeroPadded st -> zeroPadded (stateOf t)).
Proof.
  intros Inv Hlen H. apply acaTrial_cases in H.
  destruct cfg_ok as [Hmax Hthr]. rewrite uint_max_value in *.
  pose proof modulus_value as Hmod.
  destruct Inv as [I1 I2 I3 I4 I5 I6 I7 I8].
  destruct H as [row prev' g' newRow val r c ER EN EM EL
                |row prev' g' newRow val r c pivot ER EN EM EL EP EC
                |row prev' g' newRow val r c pivot cc newCol A0 B0 A B
                   ER EN EM EL EP EC ECol EG EA EB].
  - unfold keepsTerms, zeroPadded. simpl. split; [split; [lia|auto]|auto].
  - unfold keepsTerms, zeroPadded. simpl. split; [split; [lia|auto]|auto].
  - apply growIfFull_coeff in EG as (GA & GB & GA0 & GB0).
    apply setCol_ok in EA as (_ & _ & A3 & EA).
    apply setRow_ok in EB as (_ & _ & B3 & EB).
    rewrite to_index_small in EA, EB by lia.
    assert (Hadd : SizeT.add (rankCount st) 1 = rankCount st + 1).
    { unfold SizeT.add. apply wrap_small. lia. }
    assert (Hkeep : keepsTerms st (mkAcaState A B prev' (rankCount st + 1) g'
                                              (row :: sampled st))).
    { split; simpl; [lia|]. intros i j Hj. rewrite EA, EB.
      destruct (Z.eqb_spec j (rankCount st)); [lia|].
      split; [apply GA; lia|apply GB; lia]. }
    assert (Hpad : zeroPadded st ->
                   zeroPadded (mkAcaState A B prev' (rankCount st + 1) g'
                                          (row :: sampled st))).
    { intros Hz i j Hj. simpl in Hj |- *. rewrite EA, EB.
      destruct (Z.eqb_spec j (rankCount st)); [lia|].
      destruct (Hz i j ltac:(lia)) as [HzA HzB].
      split.
      - destruct (Z_lt_le_dec j (cols (st_A st))) as [Hlt|Hge].
        + rewrite GA by assumption. exact HzA.
        + destruct (GA0 i j Hge) as [->| ->]; [reflexivity|exact HzA].
      - destruct (Z_lt_le_dec j (rows (st_B st))) as [Hlt|Hge].
        + rewrite GB by assumption. exact HzB.
        + destruct (GB0 i j Hge) as [->| ->]; [reflexivity|exact HzB]. }
    cbv zeta. destruct (negligible _ _ _ _); simpl; rewrite Hadd; auto.
Qed.

Lemma keepsTerms_trans (st1 st2 st3 : AcaState RS) :
  keepsTerms st1 st2 -> keepsTerms st2 st3 -> keepsTerms st1 st3.
Proof.
  intros [H1 H2] [H3 H4]. split; [lia|]. intros i j Hj.
  destruct (H2 i j Hj) as [Ha Hb].
  destruct (H4 i j ltac:(lia)) as [Hc Hd].
  split; congruence.
Qed.

Lemma acaLoop_factors :
  forall (n : nat) (st st' : AcaState RS) (e : option Exception),
    LoopInv cfg node st ->
    Z.of_nat (length (sampled st)) + Z.of_nat n <= SizeT.uint_max ->
    acaLoop accessor frobeniusNorm RS fuel cfg node n st = Ok (e, st') ->
    keepsTerms st st' /\ (zeroPadded st -> zeroPadded st').
Proof.
  induction n as [|n IH]; intros st st' e Inv Hlen H.
  - simpl in H. injection H as <- <-. unfold keepsTerms.
    split; [split; [lia|auto]|auto].
  - simpl in H. unfold_bind.
    destruct (acaTrial _ _ _ _ _ _ st) as [t|] eqn:ET; [|discriminate].
    pose proof (acaTrial_factors st t Inv ltac:(lia) ET) as [Hk Hz].
    apply acaTrial_preserves in ET as (Inv' & Hl & _);
      [|assumption|assumption|lia].
    destruct t as [st1|st1|ex st1]; simpl in *.
    + apply IH in H as [Hk' Hz']; [|assumption|lia].
      split; [eapply keepsTerms_trans; eassumption|auto].
    + injection H as <- <-. auto.
    + injection H as <- <-. auto.
Qed.


End Factors.

(** X2: the unused slots of the factors are exactly zero in every state of
    the loop of [compressBlock], and in the state the loop ends in: every
    column of [A] and every row of [B] from [rankCount] on holds [+0.0]
    only (the buffers are zeroed when they are allocated and when they grow,
    and a term is stored at [rankCount] only). *)
Theorem X2_unused_slots_stay_zero accessor frobeniusNorm RS fuel cfg node
    (g : rs_state RS) (n : nat) (e : option Exception) (st : AcaState RS) :
  validConfig cfg ->
  Z.of_nat n <= SizeT.uint_max ->
  acaLoop accessor frobeniusNorm RS fuel cfg node n (initialState cfg node g)
    = Ok (e, st) ->
  forall i j, rankCount st <= j ->
    coeff (st_A st) i j = Dbl.zero /\ coeff (st_B st) j i = Dbl.zero.
Proof.
  intros Hcfg Hn H.
  pose proof Hcfg as [_ Hthr].
  destruct (acaLoop_factors accessor frobeniusNorm RS fuel cfg node Hcfg
              n _ _ _ (initialState_inv cfg node g ltac:(lia))
              ltac:(simpl; lia) H) as [_ Hz].
  apply Hz. intros i j _. split; reflexivity.
Qed.

Lemma X2_unused_slots_stay_zero_witness :
  exists st : AcaState tapeSource,
    acaLoop Blocks.zeroThenFive frobeniusNormOfData tapeSource 64
            (Blocks.config 5 1) (Blocks.admissibleNode 0 2 0 1) 1
            (@initialState tapeSource (Blocks.config 5 1)
                           (Blocks.admissibleNode 0 2 0 1) [1])
      = Ok (None, st) /\
    rankCount st = 1 /\
    to_rows (st_A st) = [[0%float]; [5%float]] /\
    forall i j, 1 <= j ->
      coeff (st_A st) i j = Dbl.zero /\ coeff (st_B st) j i = Dbl.zero.
Proof.
  assert (Hcfg : validConfig (Blocks.config 5 1))
    by (vm_compute; intuition discriminate).
  eexists. split; [vm_compute; reflexivity|].
  split; [reflexivity|]. split; [reflexivity|].
  match goal with
  | |- context [st_A ?s] =>
      exact (X2_unused_slots_stay_zero Blocks.zeroThenFive frobeniusNormOfData
               tapeSource 64%nat (Blocks.config 5 1)
               (Blocks.admissibleNode 0 2 0 1) [1] 1%nat None s Hcfg
               ltac:(vm_compute; discriminate) ltac:(vm_compute; reflexivity))
  end.
Defined.



(** ** The rows a call samples *)

Section Samples.

Variable accessor : Z -> Z -> float.
Variable frobeniusNorm : HMatrixData -> float.
Variable RS : RandomSource.
Variable fuel : nat.
Variable cfg : Config.
Variable node : BlockClusterTreeNode.

Hypothesis rows_ok : nonEmptyRange (rowClusterRange node).

Lemma acaTrial_row (st : AcaState RS) (t : Trial RS) :
  acaTrial accessor frobeniusNorm RS fuel cfg node st = Ok t ->
  exists row previous' g',
    randomIndex RS fuel (rowClusterRange node) (previousRowIndices st)
                (generator st) = Ok (row, previous', g') /\
    sampled (stateOf t) = row :: sampled st /\
    previousRowIndices (stateOf t) = previous'.
Proof.
  intros H. apply acaTrial_cases in H.
  destruct H as [row prev' g' newRow val r c ER EN EM EL
                |row prev' g' newRow val r c pivot ER EN EM EL EP EC
                |row prev' g' newRow val r c pivot cc newCol A0 B0 A B
                   ER EN EM EL EP EC ECol EG EA EB];
    exists row, prev', g';
    try (cbv zeta; destruct (negligible _ _ _ _)); simpl; auto.
Qed.

Lemma acaTrial_samples (st : AcaState RS) (t : Trial RS) :
  distinctSamples (rowClusterRange node) st ->
  Z.of_nat (length (sampled st)) <
    hi (rowClusterRange node) - lo (rowClusterRange node) ->
  acaTrial accessor frobeniusNorm RS fuel cfg node st = Ok t ->
  distinctSamples (rowClusterRange node) (stateOf t) /\
  length (sampled (stateOf t)) = S (length (sampled st)).
Proof.
  intros (Hnd & Hset & Hin) Hlen H.
  apply acaTrial_row in H as (row & prev' & g' & ER & Hs & Hp).
  assert (Hsz : size (previousRowIndices st) = length (sampled st)).
  { rewrite Hset. apply size_list_to_set. exact Hnd. }
  pose proof (randomIndex_spec RS fuel _ _ (generator st) rows_ok
                ltac:(rewrite Hsz; exact Hlen)) as (_ & _ & Hspec & _).
  apply Hspec in ER as (_ & Hp' & Hrange & Hfresh & _).
  split; [|rewrite Hs; reflexivity].
  split; [|split].
  - rewrite Hs. constructor; [|exact Hnd].
    intros Hrow. apply Hfresh. rewrite Hset.
    apply elem_of_list_to_set. exact Hrow.
  - rewrite Hp, Hp', Hs, Hset. reflexivity.
  - intros r Hr. rewrite Hs in Hr. apply elem_of_cons in Hr as [->|Hr];
      [exact Hrange|apply Hin; exact Hr].
Qed.

Lemma acaLoop_samples :
  forall (n : nat) (st st' : AcaState RS) (e : option Exception),
    distinctSamples (rowClusterRange node) st ->
    Z.of_nat (length (sampled st)) + Z.of_nat n <=
      hi (rowClusterRange node) - lo (rowClusterRange node) ->
    acaLoop accessor frobeniusNorm RS fuel cfg node n st = Ok (e, st') ->
    distinctSamples (rowClusterRange node) st'.
Proof.
  induction n as [|n IH]; intros st st' e Hd Hlen H.
  - simpl in H. injection H as <- <-. exact Hd.
  - simpl in H. unfold_bind.
    destruct (acaTrial _ _ _ _ _ _ st) as [t|] eqn:ET; [|discriminate].
    apply acaTrial_samples in ET as [Hd' Hl]; [|assumption|lia].
    destruct t as [st1|st1|ex st1]; simpl in *.
    + eapply IH; [exact Hd'| |exact H]. lia.
    + injection H as <- <-. exact Hd'.
    + injection H as <- <-. exact Hd'.
Qed.

End Samples.

(** X4: one call of [compressBlock] never samples a row twice, and every
    row it samples is a row of the block: the pivot rows of a run that is not
    aborted are pairwise different and lie in the row range of the node. *)
Theorem X4_pivot_rows_are_distinct_rows_of_the_block accessor frobeniusNorm
    RS fuel cfg node (g : rs_state RS) (o : Outcome RS) :
  nonEmptyRange (rowClusterRange node) ->
  compressBlock accessor frobeniusNorm RS fuel cfg node g = Ok o ->
  NoDup (pivotRows o) /\
  forall r, In r (pivotRows o) ->
            lo (rowClusterRange node) <= r < hi (rowClusterRange node).
Proof.
  intros Hr. pose proof (numberOfRows_exact node Hr) as HR.
  unfold compressBlock.
  destruct (negb (admissible node)).
  { intros H. injection H as <-. simpl. split; [constructor|intros r []]. }
  unfold_bind.
  destruct (zeros _ _) as [A|]; [|discriminate].
  destruct (zeros (m_resizeThreshold cfg) _) as [B|]; [|discriminate].
  destruct (acaLoop _ _ _ _ _ _ _ _) as [[e st]|] eqn:EL; [|discriminate].
  assert (Hd : distinctSamples (rowClusterRange node) st).
  { eapply (acaLoop_samples accessor frobeniusNorm RS fuel cfg node Hr);
      [| |exact EL].
    - split; [constructor|]. split; [reflexivity|].
      simpl. intros r Hin. apply elem_of_nil in Hin. contradiction.
    - cbn [sampled length Z.of_nat]. unfold iterationLimit.
      destruct Hr as (? & ? & ?). lia. }
  destruct Hd as (Hnd & _ & Hin).
  assert (Hgoal : NoDup (rev (sampled st)) /\
                  forall r, In r (rev (sampled st)) ->
                    lo (rowClusterRange node) <= r < hi (rowClusterRange node)).
  { split; [rewrite <- Permutation_rev; exact Hnd|].
    intros r Hrin. apply in_rev in Hrin. apply Hin, list_elem_of_In. exact Hrin. }
  destruct e as [ex|].
  - intros H. injection H as <-. exact Hgoal.
  - destruct (truncate _ _ _) as [[A' B']|]; [|discriminate].
    intros H. injection H as <-. exact Hgoal.
Qed.

Lemma X4_pivot_rows_are_distinct_rows_of_the_block_witness :
  exists o,
    runOn Blocks.zeroBlock (Blocks.config 5 2)
          (Blocks.admissibleNode 0 2 0 2) [7; 7] = Ok o /\
    pivotRows o = [1; 0] /\
    NoDup (pivotRows o) /\
    forall r, In r (pivotRows o) -> 0 <= r < 2.
Proof.
  destruct (runOn Blocks.zeroBlock (Blocks.config 5 2)
              (Blocks.admissibleNode 0 2 0 2) [7; 7]) as [o|f] eqn:E;
    [|vm_compute in E; discriminate].
  assert (Hp : pivotRows o = [1; 0]).
  { change (pivotRows o) with
      (match Ok o with Ok o' => pivotRows o' | Fail _ => [] end).
    rewrite <- E. vm_compute. reflexivity. }
  assert (Hr : nonEmptyRange (mkRange 0 2)) by (vm_compute; intuition discriminate).
  exists o. split; [reflexivity|]. split; [exact Hp|].
  exact (X4_pivot_rows_are_distinct_rows_of_the_block Blocks.zeroBlock
           frobeniusNormOfData tapeSource 64%nat (Blocks.config 5 2)
           (Blocks.admissibleNode 0 2 0 2) [7; 7] o Hr E).
Defined.

(** ** [randomIndex] on a range that is used up *)

(** X5: when every index of the range is in the set of used indices,
    [randomIndex] does not report it. The remaining count is 0, so the
    distribution is asked for an ordinal between 0 and [2^64 - 1], and an
    index the scan then returns is not an index of the range. *)
Theorem X5_used_up_range_yields_an_index_outside RS fuel
    (range : IndexRange) (previousIndices : gset Z) (g : rs_state RS) :
  nonEmptyRange range ->
  (forall i, i ∈ previousIndices <-> lo range <= i < hi range) ->
  numberOfPossibleIndices range previousIndices = 0 /\
  SizeT.sub (numberOfPossibleIndices range previousIndices) 1
    = SizeT.modulus - 1 /\
  forall newIndex previous' g',
    randomIndex RS fuel range previousIndices g = Ok (newIndex, previous', g') ->
    ~ (lo range <= newIndex < hi range).
Proof.
  intros (H0 & H1 & H2) Hall. pose proof modulus_value as Hmod.
  assert (Hset : previousIndices = list_to_set (seqZ (lo range) (hi range - lo range))).
  { apply set_eq. intros i.
    rewrite elem_of_list_to_set, elem_of_seqZ, Hall. lia. }
  assert (Hsz : Z.of_nat (size previousIndices) = hi range - lo range).
  { rewrite Hset, size_list_to_set by apply NoDup_seqZ.
    rewrite length_seqZ. lia. }
  assert (Hzero : numberOfPossibleIndices range previousIndices = 0).
  { unfold numberOfPossibleIndices, SizeT.sub. rewrite Hsz.
    rewrite (wrap_small (hi range - lo range)) by lia.
    rewrite Z.sub_diag. reflexivity. }
  split; [exact Hzero|]. split; [rewrite Hzero; reflexivity|].
  intros idx prev' g' H Hin.
  apply randomIndex_fresh in H as (Hn & _). apply Hn, Hall, Hin.
Qed.

Lemma X5_used_up_range_yields_an_index_outside_witness :
  let previousIndices : gset Z := {[0; 1]} in
  numberOfPossibleIndices (mkRange 0 2) previousIndices = 0 /\
  randomIndex tapeSource 64 (mkRange 0 2) previousIndices [0]
    = Ok (2, {[2]} ∪ previousIndices, []) /\
  ~ (0 <= 2 < 2).
Proof.
  intros previousIndices.
  assert (Hr : nonEmptyRange (mkRange 0 2)) by (vm_compute; intuition discriminate).
  assert (Hall : forall i, i ∈ previousIndices <-> lo (mkRange 0 2) <= i < hi (mkRange 0 2)).
  { intros i. unfold previousIndices. simpl.
    rewrite elem_of_union, !elem_of_singleton. lia. }
  destruct (X5_used_up_range_yields_an_index_outside tapeSource 64%nat
              (mkRange 0 2) previousIndices [0] Hr Hall) as (Hz & _ & Hout).
  assert (E : randomIndex tapeSource 64 (mkRange 0 2) previousIndices [0]
              = Ok (2, {[2]} ∪ previousIndices, []))
    by (vm_compute; reflexivity).
  split; [exact Hz|]. split; [exact E|]. exact (Hout _ _ _ E).
Defined.

(** ** No trial at all *)

Lemma truncate_no_term (A B : Matrix) :
  0 <= rows A -> 0 <= cols B -> 0 <= cols A < SizeT.modulus ->
  cols A = rows B ->
  exists A' B',
    truncate A B 0 = Ok (A', B') /\
    rows A' = rows A /\ cols A' = 0 /\ rows B' = 0 /\ cols B' = cols B.
Proof.
  intros HrA HcB HcA Hin. unfold truncate, SizeT.sub.
  rewrite (wrap_small (cols A)) by lia. rewrite Z.sub_0_r.
  rewrite (wrap_small (cols A)) by lia.
  destruct (Z.gtb_spec (cols A) 0) as [Hgt|Hle].
  - unfold_bind. change (SizeT.to_index 0) with 0. unfold block.
    replace ((0 <=? 0) && (0 <=? rows A) && (0 <=? rows A - rows A) && (0 <=? 0)
             && (0 <=? 0) && (0 <=? cols A - 0)) with true
      by (symmetry; repeat (apply andb_true_intro; split); apply Z.leb_le; lia).
    replace ((0 <=? 0) && (0 <=? 0) && (0 <=? rows B - 0) && (0 <=? 0)
             && (0 <=? cols B) && (0 <=? cols B - cols B)) with true
      by (symmetry; repeat (apply andb_true_intro; split); apply Z.leb_le; lia).
    eexists _, _. split; [reflexivity|]. simpl. auto.
  - exists A, B. split; [reflexivity|]. repeat split; lia.
Qed.

(** X6: when the iteration limit is 0 -- [maxRank] is 0, or a range of the
    node is empty -- [compressBlock] on an admissible node samples no row and
    leaves the static generator as it found it; the caller's block data is a
    factor pair without any term, [A] with no column and [B] with no row. *)
Theorem X6_no_trial_without_iteration_budget accessor frobeniusNorm RS fuel
    cfg node (g : rs_state RS) :
  validConfig cfg ->
  admissible node = true ->
  iterationLimit cfg node <= 0 ->
  numberOfRows node < 2 ^ 63 ->
  numberOfColumns node < 2 ^ 63 ->
  exists t A B,
    compressBlock accessor frobeniusNorm RS fuel cfg node g
      = Ok (mkOutcome t (HMatrixLowRankData A B) g []) /\
    rows A = numberOfRows node /\ cols A = 0 /\
    rows B = 0 /\ cols B = numberOfColumns node.
Proof.
  intros [Hmax Hthr] Hadm Hlim HR HC.
  rewrite uint_max_value in *. pose proof modulus_value as Hmod.
  assert (HR0 : 0 <= numberOfRows node)
    by (unfold numberOfRows, SizeT.sub, SizeT.wrap;
        apply Z.mod_pos_bound; reflexivity).
  assert (HC0 : 0 <= numberOfColumns node)
    by (unfold numberOfColumns, SizeT.sub, SizeT.wrap;
        apply Z.mod_pos_bound; reflexivity).
  unfold compressBlock. rewrite Hadm. cbn [negb]. unfold_bind.
  rewrite !to_index_small by lia. unfold zeros.
  replace ((0 <=? numberOfRows node) && (0 <=? m_resizeThreshold cfg)) with true
    by (symmetry; apply andb_true_intro; split; apply Z.leb_le; lia).
  replace ((0 <=? m_resizeThreshold cfg) && (0 <=? numberOfColumns node)) with true
    by (symmetry; apply andb_true_intro; split; apply Z.leb_le; lia).
  replace (Z.to_nat (iterationLimit cfg node)) with O by lia.
  cbn [acaLoop st_A st_B rankCount generator sampled rev app].
  destruct (truncate_no_term
              (mkMatrix (numberOfRows node) (m_resizeThreshold cfg)
                        (fun _ _ => Dbl.zero))
              (mkMatrix (m_resizeThreshold cfg) (numberOfColumns node)
                        (fun _ _ => Dbl.zero)))
    as (A & B & ET & H1 & H2 & H3 & H4); simpl; try lia.
  rewrite ET. eexists _, A, B. split; [reflexivity|]. auto.
Qed.

Lemma X6_no_trial_without_iteration_budget_witness :
  exists t A B,
    runOn Blocks.twos (Blocks.config 0 3) (Blocks.admissibleNode 0 2 0 4) [5; 6]
      = Ok (@mkOutcome tapeSource t (HMatrixLowRankData A B) [5; 6] []) /\
    rows A = 2 /\ cols A = 0 /\ rows B = 0 /\ cols B = 4.
Proof.
  apply (X6_no_trial_without_iteration_budget Blocks.twos frobeniusNormOfData
           tapeSource 64%nat (Blocks.config 0 3) (Blocks.admissibleNode 0 2 0 4)
           [5; 6]).
  - vm_compute. intuition discriminate.
  - reflexivity.
  - vm_compute. discriminate.
  - vm_compute. reflexivity.
  - vm_compute. reflexivity.
Defined.

(** * The sparse operator *)

(** ** [asMatrix] *)

Lemma setAt_some (mat mat' : Matrix) (row col : Z) (value : float) :
  Sparse.setAt mat row col value = Some mat' ->
  rows mat' = rows mat /\ cols mat' = cols mat /\
  0 <= row < rows mat /\ 0 <= col < cols mat /\
  coeff mat' = (fun i j => if (i =? row) && (j =? col) then value
                           else coeff mat i j).
Proof.
  unfold Sparse.setAt. intros H.
  destruct (_ && _) eqn:E in H; [|discriminate]. injection H as <-.
  repeat (apply andb_prop in E; destruct E as [E ?]). simpl.
  repeat split; lia.
Qed.

Lemma lastValue_cons (c : Z) (e : Z * float) (entries : list (Z * float))
    (start : float) :
  Sparse.lastValue c (e :: entries) start =
  Sparse.lastValue c entries (if fst e =? c then snd e else start).
Proof. reflexivity. Qed.

Lemma storeEntries_some (row : Z) :
  forall (entries : list (Z * float)) (mat mat' : Matrix),
    Sparse.storeEntries mat row entries = Some mat' ->
    rows mat' = rows mat /\ cols mat' = cols mat /\
    Forall (fun e => 0 <= fst e < cols mat) entries /\
    forall i j, coeff mat' i j =
      if i =? row then Sparse.lastValue j entries (coeff mat i j)
      else coeff mat i j.
Proof.
  intros entries. induction entries as [|[index value] rest IH]; intros mat mat' H.
  - injection H as <-. split; [reflexivity|]. split; [reflexivity|].
    split; [constructor|].
    intros i j. destruct (i =? row); reflexivity.
  - simpl in H. destruct (Sparse.setAt mat row index value) as [m1|] eqn:E1;
      [|discriminate].
    apply setAt_some in E1 as (R1 & C1 & _ & Hc & E1).
    apply IH in H as (R2 & C2 & HF & Hco).
    split; [congruence|]. split; [congruence|]. split.
    + constructor; [exact Hc|]. rewrite C1 in HF. exact HF.
    + intros i j. rewrite Hco, lastValue_cons, E1. simpl.
      destruct (Z.eqb_spec i row) as [->|Hne]; simpl; [|reflexivity].
      rewrite (Z.eqb_sym j index). reflexivity.
Qed.

Lemma storeEntries_total (row : Z) :
  forall (entries : list (Z * float)) (mat : Matrix),
    0 <= row < rows mat ->
    Forall (fun e => 0 <= fst e < cols mat) entries ->
    exists mat', Sparse.storeEntries mat row entries = Some mat'.
Proof.
  intros entries. induction entries as [|[index value] rest IH]; intros mat Hr HF.
  - eexists. reflexivity.
  - inversion HF as [|? ? Hc HF']; subst. simpl in Hc. simpl.
    unfold Sparse.setAt.
    replace ((0 <=? row) && (row <? rows mat) && (0 <=? index)
             && (index <? cols mat)) with true
      by (symmetry; repeat (apply andb_true_intro; split);
          first [apply Z.leb_le|apply Z.ltb_lt]; lia).
    apply IH; simpl; assumption.
Qed.

Lemma asMatrixRows_done (m : Sparse.Epetra_CrsMatrix) :
  forall (rowsLeft : list Z) (mat M : Matrix),
    NoDup rowsLeft ->
    Sparse.asMatrixRows m rowsLeft mat = Sparse.Done M ->
    rows M = rows mat /\ cols M = cols mat /\
    (forall row, row ∈ rowsLeft ->
       fst (Sparse.ExtractMyRowView m row) = 0 /\
       Forall (fun e => 0 <= fst e < cols mat)
              (snd (Sparse.ExtractMyRowView m row))) /\
    forall i j, coeff M i j =
      if bool_decide (i ∈ rowsLeft)
      then Sparse.lastValue j (snd (Sparse.ExtractMyRowView m i)) (coeff mat i j)
      else coeff mat i j.
Proof.
  induction rowsLeft as [|row rest IH]; intros mat M Hnd H.
  - injection H as <-. split; [reflexivity|]. split; [reflexivity|]. split.
    + intros r Hin. apply elem_of_nil in Hin. contradiction.
    + intros i j. rewrite bool_decide_eq_false_2; [reflexivity|].
      apply not_elem_of_nil.
  - simpl in H. apply NoDup_cons in Hnd as [Hnotin Hnd].
    destruct (Sparse.ExtractMyRowView m row) as [errorCode entries] eqn:EV.
    destruct (Z.eqb_spec errorCode 0) as [->|]; [|discriminate].
    destruct (Sparse.storeEntries mat row entries) as [m1|] eqn:ES;
      [|discriminate].
    apply storeEntries_some in ES as (R1 & C1 & HF & Hco).
    apply IH in H as (R2 & C2 & Hview & HM); [|exact Hnd].
    split; [congruence|]. split; [congruence|]. split.
    + intros r Hin. apply elem_of_cons in Hin as [->|Hin].
      * rewrite EV. simpl. auto.
      * rewrite <- C1. apply Hview. exact Hin.
    + intros i j. rewrite HM, Hco.
      destruct (Z.eqb_spec i row) as [->|Hne].
      * rewrite (bool_decide_eq_false_2 _ Hnotin).
        rewrite bool_decide_eq_true_2 by (apply elem_of_cons; auto).
        rewrite EV. reflexivity.
      * destruct (bool_decide_reflect (i ∈ rest)) as [Hin|Hin].
        -- rewrite bool_decide_eq_true_2 by (apply elem_of_cons; auto).
           reflexivity.
        -- rewrite bool_decide_eq_false_2; [reflexivity|].
           intros Hc. apply elem_of_cons in Hc as [?|?]; contradiction.
Qed.

Lemma asMatrixRows_total (m : Sparse.Epetra_CrsMatrix) :
  forall (rowsLeft : list Z) (mat : Matrix),
    (forall row, row ∈ rowsLeft ->
       0 <= row < rows mat /\
       fst (Sparse.ExtractMyRowView m row) = 0 /\
       Forall (fun e => 0 <= fst e < cols mat)
              (snd (Sparse.ExtractMyRowView m row))) ->
    exists M, Sparse.asMatrixRows m rowsLeft mat = Sparse.Done M.
Proof.
  induction rowsLeft as [|row rest IH]; intros mat Hall.
  - eexists. reflexivity.
  - simpl. destruct (Hall row ltac:(apply elem_of_cons; auto)) as (Hr & He & HF).
    destruct (Sparse.ExtractMyRowView m row) as [errorCode entries] eqn:EV.
    simpl in He, HF. subst errorCode. simpl.
    destruct (storeEntries_total row entries mat Hr HF) as [m1 E1].
    rewrite E1.
    apply storeEntries_some in E1 as (R1 & C1 & _ & _).
    apply IH. intros r Hin. rewrite R1, C1. apply Hall.
    apply elem_of_cons. auto.
Qed.

Lemma lastValue_absent (c : Z) (entries : list (Z * float)) (start : float) :
  Forall (fun e => fst e <> c) entries ->
  Sparse.lastValue c entries start = start.
Proof.
  revert start. induction entries as [|e rest IH]; intros start HF;
    [reflexivity|].
  inversion HF as [|? ? Hne HF']; subst. rewrite lastValue_cons.
  destruct (Z.eqb_spec (fst e) c); [contradiction|]. apply IH. exact HF'.
Qed.

Lemma lastValue_unique (c : Z) (v : float) (entries : list (Z * float))
    (start : float) :
  NoDup (map fst entries) -> In (c, v) entries ->
  Sparse.lastValue c entries start = v.
Proof.
  revert start. induction entries as [|e rest IH]; intros start Hnd Hin;
    [destruct Hin|].
  simpl in Hnd. apply NoDup_cons in Hnd as [Hnotin Hnd].
  rewrite lastValue_cons. destruct Hin as [->|Hin].
  - simpl. rewrite Z.eqb_refl. apply lastValue_absent.
    apply Forall_forall. intros e He Heq. apply Hnotin.
    rewrite <- Heq. apply list_elem_of_fmap. exists e. auto.
  - destruct (Z.eqb_spec (fst e) c) as [Heq|Hne].
    + exfalso. apply Hnotin. rewrite Heq.
      apply list_elem_of_fmap. exists (c, v). split; [reflexivity|].
      apply list_elem_of_In. exact Hin.
    + apply IH; assumption.
Qed.

(** X7: the matrix [asMatrix] returns has the shape of the operator, and
    its row [i] is the dense form of the row view of [i]: at a column that
    no entry of the view names it holds [0], otherwise the value of the last
    entry that names the column (the value of the entry, when the view names
    each column once). *)
Theorem X7_asMatrix_is_the_dense_form (m : Sparse.Epetra_CrsMatrix)
    (M : Matrix) :
  0 <= Sparse.NumGlobalRows m -> 0 <= Sparse.NumGlobalCols m ->
  Sparse.asMatrix m = Sparse.Done M ->
  rows M = Sparse.NumGlobalRows m /\ cols M = Sparse.NumGlobalCols m /\
  forall i j, 0 <= i < Sparse.NumGlobalRows m ->
    let entries := snd (Sparse.ExtractMyRowView m i) in
    coeff M i j = Sparse.lastValue j entries Dbl.zero /\
    (Forall (fun e => fst e <> j) entries -> coeff M i j = Dbl.zero) /\
    (forall v, NoDup (map fst entries) -> In (j, v) entries -> coeff M i j = v).
Proof.
  unfold Sparse.asMatrix. intros _ _ H.
  destruct (Sparse.NumProc m =? 1); [|discriminate].
  apply asMatrixRows_done in H as (HR & HC & _ & HM); [|apply NoDup_seqZ].
  split; [exact HR|]. split; [exact HC|].
  intros i j Hi. cbv zeta.
  set (view := snd (Sparse.ExtractMyRowView m i)).
  assert (Hv : coeff M i j = Sparse.lastValue j view Dbl.zero).
  { rewrite HM. rewrite bool_decide_eq_true_2 by (apply elem_of_seqZ; lia).
    reflexivity. }
  split; [exact Hv|]. split.
  - intros HF. rewrite Hv. apply lastValue_absent. exact HF.
  - intros v Hnd Hin. rewrite Hv. apply lastValue_unique; assumption.
Qed.

Lemma X7_asMatrix_is_the_dense_form_witness :
  exists M,
    Sparse.asMatrix Sparse.example = Sparse.Done M /\
    to_rows M = [[0%float; 7%float; 0%float]; [4%float; 0%float; 9%float]] /\
    rows M = 2 /\ cols M = 3 /\
    coeff M 1 2 = Sparse.lastValue 2 [(0, 4%float); (2, 9%float)] Dbl.zero.
Proof.
  destruct (Sparse.asMatrix Sparse.example) as [M|e] eqn:E;
    [|vm_compute in E; discriminate].
  assert (Hrows : to_rows M =
                  [[0%float; 7%float; 0%float]; [4%float; 0%float; 9%float]]).
  { change (to_rows M) with
      (match Sparse.Done M with
       | Sparse.Done M' => to_rows M' | Sparse.Thrown _ => [] end).
    rewrite <- E. vm_compute. reflexivity. }
  destruct (X7_asMatrix_is_the_dense_form Sparse.example M
              ltac:(vm_compute; discriminate) ltac:(vm_compute; discriminate) E)
    as (HR & HC & Hco).
  exists M. split; [reflexivity|]. split; [exact Hrows|].
  split; [exact HR|]. split; [exact HC|].
  exact (proj1 (Hco 1 2 ltac:(vm_compute; intuition discriminate))).
Defined.

Lemma asMatrixRows_thrown (m : Sparse.Epetra_CrsMatrix) :
  forall (rowsLeft : list Z) (mat : Matrix) (e : Sparse.Exception),
    Sparse.asMatrixRows m rowsLeft mat = Sparse.Thrown e ->
    e = Sparse.IndexOutOfBounds \/ e = Sparse.AsMatrixRowViewFailed.
Proof.
  induction rowsLeft as [|row rest IH]; intros mat e H; [discriminate|].
  simpl in H.
  destruct (Sparse.ExtractMyRowView m row) as [errorCode view].
  destruct (errorCode =? 0).
  - destruct (Sparse.storeEntries mat row view) as [m1|].
    + eapply IH. exact H.
    + injection H as <-. auto.
  - injection H as <-. auto.
Qed.

(** X8: [asMatrix] returns a matrix exactly when the operator lives on one
    process, every row below [NumGlobalRows()] can be viewed, and every
    column index of these views is a column of the operator; otherwise it
    throws. A matrix on several processes is refused before any row is read. *)
Theorem X8_asMatrix_returns_iff_readable (m : Sparse.Epetra_CrsMatrix) :
  0 <= Sparse.NumGlobalRows m -> 0 <= Sparse.NumGlobalCols m ->
  ((exists M, Sparse.asMatrix m = Sparse.Done M) <->
   Sparse.NumProc m = 1 /\ Sparse.readable m) /\
  (Sparse.NumProc m <> 1 <->
   Sparse.asMatrix m = Sparse.Thrown Sparse.DistributedUnsupported).
Proof.
  intros _ _. split; [split|split].
  - intros [M H]. unfold Sparse.asMatrix in H.
    destruct (Z.eqb_spec (Sparse.NumProc m) 1) as [Hp|]; [|discriminate].
    split; [exact Hp|].
    apply asMatrixRows_done in H as (_ & _ & Hview & _); [|apply NoDup_seqZ].
    intros row Hrow. apply Hview, elem_of_seqZ. lia.
  - intros [Hp Hread]. unfold Sparse.asMatrix. rewrite Hp. simpl.
    apply asMatrixRows_total. intros row Hin. apply elem_of_seqZ in Hin.
    simpl. split; [lia|]. apply Hread. lia.
  - intros Hp. unfold Sparse.asMatrix.
    destruct (Z.eqb_spec (Sparse.NumProc m) 1); [contradiction|reflexivity].
  - unfold Sparse.asMatrix.
    destruct (Z.eqb_spec (Sparse.NumProc m) 1) as [Hp|Hp]; [|auto].
    intros H. apply asMatrixRows_thrown in H as [H|H]; discriminate.
Qed.

Lemma X8_asMatrix_returns_iff_readable_witness :
  Sparse.readable Sparse.example /\
  exists M, Sparse.asMatrix Sparse.example = Sparse.Done M.
Proof.
  assert (Hread : Sparse.readable Sparse.example).
  { intros row Hrow. change (Sparse.NumGlobalRows Sparse.example) with 2 in Hrow.
    assert (Hc : row = 0 \/ row = 1) by lia.
    destruct Hc as [->| ->]; (split; [reflexivity|]);
      repeat constructor; simpl; vm_compute; discriminate. }
  split; [exact Hread|].
  apply (proj1 (X8_asMatrix_returns_iff_readable Sparse.example
                  ltac:(vm_compute; discriminate)
                  ltac:(vm_compute; discriminate))).
  split; [reflexivity|exact Hread].
Defined.

(** ** [addBlock] *)

Lemma addedValue_cons (alpha : float) (c : Z) (e : Z * float)
    (entries : list (Z * float)) (start : float) :
  Sparse.addedValue alpha c (e :: entries) start =
  Sparse.addedValue alpha c entries
    (if fst e =? c then PrimFloat.add start (PrimFloat.mul alpha (snd e))
     else start).
Proof. reflexivity. Qed.

Lemma addedValue_absent (alpha : float) (c : Z) (entries : list (Z * float))
    (start : float) :
  Forall (fun e => fst e <> c) entries ->
  Sparse.addedValue alpha c entries start = start.
Proof.
  revert start. induction entries as [|e rest IH]; intros start HF;
    [reflexivity|].
  inversion HF as [|? ? Hne HF']; subst. rewrite addedValue_cons.
  destruct (Z.eqb_spec (fst e) c); [contradiction|]. apply IH. exact HF'.
Qed.

Lemma addedValue_unique (alpha : float) (c : Z) (v : float)
    (entries : list (Z * float)) (start : float) :
  NoDup (map fst entries) -> In (c, v) entries ->
  Sparse.addedValue alpha c entries start =
  PrimFloat.add start (PrimFloat.mul alpha v).
Proof.
  revert start. induction entries as [|e rest IH]; intros start Hnd Hin;
    [destruct Hin|].
  simpl in Hnd. apply NoDup_cons in Hnd as [Hnotin Hnd].
  rewrite addedValue_cons. destruct Hin as [->|Hin].
  - simpl. rewrite Z.eqb_refl. apply addedValue_absent.
    apply Forall_forall. intros e He Heq. apply Hnotin.
    rewrite <- Heq. apply list_elem_of_fmap. exists e. auto.
  - destruct (Z.eqb_spec (fst e) c) as [Heq|Hne].
    + exfalso. apply Hnotin. rewrite Heq.
      apply list_elem_of_fmap. exists (c, v). split; [reflexivity|].
      apply list_elem_of_In. exact Hin.
    + apply IH; assumption.
Qed.

Lemma addEntries_spec (alpha : float) (row col colIndex : Z) :
  forall (entries : list (Z * float)) (block : Matrix),
    rows (Sparse.addEntries alpha block row col colIndex entries) = rows block /\
    cols (Sparse.addEntries alpha block row col colIndex entries) = cols block /\
    forall i j,
      coeff (Sparse.addEntries alpha block row col colIndex entries) i j =
      if (i =? row) && (j =? col)
      then Sparse.addedValue alpha colIndex entries (coeff block i j)
      else coeff block i j.
Proof.
  intros entries. induction entries as [|[index value] rest IH]; intros block.
  - split; [reflexivity|]. split; [reflexivity|].
    intros i j. destruct ((i =? row) && (j =? col)); reflexivity.
  - simpl Sparse.addEntries.
    destruct (IH (if index =? colIndex
                  then Sparse.addAt block row col (PrimFloat.mul alpha value)
                  else block)) as (HR & HC & Hco).
    split; [rewrite HR; destruct (index =? colIndex); reflexivity|].
    split; [rewrite HC; destruct (index =? colIndex); reflexivity|].
    intros i j. rewrite Hco, addedValue_cons. simpl fst. simpl snd.
    destruct ((i =? row) && (j =? col)) eqn:E;
      destruct (index =? colIndex); simpl; rewrite ?E; reflexivity.
Qed.

Lemma addCols_spec (alpha : float) (row : Z) (entries : list (Z * float)) :
  forall (colsLeft : list Z) (col : Z) (block : Matrix),
    rows (Sparse.addCols alpha block row col colsLeft entries) = rows block /\
    cols (Sparse.addCols alpha block row col colsLeft entries) = cols block /\
    forall i j,
      coeff (Sparse.addCols alpha block row col colsLeft entries) i j =
      if (i =? row) && (col <=? j)
      then match colsLeft !! Z.to_nat (j - col) with
           | Some c => Sparse.addedValue alpha c entries (coeff block i j)
           | None => coeff block i j
           end
      else coeff block i j.
Proof.
  induction colsLeft as [|c rest IH]; intros col block.
  - split; [reflexivity|]. split; [reflexivity|].
    intros i j. destruct ((i =? row) && (col <=? j)); reflexivity.
  - simpl Sparse.addCols.
    destruct (IH (col + 1)
                 (Sparse.addEntries alpha block row col c entries))
      as (HR & HC & Hco).
    destruct (addEntries_spec alpha row col c entries block)
      as (HR1 & HC1 & Hco1).
    split; [congruence|]. split; [congruence|].
    intros i j. rewrite Hco, Hco1.
    destruct (Z.eqb_spec i row) as [->|Hne]; simpl; [|reflexivity].
    destruct (Z.leb_spec (col + 1) j) as [Hlt|Hge].
    + destruct (Z.leb_spec col j) as [_|?]; [|lia].
      destruct (Z.eqb_spec j col) as [?|_]; [lia|].
      replace (Z.to_nat (j - col)) with (S (Z.to_nat (j - (col + 1)))) by lia.
      reflexivity.
    + destruct (Z.eqb_spec j col) as [->|Hnc].
      * rewrite Z.leb_refl, Z.sub_diag. reflexivity.
      * destruct (Z.leb_spec col j) as [?|_]; [lia|reflexivity].
Qed.

Lemma addRows_spec (m : Sparse.Epetra_CrsMatrix) (alpha : float)
    (cols_ : list Z) :
  forall (rowsLeft : list Z) (row : Z) (block : Matrix)
         (exc : option Sparse.Exception) (block' : Matrix),
    Sparse.addRows m alpha block row rowsLeft cols_ = (exc, block') ->
    rows block' = rows block /\ cols block' = cols block /\
    exists k : nat,
      (k <= length rowsLeft)%nat /\
      (forall p r, (p < k)%nat -> rowsLeft !! p = Some r ->
         fst (fst (Sparse.rowView m r)) = 0) /\
      match exc with
      | None => k = length rowsLeft
      | Some e => exists r, rowsLeft !! k = Some r /\
                            fst (fst (Sparse.rowView m r)) <> 0 /\
                            e = snd (Sparse.rowView m r)
      end /\
      forall i j,
        coeff block' i j =
        if (row <=? i) && (i <? row + Z.of_nat k) && (0 <=? j)
        then match rowsLeft !! Z.to_nat (i - row), cols_ !! Z.to_nat j with
             | Some r, Some c =>
               Sparse.addedValue alpha c (snd (fst (Sparse.rowView m r)))
                                 (coeff block i j)
             | _, _ => coeff block i j
             end
        else coeff block i j.
Proof.
  induction rowsLeft as [|globalRow rest IH]; intros row block exc block' H.
  - injection H as <- <-. split; [reflexivity|]. split; [reflexivity|].
    exists 0%nat. split; [reflexivity|]. split; [intros; lia|].
    split; [reflexivity|].
    intros i j. destruct (_ && _); reflexivity.
  - simpl in H.
    destruct (Sparse.rowView m globalRow) as [[errorCode entries] failure] eqn:EV.
    destruct (Z.eqb_spec errorCode 0) as [->|Hne].
    + apply IH in H as (HR & HC & k & Hk & Hok & Hexc & Hco).
      destruct (addCols_spec alpha row entries cols_ 0 block)
        as (HR1 & HC1 & Hco1).
      split; [congruence|]. split; [congruence|].
      exists (S k). split; [simpl; lia|]. split.
      { intros p r Hp Hl. destruct p as [|p].
        - injection Hl as <-. rewrite EV. reflexivity.
        - apply (Hok p); [lia|exact Hl]. }
      split.
      { destruct exc as [e|].
        - destruct Hexc as (r & Hl & Hf & He). exists r. auto.
        - simpl. congruence. }
      intros i j. rewrite Hco, Hco1.
      destruct (Z.leb_spec 0 j) as [Hj|Hj];
        [|rewrite !andb_false_r; reflexivity].
      rewrite !andb_true_r, Z.sub_0_r.
      destruct (Z.eqb_spec i row) as [->|Hir].
      * destruct (Z.leb_spec (row + 1) row) as [?|_]; [lia|].
        rewrite Z.leb_refl.
        destruct (Z.ltb_spec row (row + Z.of_nat (S k))) as [_|?]; [|lia].
        rewrite Z.sub_diag. simpl. rewrite EV. reflexivity.
      * destruct (Z.leb_spec (row + 1) i) as [Hlo|Hlo].
        -- destruct (Z.leb_spec row i) as [_|?]; [|lia].
           replace (row + Z.of_nat (S k)) with (row + 1 + Z.of_nat k) by lia.
           destruct (Z.ltb_spec i (row + 1 + Z.of_nat k)) as [Hhi|Hhi];
             [|reflexivity].
           simpl.
           replace (Z.to_nat (i - row)) with (S (Z.to_nat (i - (row + 1))))
             by lia.
           reflexivity.
        -- destruct (Z.leb_spec row i) as [?|_]; [lia|]. reflexivity.
    + injection H as <- <-. split; [reflexivity|]. split; [reflexivity|].
      exists 0%nat. split; [simpl; lia|]. split; [intros; lia|]. split.
      { exists globalRow. rewrite EV. simpl. auto. }
      intros i j. replace (row + Z.of_nat 0) with row by lia.
      destruct (Z.leb_spec row i); destruct (Z.ltb_spec i row); try lia;
        reflexivity.
Qed.

(** X9: when [addBlock] returns, the block has kept its shape and entry
    [(i, j)] of the block has received [alpha * value] once for every entry of
    the view of row [rows[i]] whose column index is [cols[j]], in the order of
    the view: nothing where the view does not name the column, and
    [block(i, j) + alpha * value] where the view names each column once. *)
Theorem X9_addBlock_adds_the_scaled_entries (m : Sparse.Epetra_CrsMatrix)
    (rows_ cols_ : list Z) (alpha : float) (block block' : Matrix) :
  Sparse.addBlock m rows_ cols_ alpha block = (None, block') ->
  rows block' = rows block /\ cols block' = cols block /\
  forall (i j : nat) (r c : Z),
    rows_ !! i = Some r -> cols_ !! j = Some c ->
    let entries := snd (fst (Sparse.rowView m r)) in
    let old := coeff block (Z.of_nat i) (Z.of_nat j) in
    let new := coeff block' (Z.of_nat i) (Z.of_nat j) in
    fst (fst (Sparse.rowView m r)) = 0 /\
    new = Sparse.addedValue alpha c entries old /\
    (Forall (fun e => fst e <> c) entries -> new = old) /\
    (forall v, NoDup (map fst entries) -> In (c, v) entries ->
               new = PrimFloat.add old (PrimFloat.mul alpha v)).
Proof.
  unfold Sparse.addBlock. intros H.
  destruct (_ || _); [discriminate|].
  apply addRows_spec in H as (HR & HC & k & Hk & Hok & -> & Hco).
  split; [exact HR|]. split; [exact HC|].
  intros i j r c Hi Hj. cbv zeta.
  set (view := snd (fst (Sparse.rowView m r))).
  pose proof (lookup_lt_Some _ _ _ Hi) as Hlt.
  assert (Hv : coeff block' (Z.of_nat i) (Z.of_nat j) =
               Sparse.addedValue alpha c view
                 (coeff block (Z.of_nat i) (Z.of_nat j))).
  { rewrite Hco.
    destruct (Z.leb_spec 0 (Z.of_nat i)) as [_|?]; [|lia].
    destruct (Z.ltb_spec (Z.of_nat i) (0 + Z.of_nat (length rows_)))
      as [_|?]; [|lia].
    destruct (Z.leb_spec 0 (Z.of_nat j)) as [_|?]; [|lia].
    simpl. rewrite Z.sub_0_r, !Nat2Z.id, Hi, Hj. reflexivity. }
  split; [apply (Hok i); assumption|].
  split; [exact Hv|]. split.
  - intros HF. rewrite Hv. apply addedValue_absent. exact HF.
  - intros v Hnd Hin. rewrite Hv. apply addedValue_unique; assumption.
Qed.

Lemma X9_addBlock_adds_the_scaled_entries_witness :
  exists block',
    Sparse.addBlock Sparse.example [1; 0] [2; 1] 2%float
      (mkMatrix 2 2 (fun _ _ => 1%float)) = (None, block') /\
    to_rows block' = [[19%float; 1%float]; [1%float; 15%float]] /\
    coeff block' (Z.of_nat 0) (Z.of_nat 0) =
    PrimFloat.add 1%float (PrimFloat.mul 2%float 9%float).
Proof.
  destruct (Sparse.addBlock Sparse.example [1; 0] [2; 1] 2%float
              (mkMatrix 2 2 (fun _ _ => 1%float))) as [exc block'] eqn:E.
  assert (Hexc : exc = None).
  { change exc with (fst (exc, block')). rewrite <- E. vm_compute. reflexivity. }
  subst exc.
  assert (Hrows : to_rows block' = [[19%float; 1%float]; [1%float; 15%float]]).
  { change block' with (snd (@None Sparse.Exception, block')).
    rewrite <- E. vm_compute. reflexivity. }
  destruct (X9_addBlock_adds_the_scaled_entries _ _ _ _ _ _ E)
    as (_ & _ & Hco).
  exists block'. split; [reflexivity|]. split; [exact Hrows|].
  destruct (Hco 0%nat 0%nat 1 2 eq_refl eq_refl) as (_ & _ & _ & Hu).
  apply Hu.
  - vm_compute. apply (bool_decide_unpack _). vm_compute. exact I.
  - vm_compute. auto.
Defined.

(** X10: [addBlock] returns exactly when the block has one row per entry of
    [rows] and one column per entry of [cols] and the view of every row of
    [rows] can be taken. A block of another size is refused untouched. When
    the view of [rows[k]] is the first that cannot be taken, the exception
    names the call that failed, and the caller's block has already received
    the rows before [k], the rows from [k] on being as they were. *)
Theorem X10_addBlock_failure_leaves_a_partial_update
    (m : Sparse.Epetra_CrsMatrix) (rows_ cols_ : list Z) (alpha : float)
    (block : Matrix) :
  let sized := rows block = Z.of_nat (length rows_) /\
               cols block = Z.of_nat (length cols_) in
  let viewed r := fst (fst (Sparse.rowView m r)) = 0 in
  (fst (Sparse.addBlock m rows_ cols_ alpha block) = None <->
   sized /\ Forall viewed rows_) /\
  (~ sized ->
   Sparse.addBlock m rows_ cols_ alpha block =
   (Some Sparse.IncorrectBlockSize, block)) /\
  forall (k : nat) (r : Z),
    sized -> rows_ !! k = Some r -> ~ viewed r ->
    (forall p r', (p < k)%nat -> rows_ !! p = Some r' -> viewed r') ->
    exists block',
      Sparse.addBlock m rows_ cols_ alpha block =
      (Some (if Sparse.IndicesAreLocal m then Sparse.MyRowViewFailed
             else Sparse.GlobalRowViewFailed), block') /\
      rows block' = rows block /\ cols block' = cols block /\
      forall (i j : nat) (c : Z), cols_ !! j = Some c ->
        (forall r', (i < k)%nat -> rows_ !! i = Some r' ->
           coeff block' (Z.of_nat i) (Z.of_nat j) =
           Sparse.addedValue alpha c (snd (fst (Sparse.rowView m r')))
             (coeff block (Z.of_nat i) (Z.of_nat j))) /\
        ((k <= i)%nat ->
           coeff block' (Z.of_nat i) (Z.of_nat j) =
           coeff block (Z.of_nat i) (Z.of_nat j)).
Proof.
  cbv zeta.
  assert (Hsize : negb (rows block =? Z.of_nat (length rows_)) ||
                  negb (cols block =? Z.of_nat (length cols_)) = false <->
                  rows block = Z.of_nat (length rows_) /\
                  cols block = Z.of_nat (length cols_)).
  { destruct (Z.eqb_spec (rows block) (Z.of_nat (length rows_)));
      destruct (Z.eqb_spec (cols block) (Z.of_nat (length cols_)));
      simpl; split; intros; try discriminate; try tauto; auto. }
  split; [|split].
  - unfold Sparse.addBlock.
    destruct (_ || _) eqn:E.
    + simpl. split; [discriminate|]. intros [Hs _]. apply Hsize in Hs.
      discriminate.
    + clear E. pose proof (proj1 Hsize eq_refl) as E.
      destruct (Sparse.addRows m alpha block 0 rows_ cols_) as [exc b] eqn:ER.
      apply addRows_spec in ER as (_ & _ & k & Hk & Hok & Hexc & _).
      simpl. split.
      * intros ->. subst k. split; [exact E|].
        apply Forall_lookup. intros p r Hl. apply (Hok p); [|exact Hl].
        apply lookup_lt_Some in Hl. exact Hl.
      * intros [_ HF]. destruct exc as [e|]; [|reflexivity].
        destruct Hexc as (r & Hl & Hf & _). exfalso. apply Hf.
        exact (proj1 (Forall_lookup _ _) HF _ _ Hl).
  - intros Hns. unfold Sparse.addBlock.
    destruct (_ || _); [reflexivity|]. exfalso. apply Hns, Hsize. reflexivity.
  - intros k r Hs Hk Hbad Hgood. unfold Sparse.addBlock.
    rewrite (proj2 Hsize Hs).
    destruct (Sparse.addRows m alpha block 0 rows_ cols_) as [exc b] eqn:ER.
    apply addRows_spec in ER as (HR & HC & k' & Hk' & Hok & Hexc & Hco).
    assert (Hkk : k' = k).
    { destruct exc as [e|].
      - destruct Hexc as (r0 & Hl & Hf & _).
        destruct (Nat.lt_trichotomy k' k) as [Hlt|[Heq|Hgt]]; [|exact Heq|].
        + exfalso. apply Hf. apply (Hgood k'); assumption.
        + exfalso. apply Hbad. apply (Hok k); assumption.
      - subst k'. exfalso. apply Hbad. apply (Hok k); [|exact Hk].
        apply lookup_lt_Some in Hk. exact Hk. }
    subst k'.
    assert (He : exc = Some (if Sparse.IndicesAreLocal m
                             then Sparse.MyRowViewFailed
                             else Sparse.GlobalRowViewFailed)).
    { destruct exc as [e|].
      - destruct Hexc as (r0 & _ & _ & ->). unfold Sparse.rowView.
        destruct (Sparse.IndicesAreLocal m); reflexivity.
      - apply lookup_lt_Some in Hk. lia. }
    subst exc. exists b. split; [reflexivity|].
    split; [exact HR|]. split; [exact HC|].
    intros i j c Hj. split.
    + intros r' Hi Hl. rewrite Hco.
      destruct (Z.leb_spec 0 (Z.of_nat i)) as [_|?]; [|lia].
      destruct (Z.ltb_spec (Z.of_nat i) (0 + Z.of_nat k)) as [_|?]; [|lia].
      destruct (Z.leb_spec 0 (Z.of_nat j)) as [_|?]; [|lia].
      simpl. rewrite Z.sub_0_r, !Nat2Z.id, Hl, Hj. reflexivity.
    + intros Hi. rewrite Hco.
      destruct (Z.ltb_spec (Z.of_nat i) (0 + Z.of_nat k)) as [?|_]; [lia|].
      rewrite andb_false_r. reflexivity.
Qed.

Lemma X10_addBlock_failure_leaves_a_partial_update_witness :
  exists block',
    Sparse.addBlock Sparse.example [1; 5; 0] [0; 1] 1%float
      (mkMatrix 3 2 (fun _ _ => 0%float)) =
    (Some Sparse.MyRowViewFailed, block') /\
    to_rows block' =
    [[4%float; 0%float]; [0%float; 0%float]; [0%float; 0%float]] /\
    coeff block' (Z.of_nat 2) (Z.of_nat 1) = 0%float.
Proof.
  destruct (proj2 (proj2 (X10_addBlock_failure_leaves_a_partial_update
              Sparse.example [1; 5; 0] [0; 1] 1%float
              (mkMatrix 3 2 (fun _ _ => 0%float)))) 1%nat 5)
    as (block' & E & _ & _ & Hco).
  - split; reflexivity.
  - reflexivity.
  - vm_compute. discriminate.
  - intros p r' Hp Hl. destruct p as [|p]; [|lia].
    injection Hl as <-. reflexivity.
  - change (if Sparse.IndicesAreLocal Sparse.example
            then Sparse.MyRowViewFailed else Sparse.GlobalRowViewFailed)
      with Sparse.MyRowViewFailed in E.
    exists block'. split; [exact E|]. split.
    + change block' with
        (snd (Some Sparse.MyRowViewFailed, block')).
      rewrite <- E. vm_compute. reflexivity.
    + apply (proj2 (Hco 2%nat 1%nat 1 eq_refl)). lia.
Defined.

(** X11: [addBlock] over all rows and all columns agrees with [asMatrix].
    When [asMatrix] returns [M], the indices are local and every row view
    names each column once, [addBlock] with [rows = 0 .. NumGlobalRows()-1]
    and [cols = 0 .. NumGlobalCols()-1] returns for every block of that size,
    and it has added [alpha * M(i, j)] exactly at the stored entries: where
    row [i] stores nothing at column [j] the block is not touched. *)
Theorem X11_addBlock_over_the_whole_range_adds_asMatrix
    (m : Sparse.Epetra_CrsMatrix) (alpha : float) (block M : Matrix) :
  let R := Sparse.NumGlobalRows m in
  let C := Sparse.NumGlobalCols m in
  let view i := snd (Sparse.ExtractMyRowView m i) in
  Sparse.IndicesAreLocal m = true ->
  0 <= R -> 0 <= C ->
  (forall i, 0 <= i < R -> NoDup (map fst (view i))) ->
  Sparse.asMatrix m = Sparse.Done M ->
  rows block = R -> cols block = C ->
  exists block',
    Sparse.addBlock m (seqZ 0 R) (seqZ 0 C) alpha block = (None, block') /\
    rows block' = R /\ cols block' = C /\
    forall i j, 0 <= i < R -> 0 <= j < C ->
      (In j (map fst (view i)) ->
       coeff block' i j =
       PrimFloat.add (coeff block i j) (PrimFloat.mul alpha (coeff M i j))) /\
      (~ In j (map fst (view i)) -> coeff block' i j = coeff block i j).
Proof.
  cbv zeta. intros Hlocal HR0 HC0 Huniq HM HbR HbC.
  unfold Sparse.asMatrix in HM.
  destruct (Sparse.NumProc m =? 1); [|discriminate].
  apply asMatrixRows_done in HM as (_ & _ & Hview & HMco); [|apply NoDup_seqZ].
  unfold Sparse.addBlock.
  rewrite !length_seqZ, !Z2Nat.id, HbR, HbC, !Z.eqb_refl by lia. simpl.
  destruct (Sparse.addRows m alpha block 0 (seqZ 0 (Sparse.NumGlobalRows m))
              (seqZ 0 (Sparse.NumGlobalCols m))) as [exc b] eqn:ER.
  apply addRows_spec in ER as (HR & HC & k & Hk & Hok & Hexc & Hco).
  assert (Hrv : forall r, Sparse.rowView m r =
                          (Sparse.ExtractMyRowView m r, Sparse.MyRowViewFailed)).
  { intros r. unfold Sparse.rowView. rewrite Hlocal. reflexivity. }
  destruct exc as [e|].
  { exfalso. destruct Hexc as (r & Hl & Hf & _). apply Hf.
    rewrite Hrv. simpl. apply Hview.
    apply list_elem_of_lookup. exists k. exact Hl. }
  subst k. rewrite length_seqZ in Hco.
  exists b. split; [reflexivity|].
  split; [congruence|]. split; [congruence|].
  intros i j Hi Hj.
  assert (Hb : coeff b i j =
               Sparse.addedValue alpha j (snd (Sparse.ExtractMyRowView m i))
                 (coeff block i j)).
  { rewrite Hco.
    destruct (Z.leb_spec 0 i) as [_|?]; [|lia].
    destruct (Z.ltb_spec i (0 + Z.of_nat (Z.to_nat (Sparse.NumGlobalRows m))))
      as [_|?]; [|lia].
    destruct (Z.leb_spec 0 j) as [_|?]; [|lia].
    simpl. rewrite Z.sub_0_r.
    rewrite !lookup_seqZ_lt by lia. rewrite !Z2Nat.id by lia. simpl.
    rewrite Hrv. reflexivity. }
  assert (HMij : coeff M i j =
                 Sparse.lastValue j (snd (Sparse.ExtractMyRowView m i)) Dbl.zero).
  { rewrite HMco. rewrite bool_decide_eq_true_2 by (apply elem_of_seqZ; lia).
    reflexivity. }
  split.
  - intros Hin. apply in_map_iff in Hin as ([c v] & Hc & Hin).
    simpl in Hc. subst c.
    rewrite Hb, HMij.
    rewrite (lastValue_unique j v) by (auto using Huniq).
    apply addedValue_unique; auto.
  - intros Hnin. rewrite Hb. apply addedValue_absent.
    apply Forall_forall. intros e He Heq. apply Hnin. rewrite <- Heq.
    apply in_map. apply list_elem_of_In. exact He.
Qed.

Lemma X11_addBlock_over_the_whole_range_adds_asMatrix_witness :
  exists M block',
    Sparse.asMatrix Sparse.example = Sparse.Done M /\
    Sparse.addBlock Sparse.example (seqZ 0 2) (seqZ 0 3) 2%float
      (mkMatrix 2 3 (fun _ _ => 1%float)) = (None, block') /\
    coeff block' 1 2 =
    PrimFloat.add 1%float (PrimFloat.mul 2%float (coeff M 1 2)) /\
    coeff block' 0 0 = 1%float /\
    to_rows block' = [[1%float; 15%float; 1%float];
                      [9%float; 1%float; 19%float]].
Proof.
  destruct (Sparse.asMatrix Sparse.example) as [M|e] eqn:EM;
    [|vm_compute in EM; discriminate].
  destruct (X11_addBlock_over_the_whole_range_adds_asMatrix
              Sparse.example 2%float (mkMatrix 2 3 (fun _ _ => 1%float)) M)
    as (block' & E & _ & _ & Hco).
  - reflexivity.
  - vm_compute. discriminate.
  - vm_compute. discriminate.
  - intros i Hi. change (Sparse.NumGlobalRows Sparse.example) with 2 in Hi.
    assert (Hc : i = 0 \/ i = 1) by lia.
    destruct Hc as [->| ->]; vm_compute;
      apply (bool_decide_unpack _); vm_compute; exact I.
  - exact EM.
  - reflexivity.
  - reflexivity.
  - exists M, block'. split; [reflexivity|]. split; [exact E|].
    split; [|split].
    + apply (Hco 1 2); [vm_compute; intuition discriminate
                       |vm_compute; intuition discriminate|].
      vm_compute. auto.
    + apply (Hco 0 0); [vm_compute; intuition discriminate
                       |vm_compute; intuition discriminate|].
      vm_compute. intros [H|[]]. discriminate.
    + change block' with (snd (@None Sparse.Exception, block')).
      change (Sparse.NumGlobalRows Sparse.example) with 2 in E.
      change (Sparse.NumGlobalCols Sparse.example) with 3 in E.
      rewrite <- E. vm_compute. reflexivity.
Defined.

(** * The Python factory of function spaces *)

Section FunctionSpace.

Import String.StringSyntax.
Local Open Scope string_scope.

Lemma call_returns {Grid : Type} (f : Space.Factory) (grid : Grid) (order : option Z)
    (domains : option (list Z)) (closed : bool) :
  Space.call f grid order domains closed =
  Space.Returned
    (Space.mkCall f grid order
       (match domains with Some d => Some (d, closed) | None => None end)).
Proof. destruct domains; reflexivity. Qed.

(** X12: [function_space] builds a space exactly for the kinds ["P"] with
    an order from 1 to 10, ["DP"] with an order from 0 to 10, ["RT"] with
    order 0, and ["DUAL"] with order 0 and no subdomains; every other call
    raises a [ValueError]. The kind is compared as it is written, and a kind
    other than these four is answered with "Unknown kind" whatever the other
    arguments are: so are ["B-P"] and ["B-DP"], which the documentation of
    the function lists as supported. *)
Theorem X12_function_space_supported_kinds {Grid : Type} (grid : Grid)
    (kind : String.string) (order : Z) (domains : option (list Z))
    (closed : bool) :
  ((exists c, Space.function_space grid kind order domains closed =
              Space.Returned c) <->
   (kind = "P" /\ 1 <= order <= 10) \/
   (kind = "DP" /\ 0 <= order <= 10) \/
   (kind = "RT" /\ order = 0) \/
   (kind = "DUAL" /\ order = 0 /\ domains = None)) /\
  (Space.function_space grid kind order domains closed =
   Space.ValueError "Unknown kind" <->
   kind <> "P" /\ kind <> "DP" /\ kind <> "RT" /\ kind <> "DUAL") /\
  Space.function_space grid "B-P" order domains closed =
  Space.ValueError "Unknown kind" /\
  Space.function_space grid "B-DP" order domains closed =
  Space.ValueError "Unknown kind".
Proof.
  split; [|split; [|split; reflexivity]].
  - unfold Space.function_space.
    destruct (String.eqb_spec kind "P") as [->|HP].
    { destruct (Z.leb_spec 1 order); destruct (Z.leb_spec order 10); simpl;
        try (split; [intros [c Hc]; discriminate
                    |intros [[_ ?]|[[? _]|[[? _]|[? _]]]];
                     [lia|discriminate..]]).
      split; [intros _; left; split; [reflexivity|lia]|intros _].
      destruct (order =? 1); rewrite call_returns; eexists; reflexivity. }
    destruct (String.eqb_spec kind "DP") as [->|HDP].
    { destruct (Z.leb_spec 0 order); destruct (Z.leb_spec order 10); simpl;
        try (split; [intros [c Hc]; discriminate
                    |intros [[? _]|[[_ ?]|[[? _]|[? _]]]];
                     [discriminate|lia|discriminate..]]).
      split; [intros _; right; left; split; [reflexivity|lia]|intros _].
      destruct (order =? 0); rewrite call_returns; eexists; reflexivity. }
    destruct (String.eqb_spec kind "RT") as [->|HRT].
    { destruct (Z.eqb_spec order 0) as [->|Hne]; simpl.
      - split; [intros _; right; right; left; auto|intros _].
        rewrite call_returns. eexists. reflexivity.
      - split; [intros [c Hc]; discriminate|].
        intros [[? _]|[[? _]|[[_ ?]|[? _]]]];
          [discriminate|discriminate|contradiction|discriminate]. }
    destruct (String.eqb_spec kind "DUAL") as [->|HDUAL].
    { destruct (Z.eqb_spec order 0) as [->|Hne]; simpl.
      - destruct domains as [d|].
        + split; [intros [c Hc]; discriminate|].
          intros [[? _]|[[? _]|[[? _]|(_ & _ & ?)]]]; discriminate.
        + split; [intros _; right; right; right; auto|intros _].
          eexists. reflexivity.
      - split; [intros [c Hc]; discriminate|].
        intros [[? _]|[[? _]|[[? _]|(_ & ? & _)]]];
          [discriminate|discriminate|discriminate|contradiction]. }
    split; [intros [c Hc]; discriminate|].
    intros [[? _]|[[? _]|[[? _]|[? _]]]]; contradiction.
  - unfold Space.function_space.
    destruct (String.eqb_spec kind "P") as [->|HP].
    { split; [|intros [? _]; congruence].
      destruct (negb _); [discriminate|].
      destruct (order =? 1); rewrite call_returns; discriminate. }
    destruct (String.eqb_spec kind "DP") as [->|HDP].
    { split; [|intros (_ & ? & _); congruence].
      destruct (negb _); [discriminate|].
      destruct (order =? 0); rewrite call_returns; discriminate. }
    destruct (String.eqb_spec kind "RT") as [->|HRT].
    { split; [|intros (_ & _ & ? & _); congruence].
      destruct (negb _); [discriminate|]. rewrite call_returns. discriminate. }
    destruct (String.eqb_spec kind "DUAL") as [->|HDUAL].
    { split; [|intros (_ & _ & _ & ?); congruence].
      destruct (negb _); [discriminate|]. destruct domains; discriminate. }
    split; auto.
Qed.

(** X13: what [function_space] passes on. The space is built on the grid
    of the call; [domains] and [closed] reach the factory together, and only
    when [domains] is given, so that without [domains] the value of [closed]
    changes nothing. The order of the space is the one asked for: orders 1 of
    ["P"] and 0 of ["DP"], ["RT"] and ["DUAL"] go to the factory made for that
    order, and a polynomial factory is never given an order outside 2..10
    (continuous) or 1..10 (discontinuous). *)
Theorem X13_function_space_passes_its_arguments {Grid : Type} (grid : Grid)
    (kind : String.string) (order : Z) (domains : option (list Z))
    (closed : bool) (c : Space.Call Grid) :
  Space.function_space grid kind order domains closed = Space.Returned c ->
  Space.grid_arg c = grid /\
  Space.subdomain_args c =
    match domains with Some d => Some (d, closed) | None => None end /\
  Space.orderOf c = order /\
  (Space.factory c = Space.adaptivePiecewisePolynomialContinuousScalarSpace ->
   Space.order_arg c = Some order /\ 2 <= order <= 10) /\
  (Space.factory c = Space.adaptivePiecewisePolynomialDiscontinuousScalarSpace ->
   Space.order_arg c = Some order /\ 1 <= order <= 10) /\
  (Space.order_arg c = None <-> (order = 0 \/ (kind = "P" /\ order = 1))) /\
  forall closed',
    Space.function_space grid kind order None closed' =
    Space.function_space grid kind order None closed.
Proof.
  intros H.
  assert (Hclosed : forall closed',
             Space.function_space grid kind order None closed' =
             Space.function_space grid kind order None closed)
    by reflexivity.
  unfold Space.function_space in H.
  destruct (String.eqb_spec kind "P") as [->|HP].
  { destruct (Z.leb_spec 1 order); destruct (Z.leb_spec order 10);
      simpl in H; try discriminate.
    destruct (Z.eqb_spec order 1) as [->|Hne];
      rewrite call_returns in H; injection H as <-;
      unfold Space.orderOf; simpl;
      (split; [reflexivity|]); (split; [reflexivity|]);
      (split; [reflexivity|]);
      intuition (try discriminate; try lia; auto). }
  destruct (String.eqb_spec kind "DP") as [->|HDP].
  { destruct (Z.leb_spec 0 order); destruct (Z.leb_spec order 10);
      simpl in H; try discriminate.
    destruct (Z.eqb_spec order 0) as [->|Hne];
      rewrite call_returns in H; injection H as <-;
      unfold Space.orderOf; simpl;
      (split; [reflexivity|]); (split; [reflexivity|]);
      (split; [reflexivity|]);
      intuition (try discriminate; try lia; auto). }
  destruct (String.eqb_spec kind "RT") as [->|HRT].
  { destruct (Z.eqb_spec order 0) as [->|Hne]; simpl in H; [|discriminate].
    rewrite call_returns in H. injection H as <-.
    unfold Space.orderOf. simpl.
    split; [reflexivity|]. split; [reflexivity|]. split; [reflexivity|].
    intuition (try discriminate; auto). }
  destruct (String.eqb_spec kind "DUAL") as [->|HDUAL]; [|discriminate].
  destruct (Z.eqb_spec order 0) as [->|Hne]; simpl in H; [|discriminate].
  destruct domains as [d|]; [discriminate|]. injection H as <-.
  unfold Space.orderOf. simpl.
  split; [reflexivity|]. split; [reflexivity|]. split; [reflexivity|].
  intuition (try discriminate; auto).
Qed.

Lemma X13_function_space_passes_its_arguments_witness :
  exists c,
    Space.function_space tt "DP" 3 (Some [1; 4]) false = Space.Returned c /\
    Space.factory c =
    Space.adaptivePiecewisePolynomialDiscontinuousScalarSpace /\
    Space.subdomain_args c = Some ([1; 4], false) /\
    Space.orderOf c = 3.
Proof.
  eexists. split; [reflexivity|]. split; [reflexivity|].
  match goal with
  | |- Space.subdomain_args ?c = _ /\ _ =>
    destruct (X13_function_space_passes_its_arguments
                tt "DP" 3 (Some [1; 4]) false c eq_refl)
      as (_ & Hs & Ho & _)
  end.
  split; [exact Hs|exact Ho].
Defined.

End FunctionSpace.
